(** * Multiplexed file transfer over one connection: model and properties

    A shallow embedding of [server.py] (the sender: [QuicServer.set_up_server],
    [QuicServer.send_file], [QuicServer.close]) and of [client.py] (the
    receiver: [QuicClient.recv_file] and the initialisation of its shared
    state), with the parts of the Python runtime they rely on:
    [struct.pack] / [struct.unpack] with format ['!iii'], slicing, list
    indexing and a stream socket.

    Conventions.  Python integers are [Z]; byte strings are [list byte]; the
    dictionary [file_buffers] is a [gmap Z bytes]; the list [curret_package]
    is a [list Z].  A call that may raise returns an [outcome]; whatever was
    written to the connection before the exception is kept next to it.
    Wall-clock readings ([time.time()]) are not modelled. *)

From Stdlib Require Import ZArith QArith Lia Strings.Byte Strings.String DecimalString DecimalPos.
From stdpp Require Import gmap list.

Local Open Scope Z_scope.

(** ** Python values and exceptions *)

Abbreviation bytes := (list byte).

(** [len(x)] as a Python integer. *)
Definition py_len {A} (l : list A) : Z := Z.of_nat (length l).

Inductive exn : Type :=
| ZeroDivisionError
| StructError
| ValueError
| IndexError
| OSError.

Inductive outcome (A : Type) : Type :=
| Returned (a : A)
| Raised (e : exn).
Arguments Returned {A} a.
Arguments Raised {A} e.

(** An index of a slice, brought into [0 .. n] the way Python does it:
    negative indices count from the end, everything is clipped. *)
Definition clamp_index (n i : Z) : Z :=
  if i <? 0 then Z.max 0 (i + n) else Z.min i n.

(** [l[lo:hi]]. *)
Definition py_slice {A} (l : list A) (lo hi : Z) : list A :=
  let n := py_len l in
  let a := clamp_index n lo in
  let b := clamp_index n hi in
  take (Z.to_nat (b - a)) (drop (Z.to_nat a) l).

(** The position that subscript [i] denotes in a list of length [n];
    [None] is [IndexError]. *)
Definition py_index (n i : Z) : option nat :=
  if (0 <=? i) && (i <? n) then Some (Z.to_nat i)
  else if (- n <=? i) && (i <? 0) then Some (Z.to_nat (i + n))
  else None.

(** [range(n)] as a list. *)
Definition py_range (n : Z) : list Z := Z.of_nat <$> seq 0 (Z.to_nat n).

(** ** Frame codec: [struct.pack("!iii", a, b, c)] and [struct.unpack] *)

Module Codec.

Definition i32_min : Z := -2147483648.
Definition i32_max : Z := 2147483647.

(** The range accepted by format character [i]. *)
Definition in_i32 (v : Z) : bool := (i32_min <=? v) && (v <=? i32_max).

Definition byte_of_Z (z : Z) : byte :=
  match Byte.of_N (Z.to_N (Z.land z 255)) with
  | Some b => b
  | None => x00
  end.

Definition Z_of_byte (b : byte) : Z := Z.of_N (Byte.to_N b).

(** One field with format [!i]: four bytes, most significant first, in
    two's complement; [None] is [struct.error] (argument out of range). *)
Definition pack_i (v : Z) : option bytes :=
  if in_i32 v
  then Some [ byte_of_Z (Z.shiftr v 24); byte_of_Z (Z.shiftr v 16);
              byte_of_Z (Z.shiftr v 8); byte_of_Z v ]
  else None.

(** Four bytes put together, the first one in the highest place. *)
Definition assemble (b0 b1 b2 b3 : byte) : Z :=
  Z.lor (Z.shiftl (Z_of_byte b0) 24)
    (Z.lor (Z.shiftl (Z_of_byte b1) 16)
      (Z.lor (Z.shiftl (Z_of_byte b2) 8) (Z_of_byte b3))).

Definition unpack_i (b0 b1 b2 b3 : byte) : Z :=
  let u := assemble b0 b1 b2 b3 in
  if Z.testbit u 31 then u - 4294967296 else u.

(** [struct.pack("!iii", a, b, c)]. *)
Definition pack_iii (a b c : Z) : option bytes :=
  match pack_i a, pack_i b, pack_i c with
  | Some x, Some y, Some z => Some (x ++ y ++ z)
  | _, _, _ => None
  end.

(** [struct.unpack('!iii', header)]: the buffer must hold exactly 12
    bytes, otherwise [struct.error] ([None]). *)
Definition unpack_iii (header : bytes) : option (Z * Z * Z) :=
  match header with
  | [a0; a1; a2; a3; b0; b1; b2; b3; c0; c1; c2; c3] =>
      Some (unpack_i a0 a1 a2 a3, unpack_i b0 b1 b2 b3, unpack_i c0 c1 c2 c3)
  | _ => None
  end.

(** The unsigned number that a byte string denotes when it is read most
    significant byte first (network order). *)
Definition be_value (bs : bytes) : Z :=
  fold_left (fun acc b => acc * 256 + Z_of_byte b) bs 0.

End Codec.

Import Codec.

(** ** The sender, [server.py] *)

Module Server.

(** *** [QuicServer.send_file] *)

(** What one call leaves behind: for every [with self.lock:] block in
    which something was sent, the buffers handed to [self.connection.send]
    inside it, in order; and either the pair [(sum_bytes, num_packages)] of
    the statistic put on the [result] queue, or the exception that ended
    the call.  A buffer handed to [send] counts as written whole: the code
    does not look at what [send] returns. *)
Definition sent := (list (list bytes) * outcome (Z * Z))%type.

(** The loop [for i in range(num_packages)], from index [i] on, with [n]
    iterations to go. *)
Fixpoint send_packages (package_size : Z) (file_data : bytes) (id_stream : Z)
    (i : Z) (n : nat) (sum_bytes : Z) : list (list bytes) * outcome Z :=
  match n with
  | O => ([], Returned sum_bytes)
  | S n' =>
      let package := py_slice file_data (i * package_size) ((i + 1) * package_size) in
      match pack_iii id_stream (py_len package) i with
      | None => ([], Raised StructError)
      | Some header =>
          let '(blocks, r) :=
            send_packages package_size file_data id_stream (i + 1) n'
              (sum_bytes + py_len package) in
          ([header; package] :: blocks, r)
      end
  end.

Definition send_file (package_size : Z) (file_data : bytes) (id_stream : Z) : sent :=
  let total_length := py_len file_data in
  if package_size =? 0 then ([], Raised ZeroDivisionError)
  else
    let num_packages := (total_length + package_size - 1) / package_size in
    match send_packages package_size file_data id_stream 0 (Z.to_nat num_packages) 0 with
    | (blocks, Raised e) => (blocks, Raised e)
    | (blocks, Returned sum_bytes) =>
        match pack_iii id_stream 0 0 with
        | None => (blocks, Raised StructError)
        | Some marker => (blocks ++ [[marker]], Returned (sum_bytes, num_packages))
        end
    end.

(** The buffers written to the connection, in order. *)
Definition wire (r : sent) : list bytes := concat (fst r).

(** *** [QuicServer.set_up_server] *)

Record server := {
  number_of_files : Z;
  connection : option nat;
  client_address : option (string * Z)
}.

Record set_up := {
  self' : server;
  handshake_sent : list bytes;
  printed : list string;
  set_up_status : outcome unit
}.

(** [f"{n}".encode()] *)
Definition str_encode (n : Z) : bytes :=
  list_byte_of_string (NilZero.string_of_int (Z.to_int n)).

Section SetUp.

(** [int(number.decode())] of the Python runtime: the integer that a
    received text denotes, [None] when it raises ([ValueError], of which
    [UnicodeDecodeError] is a subclass). *)
Variable int_decode : bytes -> option Z.

(** [accepted] is what [self.server_socket.accept()] returns and [number]
    what [self.connection.recv(1024)] returns. *)
Definition set_up_server (self : server) (accepted : nat * (string * Z))
    (number : bytes) : set_up :=
  let self1 := {| number_of_files := number_of_files self;
                  connection := Some (fst accepted);
                  client_address := Some (snd accepted) |} in
  let out := [str_encode (number_of_files self)] in
  let lines := ["Client connected...sending number of files the client should expect";
                "Sent it, now we will wait for the client to send it back so we can start..."]%string in
  match int_decode number with
  | None =>
      {| self' := self1; handshake_sent := out; printed := lines;
         set_up_status := Raised ValueError |}
  | Some v =>
      {| self' := self1; handshake_sent := out;
         printed := if v =? number_of_files self then lines
                    else lines ++ ["Problem here..."%string];
         set_up_status := Returned tt |}
  end.

End SetUp.

(** The plain decimal texts: an optional sign and one or more ASCII
    digits, a fragment of what [int()] accepts, with the value [int()]
    gives them; any other text is rejected here. *)
Definition digit_of_byte (b : byte) : option Z :=
  let v := Z_of_byte b in
  if (48 <=? v) && (v <=? 57) then Some (v - 48) else None.

Fixpoint digits_value (acc : Z) (bs : bytes) : option Z :=
  match bs with
  | [] => Some acc
  | b :: rest =>
      match digit_of_byte b with
      | Some d => digits_value (acc * 10 + d) rest
      | None => None
      end
  end.

Definition decimal_int (bs : bytes) : option Z :=
  match bs with
  | [] => None
  | b :: rest =>
      if Byte.eqb b "-"%byte
      then match rest with [] => None | _ => Z.opp <$> digits_value 0 rest end
      else if Byte.eqb b "+"%byte
      then match rest with [] => None | _ => digits_value 0 rest end
      else digits_value 0 bs
  end.

(** *** [QuicServer.close] *)

Section Close.

(** The numbers that occur as times and rates: Python floats, and the
    integer [0] that [total_time] and the rates start from.  [num_gt]
    is [>] on them and [true_div] is [/] with an integer on the left. *)
Variable num : Type.
Variable num_zero : num.
Variable num_gt : num -> num -> bool.
Variable true_div : Z -> num -> num.

(** The tuple that [send_file] puts on the queue:
    [(file_path, sum_bytes, num_packages, avg_bytes_per_sec,
      avg_packages_per_sec, total_time_in_sec, time_until_sending)]. *)
Record file_stat := {
  stat_path : string;
  stat_bytes : Z;
  stat_packages : Z;
  stat_bytes_per_sec : num;
  stat_packages_per_sec : num;
  stat_elapsed : num;
  stat_first_send : num
}.

Record totals := {
  sum_bytes : Z;
  sum_packages : Z;
  total_time : num;
  avg_bytes_per_sec : num;
  avg_packages_per_sec : num
}.

(** One round of [for file_stat in statistic], on the three running
    values [(sum_bytes, sum_packages, total_time)]. *)
Definition close_step (acc : Z * Z * num) (fs : file_stat) : Z * Z * num :=
  let '(sb, sp, t) := acc in
  (sb + stat_bytes fs, sp + stat_packages fs,
   if num_gt (stat_elapsed fs) t then stat_elapsed fs else t).

Definition close (statistic : list file_stat) : totals :=
  let '(sb, sp, t) := fold_left close_step statistic (0, 0, num_zero) in
  if num_gt t num_zero
  then {| sum_bytes := sb; sum_packages := sp; total_time := t;
          avg_bytes_per_sec := true_div sb t;
          avg_packages_per_sec := true_div sp t |}
  else {| sum_bytes := sb; sum_packages := sp; total_time := t;
          avg_bytes_per_sec := num_zero;
          avg_packages_per_sec := num_zero |}.

End Close.

Arguments stat_path {num} _.
Arguments stat_bytes {num} _.
Arguments stat_packages {num} _.
Arguments stat_bytes_per_sec {num} _.
Arguments stat_packages_per_sec {num} _.
Arguments stat_elapsed {num} _.
Arguments stat_first_send {num} _.
Arguments sum_bytes {num} _.
Arguments sum_packages {num} _.
Arguments total_time {num} _.
Arguments avg_bytes_per_sec {num} _.
Arguments avg_packages_per_sec {num} _.
Arguments close {num} num_zero num_gt true_div statistic.
Arguments close_step {num} num_gt acc fs.

(** Times and rates as rational numbers. *)
Definition Q_gt (a b : Q) : bool := negb (Qle_bool a b).
Definition Q_true_div (a : Z) (b : Q) : Q := (inject_Z a / b)%Q.

End Server.

(** ** The receiver, [client.py] *)

Module Client.

(** *** The connection as the receiver sees it *)

(** The bytes still to come, in the pieces in which they become
    available to [recv], and whether the peer closes the connection after
    them. *)
Record sock := {
  arrivals : list bytes;
  peer_closed : bool
}.

Inductive recv_result : Type :=
| RecvData (data : bytes) (s' : sock)
| RecvBlocks
| RecvRaises (e : exn).

(** At most [n] bytes of the first piece that is not empty. *)
Fixpoint take_available (n : nat) (arr : list bytes) : option (bytes * list bytes) :=
  match arr with
  | [] => None
  | piece :: rest =>
      match piece with
      | [] => take_available n rest
      | _ :: _ =>
          Some (take n piece,
                match drop n piece with
                | [] => rest
                | _ :: _ => drop n piece :: rest
                end)
      end
  end.

(** [self.client_socket.recv(n)]: up to [n] bytes of what is available;
    the empty string at end of stream; no return while nothing is
    available and the peer has not closed. *)
Definition recv (n : Z) (s : sock) : recv_result :=
  if n <? 0 then RecvRaises ValueError
  else if n =? 0 then RecvData [] s
  else
    match take_available (Z.to_nat n) (arrivals s) with
    | Some (data, rest) =>
        RecvData data {| arrivals := rest; peer_closed := peer_closed s |}
    | None =>
        if peer_closed s
        then RecvData [] {| arrivals := []; peer_closed := true |}
        else RecvBlocks
    end.

(** *** The shared stream state *)

Record streams := {
  file_buffers : gmap Z bytes;
  curret_package : list Z
}.

(** [file_buffers = {i: bytearray() for i in range(n)}] and
    [curret_package = [0] * n]. *)
Definition initial_streams (n : Z) : streams :=
  {| file_buffers := list_to_map ((fun i => (i, [])) <$> py_range n);
     curret_package := replicate (Z.to_nat n) 0 |}.

(** *** The body of the worker loop *)

Inductive exit_reason : Type :=
| EndOfStream            (* [if not header: break] *)
| ZeroLength             (* [if data_length == 0: break] *)
| Caught (e : exn).      (* [except Exception as e: ... break] *)

Inductive read_result : Type :=
| ReadFrame (id_stream data_length id_package : Z) (package : bytes) (s' : sock)
| ReadBreak (why : exit_reason) (s' : sock)
| ReadBlocks.

(** The block under [with self.lock:]. *)
Definition read_frame (s : sock) : read_result :=
  match recv 12 s with
  | RecvRaises e => ReadBreak (Caught e) s
  | RecvBlocks => ReadBlocks
  | RecvData header s1 =>
      match header with
      | [] => ReadBreak EndOfStream s1
      | _ :: _ =>
          match unpack_iii header with
          | None => ReadBreak (Caught StructError) s1
          | Some (id_stream, data_length, id_package) =>
              if data_length =? 0 then ReadBreak ZeroLength s1
              else
                match recv data_length s1 with
                | RecvRaises e => ReadBreak (Caught e) s1
                | RecvBlocks => ReadBlocks
                | RecvData package s2 =>
                    ReadFrame id_stream data_length id_package package s2
                end
          end
      end
  end.

Inductive commit_result : Type :=
| Committed (st' : streams)
| NotRegistered          (* [id_stream] is no key of [file_buffers] *)
| Waiting                (* the counter differs: the inner loop polls again *)
| CommitRaised (e : exn).

(** One evaluation of the part after the lock is released: the test
    [id_stream in file_buffers] and one round of the inner [while]. *)
Definition commit_package (st : streams) (id_stream id_package : Z)
    (package : bytes) : commit_result :=
  match file_buffers st !! id_stream with
  | None => NotRegistered
  | Some buffer =>
      match py_index (py_len (curret_package st)) id_stream with
      | None => CommitRaised IndexError
      | Some k =>
          match curret_package st !! k with
          | None => CommitRaised IndexError
          | Some current =>
              if current =? id_package
              then Committed
                     {| file_buffers := <[id_stream := buffer ++ package]> (file_buffers st);
                        curret_package := <[k := current + 1]> (curret_package st) |}
              else Waiting
          end
      end
  end.

(** *** [QuicClient.recv_file], one worker on its own *)

Inductive log_entry : Type :=
| LogException (e : exn)                    (* "Exception during receiving data: ..." *)
| LogWriting (id_stream size number : Z).   (* "Writing package stream id: ..." *)

Inductive ending : Type :=
| Exited (why : exit_reason)   (* the outer loop was left by [break] *)
| Blocked                      (* [recv] does not return *)
| Polling                      (* the inner loop does not end *)
| Crashed (e : exn)            (* an exception left [recv_file] *)
| Running.                     (* more rounds than counted *)

Record run := {
  how : ending;
  conn : sock;
  state : streams;
  log : list log_entry
}.

Definition log_exit (why : exit_reason) : list log_entry :=
  match why with
  | Caught e => [LogException e]
  | _ => []
  end.

(** [rounds] bounds the number of rounds of [while True]. *)
Fixpoint recv_file (rounds : nat) (s : sock) (st : streams)
    (lg : list log_entry) : run :=
  match rounds with
  | O => {| how := Running; conn := s; state := st; log := lg |}
  | S rounds' =>
      match read_frame s with
      | ReadBlocks => {| how := Blocked; conn := s; state := st; log := lg |}
      | ReadBreak why s' =>
          {| how := Exited why; conn := s'; state := st; log := lg ++ log_exit why |}
      | ReadFrame id_stream data_length id_package package s' =>
          match commit_package st id_stream id_package package with
          | NotRegistered => recv_file rounds' s' st lg
          | Committed st' =>
              recv_file rounds' s' st'
                (lg ++ [LogWriting id_stream data_length id_package])
          | Waiting => {| how := Polling; conn := s'; state := st; log := lg |}
          | CommitRaised e => {| how := Crashed e; conn := s'; state := st; log := lg |}
          end
      end
  end.

(** *** The stream state under commits taken one at a time

    A commit is the step [commit_package] with result [Committed]: the
    comparison, the increment and the [extend] of the inner loop of one
    worker, with no step of another worker between them.  [reachable]
    holds of the states reached from the initial state by such steps, for
    any frames in any order: the states that one worker brings about, and
    those that several bring about as long as their commits do not
    overlap.  The statements of the inner loop one by one, for workers
    that run at the same time, are in module [Race]. *)

Inductive commit_event : Type :=
| Commit (id_stream id_package : Z) (package : bytes).

Definition event_stream (e : commit_event) : Z :=
  match e with Commit id _ _ => id end.
Definition event_sequence (e : commit_event) : Z :=
  match e with Commit _ seq _ => seq end.
Definition event_payload (e : commit_event) : bytes :=
  match e with Commit _ _ p => p end.

Inductive reachable (n : Z) : list commit_event -> streams -> Prop :=
| reach_initial : reachable n [] (initial_streams n)
| reach_commit tr st id_stream id_package package st' :
    reachable n tr st ->
    commit_package st id_stream id_package package = Committed st' ->
    reachable n (tr ++ [Commit id_stream id_package package]) st'.

(** The keys of [file_buffers] and the length of [curret_package] are
    those of the initial state. *)
Definition well_formed (n : Z) (st : streams) : Prop :=
  (forall id, is_Some (file_buffers st !! id) <-> 0 <= id < n) /\
  length (curret_package st) = Z.to_nat n.

(** The commits of one stream, oldest first. *)
Definition commits_of (id_stream : Z) (tr : list commit_event) : list commit_event :=
  filter (fun e => event_stream e = id_stream) tr.

End Client.

(** ** The lock around the connection

    Threads that share one connection and one [threading.Lock].  A thread
    is outside any [with self.lock:] block, or inside one, with the rest of
    the block still to run; inside a block it sends on the connection and
    receives from it.  One step of the machine is one step of one thread:
    entering a block (possible only while the lock is free), one [send],
    one [recv] that returns or raises, or leaving the block.  What a thread
    does between two blocks does not touch the connection and is no step
    of its own. *)

Module Guard.

(** The rest of a [with self.lock:] block; [Leave l] ends it, with [l] the
    thread's state after the block. *)
Inductive script (L : Type) : Type :=
| Leave (l : L)
| Send (data : bytes) (k : script L)
| Recv (n : Z) (k : outcome bytes -> script L).
Arguments Leave {L} l.
Arguments Send {L} data k.
Arguments Recv {L} n k.

Inductive status (L : Type) : Type :=
| Outside (l : L)
| Inside (sc : script L).
Arguments Outside {L} l.
Arguments Inside {L} sc.

(** The connection: what has been sent on it, and what is to be received
    from it. *)
Record connection := {
  sent_out : list bytes;
  channel : Client.sock
}.

Definition write (data : bytes) (c : connection) : connection :=
  {| sent_out := sent_out c ++ [data]; channel := channel c |}.

Definition consume (s' : Client.sock) (c : connection) : connection :=
  {| sent_out := sent_out c; channel := s' |}.

Record machine (L : Type) := {
  lock : option nat;
  threads : list (status L);
  link : connection
}.
Arguments lock {L} _.
Arguments threads {L} _.
Arguments link {L} _.

Section Machine.

Context {L : Type}.

(** The block that a thread in state [l] enters next, if any. *)
Variable section_of : L -> option (script L).

Inductive step : machine L -> machine L -> Prop :=
| step_acquire m t l sc :
    lock m = None ->
    threads m !! t = Some (Outside l) ->
    section_of l = Some sc ->
    step m {| lock := Some t; threads := <[t := Inside sc]> (threads m); link := link m |}
| step_send m t data k :
    threads m !! t = Some (Inside (Send data k)) ->
    step m {| lock := lock m; threads := <[t := Inside k]> (threads m);
              link := write data (link m) |}
| step_recv m t n k data s' :
    threads m !! t = Some (Inside (Recv n k)) ->
    Client.recv n (channel (link m)) = Client.RecvData data s' ->
    step m {| lock := lock m; threads := <[t := Inside (k (Returned data))]> (threads m);
              link := consume s' (link m) |}
| step_recv_raises m t n k e :
    threads m !! t = Some (Inside (Recv n k)) ->
    Client.recv n (channel (link m)) = Client.RecvRaises e ->
    step m {| lock := lock m; threads := <[t := Inside (k (Raised e))]> (threads m);
              link := link m |}
| step_release m t l :
    threads m !! t = Some (Inside (Leave l)) ->
    step m {| lock := None; threads := <[t := Outside l]> (threads m); link := link m |}.

(** All threads outside, the lock free. *)
Definition start (ls : list L) (c : connection) : machine L :=
  {| lock := None; threads := Outside <$> ls; link := c |}.

(** A block run from beginning to end with nothing in between; [None]
    when a [recv] in it never returns. *)
Fixpoint run (sc : script L) (c : connection) : option (L * connection) :=
  match sc with
  | Leave l => Some (l, c)
  | Send data k => run k (write data c)
  | Recv n k =>
      match Client.recv n (channel c) with
      | Client.RecvData data s' => run (k (Returned data)) (consume s' c)
      | Client.RecvRaises e => run (k (Raised e)) c
      | Client.RecvBlocks => None
      end
  end.

(** [progress sc0 c0 sc c]: a thread that entered block [sc0] when the
    connection was [c0] has come to [sc], the connection being [c], and
    nothing but this thread has used the connection in between. *)
Inductive progress (sc0 : script L) (c0 : connection) : script L -> connection -> Prop :=
| progress_start : progress sc0 c0 sc0 c0
| progress_send data k c :
    progress sc0 c0 (Send data k) c ->
    progress sc0 c0 k (write data c)
| progress_recv n k c data s' :
    progress sc0 c0 (Recv n k) c ->
    Client.recv n (channel c) = Client.RecvData data s' ->
    progress sc0 c0 (k (Returned data)) (consume s' c)
| progress_recv_raises n k c e :
    progress sc0 c0 (Recv n k) c ->
    Client.recv n (channel c) = Client.RecvRaises e ->
    progress sc0 c0 (k (Raised e)) c.

(** The thread states that occur. *)
Variable good : L -> Prop.

(** [serial c0 c]: [c] comes from [c0] by whole blocks run one after the
    other. *)
Inductive serial (c0 : connection) : connection -> Prop :=
| serial_start : serial c0 c0
| serial_section c l sc l' c' :
    serial c0 c ->
    good l ->
    section_of l = Some sc ->
    run sc c = Some (l', c') ->
    serial c0 c'.

(** The lock is held by the one thread that is inside a block; and the
    connection is what whole blocks run one after the other have made of
    it, up to the part of its block that the holder of the lock has
    run. *)
Definition guarded (c_start : connection) (m : machine L) : Prop :=
  (forall t sc, threads m !! t = Some (Inside sc) -> lock m = Some t) /\
  (forall t l, threads m !! t = Some (Outside l) -> good l) /\
  exists c0, serial c_start c0 /\
    match lock m with
    | None => link m = c0
    | Some t =>
        exists l sc0 sc,
          good l /\ section_of l = Some sc0 /\
          threads m !! t = Some (Inside sc) /\
          progress sc0 c0 sc (link m)
    end.

End Machine.

(** *** The sender threads

    The state of a sender thread is the list of the blocks it has still to
    run, each block being the buffers it sends; a thread that runs
    [send_file] starts with the blocks of [Server.send_file]. *)

Fixpoint send_all (block : list bytes) (rest : list (list bytes))
    : script (list (list bytes)) :=
  match block with
  | [] => Leave rest
  | data :: block' => Send data (send_all block' rest)
  end.

Definition sender_section (blocks : list (list bytes))
    : option (script (list (list bytes))) :=
  match blocks with
  | [] => None
  | block :: rest => Some (send_all block rest)
  end.

(** The arguments of one call of [send_file]:
    [(package_size, file_data, id_stream)]. *)
Definition transfer := (Z * bytes * Z)%type.

Definition program (tr : transfer) : list (list bytes) :=
  fst (Server.send_file tr.1.1 tr.1.2 tr.2).

Definition senders (transfers : list transfer) (c : connection)
    : machine (list (list bytes)) :=
  start (program <$> transfers) c.

(** A state of a sender thread: the blocks of some transfer that are still
    to run. *)
Definition rest_of_program (transfers : list transfer) (blocks : list (list bytes)) : Prop :=
  exists tr, tr ∈ transfers /\ blocks `suffix_of` program tr.

(** [frame] is one of the frames that the senders write. *)
Definition frame_of (transfers : list transfer) (frame : list bytes) : Prop :=
  exists tr, tr ∈ transfers /\ frame ∈ program tr.

(** *** The receiver workers

    A worker is ready for the next round of its loop or has left it.  The
    frame that a round has read is committed outside the block; in this
    machine a worker that has read a frame is ready again at once, which
    allows every order of reads that the real workers can produce. *)

Inductive worker : Type :=
| Ready
| Gone.

(** The block under [with self.lock:] in [recv_file]. *)
Definition worker_section : script worker :=
  Recv 12 (fun r =>
    match r with
    | Raised _ => Leave Gone
    | Returned header =>
        match header with
        | [] => Leave Gone
        | _ :: _ =>
            match unpack_iii header with
            | None => Leave Gone
            | Some (_, data_length, _) =>
                if data_length =? 0 then Leave Gone
                else Recv data_length (fun r' =>
                       match r' with
                       | Raised _ => Leave Gone
                       | Returned _ => Leave Ready
                       end)
            end
        end
    end).

Definition worker_next (w : worker) : option (script worker) :=
  match w with
  | Ready => Some worker_section
  | Gone => None
  end.

Definition workers (n : nat) (c : connection) : machine worker :=
  start (replicate n Ready) c.

(** [s'] comes from [s] by whole executions of the block of [recv_file],
    one after the other. *)
Inductive frame_boundary (s : Client.sock) : Client.sock -> Prop :=
| boundary_start : frame_boundary s s
| boundary_frame s1 id_stream data_length id_package package s2 :
    frame_boundary s s1 ->
    Client.read_frame s1
    = Client.ReadFrame id_stream data_length id_package package s2 ->
    frame_boundary s s2
| boundary_break s1 why s2 :
    frame_boundary s s1 ->
    Client.read_frame s1 = Client.ReadBreak why s2 ->
    frame_boundary s s2.

End Guard.

(** ** Words of the specification *)

Module Spec.

(** [ceil(a / b)] for a positive [b]. *)
Definition ceil_div (a b : Z) : Z := - ((- a) / b).

(** Chunk [i] of a source cut into pieces of [chunk_size] bytes. *)
Definition chunk (chunk_size : nat) (source : bytes) (i : nat) : bytes :=
  take chunk_size (drop (i * chunk_size) source).

(** A block of the sender's output is the data frame of chunk [i]: a
    header with the stream's id, the length of the chunk and the sequence
    number [i], and then the chunk. *)
Definition carries_chunk (chunk_size : Z) (source : bytes) (stream_id : Z)
    (i : nat) (block : list bytes) : Prop :=
  let c := chunk (Z.to_nat chunk_size) source i in
  exists header,
    block = [header; c] /\
    pack_iii stream_id (py_len c) (Z.of_nat i) = Some header.

(** Every header of the data frames [i .. i + n - 1] can be packed. *)
Definition headers_fit (chunk_size : nat) (source : bytes) (stream_id : Z)
    (i n : nat) : Prop :=
  forall j, (i <= j < i + n)%nat ->
    is_Some (pack_iii stream_id (py_len (chunk chunk_size source j)) (Z.of_nat j)).

(** A block is the terminal frame [(stream_id, 0, 0)]: a header and no
    payload. *)
Definition is_terminal (stream_id : Z) (block : list bytes) : Prop :=
  exists marker, block = [marker] /\ pack_iii stream_id 0 0 = Some marker.

(** [send_file] emits the data frames of chunks [0 .. num_packages - 1],
    in this order, and then one terminal frame. *)
Definition emits_all_frames (chunk_size : Z) (source : bytes) (stream_id : Z) : Prop :=
  let num_packages := Z.to_nat (ceil_div (py_len source) chunk_size) in
  exists blocks last,
    fst (Server.send_file chunk_size source stream_id) = blocks ++ [last] /\
    Forall2 (carries_chunk chunk_size source stream_id) (seq 0 num_packages) blocks /\
    is_terminal stream_id last.

(** What [send_file] wrote for one stream reaches a worker of a receiver
    that expects [streams] streams, every written buffer arriving in one
    piece; once the worker has gone through it, the buffer of the stream
    holds the source. *)
Definition reassembles (streams chunk_size : Z) (source : bytes) (stream_id : Z) : Prop :=
  forall closed, exists enough, forall rounds, (enough <= rounds)%nat ->
    let s := {| Client.arrivals := Server.wire (Server.send_file chunk_size source stream_id);
                Client.peer_closed := closed |} in
    let r := Client.recv_file rounds s (Client.initial_streams streams) [] in
    Client.file_buffers (Client.state r) !! stream_id = Some source.

(** A zero-length frame with sequence number 0 ends its stream and not the
    worker: the worker that decodes such a header from [s] goes on with the
    next round of its loop. *)
Definition survives_terminal_frame (s : Client.sock) (st : Client.streams) : Prop :=
  forall header s1 stream_id,
    Client.recv 12 s = Client.RecvData header s1 ->
    unpack_iii header = Some (stream_id, 0, 0) ->
    forall rounds lg,
      Client.recv_file (S rounds) s st lg = Client.recv_file rounds s1 st lg.

(** Every header read obtains 12 bytes or the end-of-stream indicator, and
    every payload read obtains as many bytes as the header declares. *)
Definition reads_are_exact (s : Client.sock) : Prop :=
  (forall header s1,
     Client.recv 12 s = Client.RecvData header s1 ->
     header = [] \/ length header = 12%nat) /\
  (forall stream_id data_length sequence package s2,
     Client.read_frame s = Client.ReadFrame stream_id data_length sequence package s2 ->
     py_len package = data_length).

End Spec.

(** ** Scenarios on the receiver's connection *)

Module Scenario.

Import Client.

(** Two streams; the terminal frame of stream 0 arrives, and after it the
    frame [(1, 1, 0)] of stream 1 with payload ["x"]. *)
Definition terminal_then_data : sock :=
  {| arrivals :=
       [ [x00; x00; x00; x00;  x00; x00; x00; x00;  x00; x00; x00; x00];
         [x00; x00; x00; x01;  x00; x00; x00; x01;  x00; x00; x00; x00];
         ["x"%byte] ];
     peer_closed := false |}.

(** The frame [(0, 4, 0)] with payload ["abcd"], whose payload becomes
    available in two pieces, and the terminal frame. *)
Definition payload_in_two_pieces : sock :=
  {| arrivals :=
       [ [x00; x00; x00; x00;  x00; x00; x00; x04;  x00; x00; x00; x00];
         ["a"; "b"]%byte; ["c"; "d"]%byte;
         [x00; x00; x00; x00;  x00; x00; x00; x00;  x00; x00; x00; x00] ];
     peer_closed := false |}.

(** Two streams.  The frame [(1, 12, 0)] of stream 1, whose header becomes
    available in a piece of 8 bytes and a piece with the rest; its payload
    of 12 bytes is [00 00 00 04  00 00 00 00  "XXXX"]. *)
Definition header_in_two_pieces : sock :=
  {| arrivals :=
       [ [x00; x00; x00; x01;  x00; x00; x00; x0c];
         [x00; x00; x00; x00;
          x00; x00; x00; x04;  x00; x00; x00; x00;  "X"; "X"; "X"; "X"]%byte ];
     peer_closed := false |}.

(** Two sender threads: stream 0 with three bytes and stream 1 with one
    byte, both with chunk size 2. *)
Definition two_transfers : list Guard.transfer :=
  [ (2, ["a"; "b"; "c"]%byte, 0); (2, ["d"]%byte, 1) ].

(** A connection on which nothing has been sent yet, with [s] to come. *)
Definition fresh (s : sock) : Guard.connection :=
  {| Guard.sent_out := []; Guard.channel := s |}.

End Scenario.

(** ** The rest of [client.py]: the handshake and the files on disk *)

Module Receiver.

Import Stdlib.Strings.Ascii.
Import Client.

(** *** [QuicClient.set_up_client] and [QuicClient.ready_to_recv] *)

(** [received] is what [self.client_socket.recv(1024)] returns; the result
    is [self.number_of_files].  [int_decode] is [int(.decode())], as in
    [Server.set_up_server]. *)
Definition set_up_client (int_decode : bytes -> option Z) (received : bytes)
    : outcome Z :=
  match int_decode received with
  | Some number_of_files => Returned number_of_files
  | None => Raised ValueError
  end.

(** What [ready_to_recv] sends: [str(self.number_of_files).encode()]. *)
Definition ready_to_recv (number_of_files : Z) : bytes :=
  Server.str_encode number_of_files.

(** *** [QuicClient.wirting_files] *)

(** [os.path.join(directory, name)] for a directory without a trailing
    slash: an absolute [name] replaces the directory. *)
Definition path_join (directory name : string) : string :=
  match name with
  | String c _ =>
      if Ascii.eqb c "/" then name else (directory ++ "/" ++ name)%string
  | EmptyString => (directory ++ "/" ++ name)%string
  end.

(** The files written, oldest first, each with the path it was opened
    under and the whole content it was given ([open(path, "wb")] followed
    by [write]); every [open] is taken to succeed. *)
Definition writes := list (string * bytes).

(** What the file that [path] names holds after the writes: the content
    of the last write to that file.  Which paths name the same file is
    for the file system to say, not for the text of the paths
    ([a.bin] and [./a.bin] name one file, and so may two names that
    differ in case): [same_file] is its answer. *)
Fixpoint content (same_file : string -> string -> bool) (path : string) (ws : writes)
    : option bytes :=
  match ws with
  | [] => None
  | (p, data) :: rest =>
      match content same_file path rest with
      | Some later => Some later
      | None => if same_file p path then Some data else None
      end
  end.

(** The names of the first [n] streams give paths to [n] different
    files. *)
Definition distinct_files (same_file : string -> string -> bool) (n : nat)
    (files : list string) : Prop :=
  forall i j a b,
    (i < n)%nat -> (j < n)%nat -> i <> j ->
    files !! i = Some a -> files !! j = Some b ->
    same_file (path_join "files_recv" a) (path_join "files_recv" b) = false.

(** The write of [wirting_files] for stream [i]: the buffer of the stream
    under the path made of its name. *)
Definition write_of (files : list string) (file_buffers : gmap Z bytes)
    (i : nat) (w : string * bytes) : Prop :=
  exists name buffer,
    files !! i = Some name /\ file_buffers !! Z.of_nat i = Some buffer /\
    w = (path_join "files_recv" name, buffer).

(** The loop [for id_stream, file_data in file_buffers.items()], on the
    items in the order of the dictionary; [files[id_stream]] raises
    [IndexError] outside the list. *)
Fixpoint wirting_files (files : list string) (items : list (Z * bytes))
    : writes * outcome unit :=
  match items with
  | [] => ([], Returned tt)
  | (id_stream, file_data) :: rest =>
      match py_index (py_len files) id_stream with
      | None => ([], Raised IndexError)
      | Some k =>
          match files !! k with
          | None => ([], Raised IndexError)
          | Some name =>
              let '(ws, r) := wirting_files files rest in
              ((path_join "files_recv" name, file_data) :: ws, r)
          end
      end
  end.

(** The items of the dictionary that [__main__] builds with
    [{i: bytearray() for i in range(n)}]: the keys come in the order
    [0 .. n - 1], in which they were inserted. *)
Definition items (n : Z) (file_buffers : gmap Z bytes) : list (Z * bytes) :=
  omap (fun i => pair i <$> file_buffers !! i) (py_range n).

(** *** The workers one after the other

    One of the runs of the threads that [__main__] starts on [recv_file]:
    each worker begins when the one before it has left the loop.  [fuels]
    bounds the rounds of each worker. *)
Fixpoint pool (fuels : list nat) (s : sock) (st : streams) (lg : list log_entry)
    : list run :=
  match fuels with
  | [] => []
  | rounds :: rest =>
      let r := recv_file rounds s st lg in
      r :: pool rest (conn r) (state r) (log r)
  end.

(** The connection, the streams and the log when the last worker has
    ended. *)
Definition pool_end (s : sock) (st : streams) (lg : list log_entry) (rs : list run)
    : sock * streams * list log_entry :=
  match last rs with
  | Some r => (conn r, state r, log r)
  | None => (s, st, lg)
  end.

End Receiver.

(** ** [compareFiles.py] *)

Module CompareFiles.

Inductive message : Type :=
| Identical                                  (* "The files are identical." *)
| DifferenceAt (position : Z) (b1 b2 : byte) (* "Difference found at byte ..." *)
| DifferentLengths.                          (* "... files have different lengths." *)

(** [data1 != data2] on byte strings. *)
Fixpoint bytes_eqb (data1 data2 : bytes) : bool :=
  match data1, data2 with
  | [], [] => true
  | x :: r1, y :: r2 => Byte.eqb x y && bytes_eqb r1 r2
  | _, _ => false
  end.

(** The loop [for i in range(min(len(data1), len(data2)))], from index [i]
    on: the first index at which the two chunks differ. *)
Fixpoint first_difference (i : Z) (data1 data2 : bytes) : option (Z * byte * byte) :=
  match data1, data2 with
  | x :: r1, y :: r2 =>
      if Byte.eqb x y then first_difference (i + 1) r1 r2 else Some (i, x, y)
  | _, _ => None
  end.

Definition chunk_size : nat := 4096.

(** The loop [while True] of [compare_files] on the contents of the two
    files from the reading positions on; [file.read(chunk_size)] gives the
    next [chunk_size] bytes, or what is left of the file.  [rounds] bounds
    the number of rounds; [None] when they do not suffice. *)
Fixpoint compare_files (rounds : nat) (file1 file2 : bytes) (offset : Z)
    : option (bool * list message) :=
  match rounds with
  | O => None
  | S rounds' =>
      let data1 := take chunk_size file1 in
      let data2 := take chunk_size file2 in
      let next := compare_files rounds' (drop chunk_size file1) (drop chunk_size file2)
                    (offset + Z.of_nat chunk_size) in
      match data1, data2 with
      | [], [] => Some (true, [Identical])
      | _, _ =>
          if bytes_eqb data1 data2 then next
          else
            match first_difference 0 data1 data2 with
            | Some (i, b1, b2) => Some (false, [DifferenceAt (offset + i) b1 b2])
            | None =>
                if negb (length data1 =? length data2)%nat
                then Some (false, [DifferentLengths])
                else next
            end
      end
  end.

End CompareFiles.

(** ** A whole session: the threads of the two [__main__] programs *)

Module Session.

Import Client.

(** [interleaves ls w ls']: from the lists [ls], taking the first element
    of one of them at a time gives [w] and leaves [ls'].  With [ls] the
    frames that the sender threads are to write, [w] is a sequence of
    frames in which the frames of each thread keep their order. *)
Inductive interleaves {A : Type} : list (list A) -> list A -> list (list A) -> Prop :=
| interleaves_nil ls : interleaves ls [] ls
| interleaves_cons ls t x rest w ls' :
    ls !! t = Some (x :: rest) ->
    interleaves (<[t := rest]> ls) w ls' ->
    interleaves ls (x :: w) ls'.

(** The number of the lists that still hold something. *)
Definition holds {A : Type} (l : list A) : nat :=
  match l with [] => 0 | _ :: _ => 1 end.

Definition live {A : Type} (ls : list (list A)) : nat := sum_list_with holds ls.

(** The conditions of C2 under which [send_file] can pack all its
    headers. *)
Definition fits (tr : Guard.transfer) : Prop :=
  let '(package_size, file_data, id_stream) := tr in
  1 <= package_size /\
  i32_min <= id_stream <= i32_max /\
  Z.min package_size (py_len file_data) <= i32_max /\
  Spec.ceil_div (py_len file_data) package_size - 1 <= i32_max.

(** The stream ids are the positions of the files in the list, as given by
    [for i, file_path in enumerate(files)]. *)
Definition enumerated (transfers : list Guard.transfer) : Prop :=
  forall t tr, transfers !! t = Some tr -> tr.2 = Z.of_nat t.

(** The frames [w] as the receiver finds them when every buffer written
    arrives in one piece. *)
Definition delivered (closed : bool) (w : list (list bytes)) : sock :=
  {| arrivals := concat w; peer_closed := closed |}.

(** Where the stream of a transfer stands while [rest] of its frames is
    still to be read: nothing is left and the buffer holds the file, or
    the frames of chunks [i ..] and the terminal frame are left, and the
    buffer holds the chunks before [i]. *)
Definition stream_at (tr : Guard.transfer) (st : streams) (rest : list (list bytes)) : Prop :=
  let '(package_size, file_data, id_stream) := tr in
  let n := Z.to_nat (Spec.ceil_div (py_len file_data) package_size) in
  (rest = [] /\ file_buffers st !! id_stream = Some file_data)
  \/ (exists (i : nat) blocks marker,
        (i <= n)%nat /\ rest = blocks ++ [[marker]] /\
        Forall2 (Spec.carries_chunk package_size file_data id_stream) (seq i (n - i)) blocks /\
        pack_iii id_stream 0 0 = Some marker /\
        file_buffers st !! id_stream
        = Some (take (i * Z.to_nat package_size) file_data) /\
        curret_package st !! Z.to_nat id_stream = Some (Z.of_nat i)).

Definition streams_at (transfers : list Guard.transfer) (st : streams)
    (rests : list (list (list bytes))) : Prop :=
  length rests = length transfers /\
  length (curret_package st) = length transfers /\
  forall t tr rest,
    transfers !! t = Some tr -> rests !! t = Some rest -> stream_at tr st rest.

(** Where the sender threads stand when the frames [w] have been written
    whole: [rests] are the frames that each thread has still to write,
    the one that the holder of the lock is writing included, of which it
    has written the buffers [sent]. *)
Definition senders_at (programs : list (list (list bytes))) (c : Guard.connection)
    (m : Guard.machine (list (list bytes))) : Prop :=
  exists w rests,
    interleaves programs w rests /\
    length (Guard.threads m) = length rests /\
    (forall t l, Guard.threads m !! t = Some (Guard.Outside l) -> rests !! t = Some l) /\
    (forall t sc, Guard.threads m !! t = Some (Guard.Inside sc) -> Guard.lock m = Some t) /\
    match Guard.lock m with
    | None => Guard.sent_out (Guard.link m) = Guard.sent_out c ++ concat w
    | Some t =>
        exists sent todo rest,
          rests !! t = Some ((sent ++ todo) :: rest) /\
          Guard.threads m !! t = Some (Guard.Inside (Guard.send_all todo rest)) /\
          Guard.sent_out (Guard.link m) = Guard.sent_out c ++ concat w ++ sent
    end.

(** [frames] is the sequence of frames of a transfer: the data frames of
    the chunks [0 .. num_packages - 1], each a header and after it the
    chunk, and then the terminal frame. *)
Definition framed (tr : Guard.transfer) (frames : list (list bytes)) : Prop :=
  let '(package_size, file_data, id_stream) := tr in
  exists data marker,
    frames = data ++ [[marker]] /\
    Forall2 (Spec.carries_chunk package_size file_data id_stream)
      (seq 0 (Z.to_nat (Spec.ceil_div (py_len file_data) package_size))) data /\
    pack_iii id_stream 0 0 = Some marker.

(** Every sender thread has returned from [send_file]. *)
Definition finished (m : Guard.machine (list (list bytes))) : Prop :=
  forall t th, Guard.threads m !! t = Some th -> th = Guard.Outside [].

(** [fs] is a tuple that the call [send_file] of the transfer has put on
    the [result] queue: the call has returned, and the tuple holds its
    [sum_bytes] and [num_packages]. *)
Definition reports {num : Type} (tr : Guard.transfer) (fs : Server.file_stat num) : Prop :=
  snd (Server.send_file tr.1.1 tr.1.2 tr.2)
  = Returned (Server.stat_bytes fs, Server.stat_packages fs).

(** The frames of [Scenario.two_transfers] in one of the orders in which
    the two sender threads can write them: the first data frame of stream
    0, the whole of stream 1, the rest of stream 0. *)
Definition crossed_frames : list (list bytes) :=
  Eval vm_compute in
    match Guard.program <$> Scenario.two_transfers with
    | [[a0; a1; a2]; [b0; b1]] => [a0; b0; b1; a1; a2]
    | _ => []
    end.

End Session.

(** ** The workers of the receiver, statement by statement *)

Module Race.

Import Client.

(** A frame that a worker has read in its block. *)
Record frame := {
  id_stream : Z;
  data_length : Z;
  id_package : Z;
  package : bytes
}.

(** Where a worker stands in [recv_file]. *)
Inductive place : Type :=
| AtLock                     (* before [with self.lock:] *)
| AtTest (f : frame)         (* before [if id_stream in file_buffers] and the
                                comparison in the inner loop *)
| AtIncrement (f : frame)    (* before [curret_package[id_stream] += 1] *)
| AtExtend (f : frame)       (* before [file_buffers[id_stream].extend(package)] *)
| Gone (why : exit_reason)   (* has left the outer loop *)
| Failed (e : exn).          (* an exception has left [recv_file] *)

Record system := {
  wire : sock;
  shared : streams;
  places : list place;
  printed : list log_entry
}.

(** [curret_package[id_stream]]: the position in the list and the value
    there; [None] is [IndexError]. *)
Definition counter_of (st : streams) (id_stream : Z) : option (nat * Z) :=
  match py_index (py_len (curret_package st)) id_stream with
  | None => None
  | Some k =>
      match curret_package st !! k with
      | None => None
      | Some current => Some (k, current)
      end
  end.

(** One step of one worker, any worker at any time.  The block under
    [with self.lock:] is one step ([read_frame]): the lock lets no other
    worker in between.  After the block no lock is held, and the
    comparison, the increment and the [extend] are steps of their own.
    The keys of [file_buffers] never change, so that [extend] finds the
    buffer that the test has found. *)
Inductive step : system -> system -> Prop :=
| step_frame m t i d p pkg s' :
    places m !! t = Some AtLock ->
    read_frame (wire m) = ReadFrame i d p pkg s' ->
    step m {| wire := s'; shared := shared m;
              places := <[t := AtTest {| id_stream := i; data_length := d;
                                         id_package := p; package := pkg |}]> (places m);
              printed := printed m |}
| step_break m t why s' :
    places m !! t = Some AtLock ->
    read_frame (wire m) = ReadBreak why s' ->
    step m {| wire := s'; shared := shared m;
              places := <[t := Gone why]> (places m);
              printed := printed m ++ log_exit why |}
| step_unregistered m t f :
    places m !! t = Some (AtTest f) ->
    file_buffers (shared m) !! id_stream f = None ->
    step m {| wire := wire m; shared := shared m;
              places := <[t := AtLock]> (places m); printed := printed m |}
| step_test m t f buffer k current :
    places m !! t = Some (AtTest f) ->
    file_buffers (shared m) !! id_stream f = Some buffer ->
    counter_of (shared m) (id_stream f) = Some (k, current) ->
    step m {| wire := wire m; shared := shared m;
              places := <[t := if current =? id_package f then AtIncrement f
                               else AtTest f]> (places m);
              printed := printed m |}
| step_test_raises m t f buffer :
    places m !! t = Some (AtTest f) ->
    file_buffers (shared m) !! id_stream f = Some buffer ->
    counter_of (shared m) (id_stream f) = None ->
    step m {| wire := wire m; shared := shared m;
              places := <[t := Failed IndexError]> (places m); printed := printed m |}
| step_increment m t f k current :
    places m !! t = Some (AtIncrement f) ->
    counter_of (shared m) (id_stream f) = Some (k, current) ->
    step m {| wire := wire m;
              shared := {| file_buffers := file_buffers (shared m);
                           curret_package := <[k := current + 1]> (curret_package (shared m)) |};
              places := <[t := AtExtend f]> (places m); printed := printed m |}
| step_extend m t f buffer :
    places m !! t = Some (AtExtend f) ->
    file_buffers (shared m) !! id_stream f = Some buffer ->
    step m {| wire := wire m;
              shared := {| file_buffers :=
                             <[id_stream f := buffer ++ package f]> (file_buffers (shared m));
                           curret_package := curret_package (shared m) |};
              places := <[t := AtLock]> (places m);
              printed := printed m
                         ++ [LogWriting (id_stream f) (data_length f) (id_package f)] |}.

(** [n] workers before their first round, the streams as [__main__]
    makes them. *)
Definition start (n : Z) (s : sock) : system :=
  {| wire := s; shared := initial_streams n;
     places := replicate (Z.to_nat n) AtLock; printed := [] |}.

(** What the receiver of two files finds when the sender thread of a file
    [ab], sent in packages of one byte on stream 0, has written all its
    frames, and after it the thread of an empty file on stream 1: every
    buffer in one piece. *)
Definition two_files : sock :=
  {| arrivals := concat (Guard.program (1, ["a"; "b"]%byte, 0)
                         ++ Guard.program (1, [], 1));
     peer_closed := false |}.

End Race.

(** ** [send_file] on a connection that can fail *)

Module Sending.

(** What one call of [self.connection.send] does: the buffer is taken
    (whole: the code does not look at what [send] returns), or the call
    raises [OSError], as it does when the peer has gone.  A call that
    never returns ends nothing and has no result here. *)
Inductive send_result : Type :=
| Taken
| Refused.

(** [results] holds the results of the calls of [send] still to come, the
    next call first; a call beyond the list is taken. *)
Definition send (results : list send_result) : send_result * list send_result :=
  match results with
  | [] => (Taken, [])
  | r :: rest => (r, rest)
  end.

(** The number of the first call that is refused, counted from 0. *)
Fixpoint first_refused (results : list send_result) : option nat :=
  match results with
  | [] => None
  | Refused :: _ => Some 0%nat
  | Taken :: rest => S <$> first_refused rest
  end.

(** The loop of [send_file]: the buffers taken by the connection, in
    order, and the sum of bytes with the results left, or the exception
    that ended the loop. *)
Fixpoint send_packages (package_size : Z) (file_data : bytes) (id_stream : Z)
    (i : Z) (n : nat) (sum_bytes : Z) (results : list send_result)
    : list bytes * outcome (Z * list send_result) :=
  match n with
  | O => ([], Returned (sum_bytes, results))
  | S n' =>
      let package := py_slice file_data (i * package_size) ((i + 1) * package_size) in
      match pack_iii id_stream (py_len package) i with
      | None => ([], Raised StructError)
      | Some header =>
          match send results with
          | (Refused, _) => ([], Raised OSError)
          | (Taken, results1) =>
              match send results1 with
              | (Refused, _) => ([header], Raised OSError)
              | (Taken, results2) =>
                  let '(written, r) :=
                    send_packages package_size file_data id_stream (i + 1) n'
                      (sum_bytes + py_len package) results2 in
                  (header :: package :: written, r)
              end
          end
      end
  end.

Definition send_file (results : list send_result) (package_size : Z)
    (file_data : bytes) (id_stream : Z) : list bytes * outcome (Z * Z) :=
  let total_length := py_len file_data in
  if package_size =? 0 then ([], Raised ZeroDivisionError)
  else
    let num_packages := (total_length + package_size - 1) / package_size in
    match send_packages package_size file_data id_stream 0 (Z.to_nat num_packages) 0
            results with
    | (written, Raised e) => (written, Raised e)
    | (written, Returned (sum_bytes, results')) =>
        match pack_iii id_stream 0 0 with
        | None => (written, Raised StructError)
        | Some marker =>
            match send results' with
            | (Refused, _) => (written, Raised OSError)
            | (Taken, _) => (written ++ [marker], Returned (sum_bytes, num_packages))
            end
        end
    end.

(** What the call leaves when the connection refuses call [refused] of
    a call of [send_file] that would otherwise have written [written]
    and ended with [r]: the buffers before the refused call, and
    [OSError]. *)
Definition cut_short {A : Type} (refused : option nat) (written : list bytes)
    (r : outcome A) : list bytes * outcome A :=
  match refused with
  | Some k => if (k <? length written)%nat then (take k written, Raised OSError)
              else (written, r)
  | None => (written, r)
  end.

End Sending.

(** ** Claims of the specification as it states them *)

Module Stated.

(** [total_time] is the maximum of the per-stream elapsed times: one of
    them, and none of them is greater.  (Of a statistic that holds at
    least one tuple.) *)
Definition total_time_is_maximum {num : Type} (num_gt : num -> num -> bool)
    (r : Server.totals num) (statistic : list (Server.file_stat num)) : Prop :=
  statistic <> [] ->
  Server.total_time r ∈ (Server.stat_elapsed <$> statistic) /\
  forall x, x ∈ (Server.stat_elapsed <$> statistic) ->
    num_gt x (Server.total_time r) = false.

(** Every data frame that [send_file] writes has a payload of at least
    one byte, a frame with length 0 is the terminal frame, and for an
    empty source the whole output is the one terminal frame: for every
    chunk size and every stream id. *)
Definition zero_length_is_terminal (chunk_size : Z) (source : bytes) (stream_id : Z) : Prop :=
  let blocks := fst (Server.send_file chunk_size source stream_id) in
  (forall header package, [header; package] ∈ blocks ->
     1 <= py_len package /\
     exists sequence, unpack_iii header = Some (stream_id, py_len package, sequence)) /\
  (forall k header rest i sequence,
     blocks !! k = Some (header :: rest) ->
     unpack_iii header = Some (i, 0, sequence) ->
     rest = [] /\ i = stream_id /\ sequence = 0 /\ S k = length blocks) /\
  (source = [] ->
     exists marker, pack_iii stream_id 0 0 = Some marker /\ blocks = [[marker]]).

End Stated.

(** * Properties *)

(** ** The frame codec *)

Section CodecFacts.

Lemma Z_of_byte_range b : 0 <= Z_of_byte b <= 255.
Proof.
  unfold Z_of_byte. pose proof (Byte.to_N_bounded b). lia.
Qed.

Lemma Z_of_byte_of_Z z : Z_of_byte (byte_of_Z z) = z mod 2 ^ 8.
Proof.
  unfold byte_of_Z, Z_of_byte.
  change 255 with (Z.ones 8). rewrite Z.land_ones by lia.
  pose proof (Z.mod_pos_bound z (2 ^ 8) ltac:(lia)) as Hm.
  destruct (Byte.of_N (Z.to_N (z mod 2 ^ 8))) as [b|] eqn:E.
  - apply Byte.to_of_N in E. rewrite E. lia.
  - apply Byte.of_N_None_iff in E. lia.
Qed.

Lemma in_i32_spec v : in_i32 v = true <-> i32_min <= v <= i32_max.
Proof. unfold in_i32. rewrite andb_true_iff, !Z.leb_le. tauto. Qed.

(** Bit [n] of the byte cut out of [v] at offset [k], put back in place. *)
Lemma byte_in_place_bit v k n :
  0 <= k -> 0 <= n ->
  Z.testbit (Z.shiftl (Z_of_byte (byte_of_Z (Z.shiftr v k))) k) n
  = (k <=? n) && (n <? k + 8) && Z.testbit v n.
Proof.
  intros Hk Hn. rewrite Z.shiftl_spec by lia.
  destruct (Z.leb_spec k n) as [Hkn|Hkn]; simpl.
  - rewrite Z_of_byte_of_Z.
    destruct (Z.ltb_spec n (k + 8)) as [Hlt|Hge]; simpl.
    + rewrite Z.mod_pow2_bits_low by lia.
      rewrite Z.shiftr_spec by lia. f_equal. lia.
    + apply Z.mod_pow2_bits_high. lia.
  - apply Z.testbit_neg_r. lia.
Qed.

Lemma assemble_bytes v :
  assemble (byte_of_Z (Z.shiftr v 24)) (byte_of_Z (Z.shiftr v 16))
           (byte_of_Z (Z.shiftr v 8)) (byte_of_Z v)
  = v mod 2 ^ 32.
Proof.
  unfold assemble. apply Z.bits_inj'. intros n Hn.
  rewrite <- (Z.shiftl_0_r (Z_of_byte (byte_of_Z v))).
  rewrite <- (Z.shiftr_0_r v) at 4.
  rewrite !Z.lor_spec, !byte_in_place_bit by lia.
  destruct (Z.ltb_spec n 32) as [Hlt|Hge].
  - rewrite Z.mod_pow2_bits_low by lia.
    destruct (Z.testbit v n); rewrite ?andb_true_r, ?andb_false_r; [|reflexivity].
    destruct (Z.leb_spec 24 n), (Z.leb_spec 16 n), (Z.leb_spec 8 n), (Z.leb_spec 0 n),
      (Z.ltb_spec n (24 + 8)), (Z.ltb_spec n (16 + 8)), (Z.ltb_spec n (8 + 8)),
      (Z.ltb_spec n (0 + 8)); simpl; try reflexivity; lia.
  - rewrite Z.mod_pow2_bits_high by lia.
    destruct (Z.ltb_spec n (24 + 8)), (Z.ltb_spec n (16 + 8)), (Z.ltb_spec n (8 + 8)),
      (Z.ltb_spec n (0 + 8)); rewrite ?andb_false_r; simpl; try reflexivity; lia.
Qed.

Lemma unpack_pack_i v :
  i32_min <= v <= i32_max ->
  unpack_i (byte_of_Z (Z.shiftr v 24)) (byte_of_Z (Z.shiftr v 16))
           (byte_of_Z (Z.shiftr v 8)) (byte_of_Z v) = v.
Proof.
  unfold i32_min, i32_max. intros Hv. unfold unpack_i.
  rewrite assemble_bytes. cbv zeta. rewrite Z.testbit_eqb by lia.
  change (2 ^ 32) with 4294967296. change (2 ^ 31) with 2147483648.
  destruct (Z.eqb_spec ((v mod 4294967296) / 2147483648 mod 2) 1) as [E|E];
    revert E; Z.div_mod_to_equations; lia.
Qed.

Lemma pack_i_in_range v :
  i32_min <= v <= i32_max ->
  pack_i v = Some [ byte_of_Z (Z.shiftr v 24); byte_of_Z (Z.shiftr v 16);
                    byte_of_Z (Z.shiftr v 8); byte_of_Z v ].
Proof.
  intros Hv. unfold pack_i. apply in_i32_spec in Hv. by rewrite Hv.
Qed.

Lemma pack_i_out_of_range v : i32_max < v -> pack_i v = None.
Proof.
  intros Hv. unfold pack_i.
  destruct (in_i32 v) eqn:E; [|reflexivity].
  apply in_i32_spec in E. lia.
Qed.

Lemma be_value_pack_i v :
  be_value [ byte_of_Z (Z.shiftr v 24); byte_of_Z (Z.shiftr v 16);
             byte_of_Z (Z.shiftr v 8); byte_of_Z v ] = v mod 2 ^ 32.
Proof.
  unfold be_value; simpl. rewrite !Z_of_byte_of_Z, !Z.shiftr_div_pow2 by lia.
  change (2 ^ 32) with 4294967296. change (2 ^ 24) with 16777216.
  change (2 ^ 16) with 65536. change (2 ^ 8) with 256.
  Z.div_mod_to_equations. lia.
Qed.

Lemma pack_iii_length a b c header :
  pack_iii a b c = Some header -> length header = 12%nat.
Proof.
  unfold pack_iii, pack_i.
  destruct (in_i32 a), (in_i32 b), (in_i32 c); try discriminate.
  intros [= <-]. reflexivity.
Qed.

Lemma unpack_pack_iii a b c header :
  pack_iii a b c = Some header -> unpack_iii header = Some (a, b, c).
Proof.
  unfold pack_iii, pack_i.
  destruct (in_i32 a) eqn:Ea, (in_i32 b) eqn:Eb, (in_i32 c) eqn:Ec; try discriminate.
  apply in_i32_spec in Ea, Eb, Ec.
  intros [= <-]. cbn [app unpack_iii].
  by rewrite !unpack_pack_i.
Qed.

Lemma pack_iii_in_range a b c :
  i32_min <= a <= i32_max -> i32_min <= b <= i32_max -> i32_min <= c <= i32_max ->
  is_Some (pack_iii a b c).
Proof.
  intros Ha Hb Hc. unfold pack_iii.
  rewrite !pack_i_in_range by assumption. eauto.
Qed.

End CodecFacts.

(** C4.  For every triple of signed 32-bit integers, [struct.pack("!iii", ..)]
    succeeds and gives exactly 12 bytes; each group of four bytes, read most
    significant byte first, is the two's complement (the value modulo 2^32)
    of the corresponding field; and [struct.unpack] of these 12 bytes gives
    the triple back. *)
Theorem pack_unpack_roundtrip (stream_id data_length sequence : Z) :
  i32_min <= stream_id <= i32_max ->
  i32_min <= data_length <= i32_max ->
  i32_min <= sequence <= i32_max ->
  exists header,
    pack_iii stream_id data_length sequence = Some header /\
    length header = 12%nat /\
    be_value (take 4 header) = stream_id mod 2 ^ 32 /\
    be_value (take 4 (drop 4 header)) = data_length mod 2 ^ 32 /\
    be_value (drop 8 header) = sequence mod 2 ^ 32 /\
    unpack_iii header = Some (stream_id, data_length, sequence).
Proof.
  intros Ha Hb Hc.
  destruct (pack_iii_in_range _ _ _ Ha Hb Hc) as [header Hp].
  exists header. split; [exact Hp|].
  split; [by eapply pack_iii_length|].
  pose proof (unpack_pack_iii _ _ _ _ Hp) as Hu.
  unfold pack_iii in Hp. rewrite !pack_i_in_range in Hp by assumption.
  injection Hp as <-. cbn [app take drop].
  by rewrite !be_value_pack_i.
Qed.

Lemma pack_unpack_roundtrip_witness :
  exists header,
    pack_iii 1 (-2) 258 = Some header /\
    length header = 12%nat /\
    be_value (take 4 header) = 1 mod 2 ^ 32 /\
    be_value (take 4 (drop 4 header)) = (-2) mod 2 ^ 32 /\
    be_value (drop 8 header) = 258 mod 2 ^ 32 /\
    unpack_iii header = Some (1, -2, 258).
Proof.
  apply (pack_unpack_roundtrip 1 (-2) 258); unfold i32_min, i32_max; lia.
Defined.

(** ** The sender *)

Import Server.

Section Chunks.

Context (cs : nat) (source : bytes).

Lemma chunk_length i :
  length (Spec.chunk cs source i) = (cs `min` (length source - i * cs))%nat.
Proof. unfold Spec.chunk. by rewrite length_take, length_drop. Qed.

(** Chunks [i .. i + n - 1] laid end to end. *)
Lemma chunks_concat i n :
  concat (Spec.chunk cs source <$> seq i n) = take (n * cs) (drop (i * cs) source).
Proof.
  revert i. induction n as [|n IH]; intros i; [reflexivity|].
  cbn [seq fmap list_fmap concat]. rewrite IH. unfold Spec.chunk.
  replace (S i * cs)%nat with (i * cs + cs)%nat by lia.
  rewrite <- drop_drop. rewrite take_take_drop. f_equal.
Qed.

Lemma py_slice_chunk i :
  (1 <= cs)%nat ->
  py_slice source (Z.of_nat i * Z.of_nat cs) ((Z.of_nat i + 1) * Z.of_nat cs)
  = Spec.chunk cs source i.
Proof.
  intros Hcs. unfold py_slice, clamp_index, py_len, Spec.chunk.
  replace (Z.of_nat i * Z.of_nat cs) with (Z.of_nat (i * cs)) by lia.
  replace ((Z.of_nat i + 1) * Z.of_nat cs) with (Z.of_nat ((i + 1) * cs)) by lia.
  destruct (Z.ltb_spec (Z.of_nat (i * cs)) 0) as [?|_]; [lia|].
  destruct (Z.ltb_spec (Z.of_nat ((i + 1) * cs)) 0) as [?|_]; [lia|].
  destruct (decide (i * cs <= length source)%nat) as [Hle|Hgt].
  - replace (Z.to_nat (Z.of_nat (i * cs) `min` Z.of_nat (length source)))
      with (i * cs)%nat by lia.
    destruct (decide ((i + 1) * cs <= length source)%nat) as [Hle'|Hgt'].
    + f_equal. lia.
    + rewrite !take_ge; [done| |]; rewrite length_drop; lia.
  - replace (Z.to_nat (Z.of_nat (i * cs) `min` Z.of_nat (length source)))
      with (length source) by lia.
    rewrite !drop_ge by lia. by rewrite !take_nil.
Qed.

End Chunks.

Section SendFile.

Lemma num_packages_ceil total ps :
  1 <= ps -> (total + ps - 1) / ps = Spec.ceil_div total ps.
Proof.
  intros Hps. unfold Spec.ceil_div.
  Z.div_mod_to_equations. nia.
Qed.

Lemma ceil_div_bounds a b :
  1 <= b -> (Spec.ceil_div a b - 1) * b < a <= Spec.ceil_div a b * b.
Proof.
  intros Hb. unfold Spec.ceil_div. Z.div_mod_to_equations. nia.
Qed.

Context (cs : nat) (source : bytes) (id_stream : Z).
Hypothesis cs_pos : (1 <= cs)%nat.

Lemma send_packages_fit n : forall i sum,
  Spec.headers_fit cs source id_stream i n ->
  exists blocks,
    send_packages (Z.of_nat cs) source id_stream (Z.of_nat i) n sum
    = (blocks, Returned (sum + py_len (take (n * cs) (drop (i * cs) source)))) /\
    Forall2 (Spec.carries_chunk (Z.of_nat cs) source id_stream) (seq i n) blocks.
Proof.
  induction n as [|n IH]; intros i sum Hfit.
  - exists []. split; [|constructor].
    cbn. rewrite take_0. unfold py_len; cbn. by rewrite Z.add_0_r.
  - cbn [send_packages]. rewrite py_slice_chunk by done.
    destruct (Hfit i ltac:(lia)) as [header Hh]. rewrite Hh.
    destruct (IH (S i) (sum + py_len (Spec.chunk cs source i))) as (blocks & Hs & Hb).
    { intros j Hj. apply Hfit. lia. }
    replace (Z.of_nat i + 1) with (Z.of_nat (S i)) by lia.
    rewrite Hs. eexists. split.
    + f_equal. f_equal.
      replace (S n * cs)%nat with (cs + n * cs)%nat by lia.
      rewrite <- take_take_drop, drop_drop.
      unfold py_len, Spec.chunk. rewrite length_app.
      replace (i * cs + cs)%nat with (S i * cs)%nat by lia. lia.
    + cbn [seq]. constructor; [|exact Hb].
      unfold Spec.carries_chunk. rewrite Nat2Z.id. eauto.
Qed.

End SendFile.

Section SendFileFacts.

Context (cs : nat) (source : bytes) (id_stream : Z).
Hypothesis cs_pos : (1 <= cs)%nat.

(** The number of rounds of the loop, as a natural number. *)
Lemma rounds_cover_source :
  let n := Z.to_nat (Spec.ceil_div (py_len source) (Z.of_nat cs)) in
  (length source <= n * cs)%nat /\ forall j, (j < n)%nat -> (j * cs < length source)%nat.
Proof.
  intros n. subst n. unfold py_len.
  pose proof (ceil_div_bounds (Z.of_nat (length source)) (Z.of_nat cs) ltac:(lia)) as Hb.
  set (c := Spec.ceil_div (Z.of_nat (length source)) (Z.of_nat cs)) in *.
  split; [|intros j Hj]; nia.
Qed.

(** Whatever its outcome, the loop has written the data frames of an
    initial run of the chunks it was to send. *)
Lemma send_packages_blocks n : forall i sum,
  exists m, (m <= n)%nat /\
    Forall2 (Spec.carries_chunk (Z.of_nat cs) source id_stream) (seq i m)
      (fst (send_packages (Z.of_nat cs) source id_stream (Z.of_nat i) n sum)).
Proof.
  induction n as [|n IH]; intros i sum.
  - exists 0%nat. split; [lia|constructor].
  - cbn [send_packages]. rewrite py_slice_chunk by done.
    destruct (pack_iii _ _ _) as [header|] eqn:Hh.
    + destruct (IH (S i) (sum + py_len (Spec.chunk cs source i))) as (m & Hm & Hb).
      replace (Z.of_nat i + 1) with (Z.of_nat (S i)) by lia.
      destruct (send_packages _ _ _ _ n _) as [blocks r]. cbn [fst] in *.
      exists (S m). split; [lia|]. cbn [seq]. constructor; [|exact Hb].
      unfold Spec.carries_chunk. rewrite Nat2Z.id. eauto.
    + exists 0%nat. split; [lia|constructor].
Qed.

Lemma headers_fit_all :
  i32_min <= id_stream <= i32_max ->
  Z.min (Z.of_nat cs) (py_len source) <= i32_max ->
  Spec.ceil_div (py_len source) (Z.of_nat cs) - 1 <= i32_max ->
  Spec.headers_fit cs source id_stream 0
    (Z.to_nat (Spec.ceil_div (py_len source) (Z.of_nat cs))).
Proof.
  intros Hid Hlen Hseq j Hj.
  apply pack_iii_in_range; [done| |].
  - unfold py_len in *. rewrite chunk_length. unfold i32_min, i32_max in *. lia.
  - unfold i32_min, i32_max in *. lia.
Qed.

End SendFileFacts.

(** What [send_file] does when every header can be packed. *)
Lemma send_file_fit package_size source id_stream :
  1 <= package_size ->
  i32_min <= id_stream <= i32_max ->
  Z.min package_size (py_len source) <= i32_max ->
  Spec.ceil_div (py_len source) package_size - 1 <= i32_max ->
  exists blocks marker,
    send_file package_size source id_stream
    = (blocks ++ [[marker]],
       Returned (py_len source, Spec.ceil_div (py_len source) package_size)) /\
    Forall2 (Spec.carries_chunk package_size source id_stream)
      (seq 0 (Z.to_nat (Spec.ceil_div (py_len source) package_size))) blocks /\
    pack_iii id_stream 0 0 = Some marker.
Proof.
  intros Hps Hid Hlen Hseq.
  assert (exists cs : nat, package_size = Z.of_nat cs) as [cs ->]
    by (exists (Z.to_nat package_size); lia).
  assert (1 <= cs)%nat as Hcs by lia.
  destruct (send_packages_fit cs source id_stream Hcs
              (Z.to_nat (Spec.ceil_div (py_len source) (Z.of_nat cs))) 0 0
              (headers_fit_all cs source id_stream Hcs Hid Hlen Hseq))
    as (blocks & Hs & Hb).
  destruct (pack_iii_in_range id_stream 0 0 Hid) as [marker Hm];
    [unfold i32_min, i32_max; lia..|].
  exists blocks, marker. split; [|done].
  unfold send_file. destruct (Z.eqb_spec (Z.of_nat cs) 0) as [?|_]; [lia|].
  rewrite num_packages_ceil by lia.
  change (Z.of_nat 0) with 0 in Hs. rewrite Hs, Hm.
  do 3 f_equal. rewrite drop_0, take_ge; [unfold py_len; lia|].
  apply (rounds_cover_source cs source Hcs).
Qed.

(** A source that is one chunk of more than [i32_max] bytes: the first
    header cannot be packed and nothing is written. *)
Lemma send_file_oversized package_size source id_stream :
  py_len source = package_size ->
  i32_max < package_size ->
  send_file package_size source id_stream = ([], Raised StructError).
Proof.
  unfold i32_max. intros Hlen Hbig. unfold send_file.
  destruct (Z.eqb_spec package_size 0) as [?|_]; [lia|].
  rewrite Hlen.
  replace ((package_size + package_size - 1) / package_size) with 1
    by (Z.div_mod_to_equations; nia).
  change (Z.to_nat 1) with 1%nat. cbn [send_packages].
  assert (py_len (py_slice source (0 * package_size) ((0 + 1) * package_size))
          = package_size) as ->.
  { assert (package_size = Z.of_nat (Z.to_nat package_size)) as Hps by lia.
    rewrite Hps at 1 2. change 0 with (Z.of_nat 0). rewrite py_slice_chunk by lia.
    unfold py_len in *. rewrite chunk_length. lia. }
  unfold pack_iii. rewrite (pack_i_out_of_range package_size) by (unfold i32_max; lia).
  by destruct (pack_i id_stream).
Qed.

(** C2, as amended.  For every source and every chunk size >= 1 such that
    the stream id, the length of the longest chunk and the last sequence
    number are signed 32-bit integers, [send_file] returns after it has
    written exactly [ceil(total_length / chunk_size)] data frames, frame [i]
    carrying chunk [i] with the stream's id, the length of that chunk and
    sequence number [i], and after them exactly one terminal frame
    [(stream_id, 0, 0)]. *)
Theorem send_file_emits_all_frames (chunk_size : Z) (source : bytes) (stream_id : Z) :
  1 <= chunk_size ->
  i32_min <= stream_id <= i32_max ->
  Z.min chunk_size (py_len source) <= i32_max ->
  Spec.ceil_div (py_len source) chunk_size - 1 <= i32_max ->
  Spec.emits_all_frames chunk_size source stream_id /\
  snd (send_file chunk_size source stream_id)
  = Returned (py_len source, Spec.ceil_div (py_len source) chunk_size) /\
  (Spec.ceil_div (py_len source) chunk_size - 1) * chunk_size < py_len source
    <= Spec.ceil_div (py_len source) chunk_size * chunk_size.
Proof.
  intros Hps Hid Hlen Hseq.
  destruct (send_file_fit _ _ _ Hps Hid Hlen Hseq) as (blocks & marker & Hs & Hb & Hm).
  split; [|split].
  - exists blocks, [marker]. rewrite Hs. split; [done|]. split; [done|].
    by exists marker.
  - by rewrite Hs.
  - by apply ceil_div_bounds.
Qed.

Lemma send_file_emits_all_frames_witness :
  Spec.emits_all_frames 2 ["a"; "b"; "c"; "d"; "e"]%byte 3 /\
  snd (send_file 2 ["a"; "b"; "c"; "d"; "e"]%byte 3)
  = Returned (py_len ["a"; "b"; "c"; "d"; "e"]%byte,
              Spec.ceil_div (py_len ["a"; "b"; "c"; "d"; "e"]%byte) 2) /\
  (Spec.ceil_div (py_len ["a"; "b"; "c"; "d"; "e"]%byte) 2 - 1) * 2
    < py_len ["a"; "b"; "c"; "d"; "e"]%byte
    <= Spec.ceil_div (py_len ["a"; "b"; "c"; "d"; "e"]%byte) 2 * 2.
Proof.
  apply (send_file_emits_all_frames 2 ["a"; "b"; "c"; "d"; "e"]%byte 3);
    vm_compute; intuition discriminate.
Defined.

Lemma py_len_replicate {A} (n : nat) (x : A) : py_len (replicate n x) = Z.of_nat n.
Proof. unfold py_len. by rewrite length_replicate. Qed.

Lemma oversized_not_emitted package_size source id_stream :
  py_len source = package_size ->
  i32_max < package_size ->
  ~ Spec.emits_all_frames package_size source id_stream.
Proof.
  intros Hlen Hbig (blocks & last & Hs & _).
  rewrite send_file_oversized in Hs by done.
  destruct blocks; discriminate Hs.
Qed.

(** C2, as stated, fails: a source of 2^31 bytes sent with chunk size 2^31
    has one chunk, whose length is no signed 32-bit integer;
    [struct.pack] raises and [send_file] writes no frame at all. *)
Lemma send_file_oversized_chunk :
  1 <= 2147483648 /\
  ~ Spec.emits_all_frames 2147483648 (replicate (Z.to_nat 2147483648) x00) 0.
Proof.
  split; [lia|]. apply oversized_not_emitted.
  - rewrite py_len_replicate. apply Z2Nat.id. lia.
  - unfold i32_max. lia.
Qed.

(** The shape of what [send_file] writes, whatever its outcome: data
    frames of an initial run of the chunks, and after them the terminal
    frame if the call got that far. *)
Lemma send_file_blocks package_size source id_stream :
  1 <= package_size ->
  exists m data,
    (m <= Z.to_nat (Spec.ceil_div (py_len source) package_size))%nat /\
    Forall2 (Spec.carries_chunk package_size source id_stream) (seq 0 m) data /\
    (fst (send_file package_size source id_stream) = data \/
     exists marker, pack_iii id_stream 0 0 = Some marker /\
       fst (send_file package_size source id_stream) = data ++ [[marker]]).
Proof.
  intros Hps.
  assert (exists cs : nat, package_size = Z.of_nat cs) as [cs ->]
    by (exists (Z.to_nat package_size); lia).
  assert (1 <= cs)%nat as Hcs by lia.
  unfold send_file. destruct (Z.eqb_spec (Z.of_nat cs) 0) as [?|_]; [lia|].
  rewrite num_packages_ceil by lia.
  destruct (send_packages_blocks cs source id_stream Hcs
              (Z.to_nat (Spec.ceil_div (py_len source) (Z.of_nat cs))) 0 0)
    as (m & Hm & Hb).
  change (Z.of_nat 0) with 0 in Hb.
  destruct (send_packages _ _ _ _ _ _) as [data [sum|e]]; cbn [fst] in Hb.
  - destruct (pack_iii id_stream 0 0) as [marker|] eqn:Hk.
    + exists m, data. repeat split; [done..|]. right. by exists marker.
    + exists m, data. repeat split; [done..|]. by left.
  - exists m, data. repeat split; [done..|]. by left.
Qed.

Lemma data_block_payload package_size source id_stream m data k block :
  1 <= package_size ->
  (m <= Z.to_nat (Spec.ceil_div (py_len source) package_size))%nat ->
  Forall2 (Spec.carries_chunk package_size source id_stream) (seq 0 m) data ->
  data !! k = Some block ->
  exists header package,
    block = [header; package] /\ 1 <= py_len package /\
    unpack_iii header = Some (id_stream, py_len package, Z.of_nat k).
Proof.
  intros Hps Hm Hb Hk.
  destruct (Forall2_lookup_r _ _ _ _ _ Hb Hk) as (j & Hj & header & -> & Hh).
  apply lookup_seq in Hj as [-> Hj]. cbn in Hh.
  exists header, (Spec.chunk (Z.to_nat package_size) source k).
  split; [done|]. split; [|by apply unpack_pack_iii].
  assert (package_size = Z.of_nat (Z.to_nat package_size)) as Hcs by lia.
  rewrite Hcs in Hm.
  pose proof (rounds_cover_source (Z.to_nat package_size) source ltac:(lia)) as [_ Hlt].
  specialize (Hlt k ltac:(lia)).
  unfold py_len. rewrite chunk_length. lia.
Qed.

(** C10.  For a chunk size >= 1: every data frame that [send_file] writes
    has a payload of at least one byte, and its header carries that
    length; hence a frame whose header has length 0 is the terminal frame
    [(stream_id, 0, 0)], without payload and last in the output; and for
    an empty source (and a stream id that a header can hold) the whole
    output is that one terminal frame. *)
Theorem zero_length_frame_is_terminal (chunk_size : Z) (source : bytes) (stream_id : Z) :
  1 <= chunk_size ->
  let blocks := fst (send_file chunk_size source stream_id) in
  (forall header package, [header; package] ∈ blocks ->
     1 <= py_len package /\
     exists sequence, unpack_iii header = Some (stream_id, py_len package, sequence)) /\
  (forall k header rest i sequence,
     blocks !! k = Some (header :: rest) ->
     unpack_iii header = Some (i, 0, sequence) ->
     rest = [] /\ i = stream_id /\ sequence = 0 /\ S k = length blocks) /\
  (i32_min <= stream_id <= i32_max -> source = [] ->
     exists marker, pack_iii stream_id 0 0 = Some marker /\ blocks = [[marker]]).
Proof.
  intros Hps blocks.
  destruct (send_file_blocks chunk_size source stream_id Hps) as (m & data & Hm & Hb & Hout).
  assert (forall k block, data !! k = Some block ->
            exists header package,
              block = [header; package] /\ 1 <= py_len package /\
              unpack_iii header = Some (stream_id, py_len package, Z.of_nat k)) as Hdata
    by (intros k block; by eapply data_block_payload).
  split; [|split].
  - intros header package Hin.
    assert ([header; package] ∈ data) as Hin'.
    { subst blocks. destruct Hout as [Ho|(marker & _ & Ho)]; rewrite Ho in Hin; [done|].
      apply elem_of_app in Hin as [?|Hin]; [done|].
      apply list_elem_of_singleton in Hin. discriminate. }
    apply list_elem_of_lookup in Hin' as [k Hk].
    destruct (Hdata _ _ Hk) as (h & p & [= -> ->] & Hp & Hu). eauto.
  - intros k header rest i sequence Hk Hu.
    destruct (data !! k) as [block|] eqn:Hdk.
    + assert (blocks !! k = Some block) as Hk'.
      { subst blocks. destruct Hout as [Ho|(marker & _ & Ho)]; rewrite Ho; [done|].
        by apply lookup_app_l_Some. }
      rewrite Hk in Hk'. injection Hk' as <-.
      destruct (Hdata _ _ Hdk) as (h & p & [= -> ->] & Hp & Hu'). 
      rewrite Hu in Hu'. injection Hu' as _ Hz _. lia.
    + apply lookup_ge_None in Hdk. subst blocks.
      destruct Hout as [Ho|(marker & Hmk & Ho)]; rewrite Ho in Hk |- *.
      * apply lookup_lt_Some in Hk. lia.
      * rewrite lookup_app_r in Hk by done.
        destruct (k - length data)%nat as [|?] eqn:Hkd; [|done].
        injection Hk as <- <-. apply unpack_pack_iii in Hmk.
        rewrite Hu in Hmk. injection Hmk as -> ->.
        rewrite length_app. cbn. repeat split; lia.
  - intros Hid ->. subst blocks.
    destruct (send_file_fit chunk_size [] stream_id Hps Hid) as (bs & marker & Hs & Hbs & Hmk).
    { unfold py_len, i32_max. cbn. lia. }
    { assert (Spec.ceil_div (py_len (@nil byte)) chunk_size = 0) as ->; [|done].
      pose proof (ceil_div_bounds (py_len (@nil byte)) chunk_size Hps).
      unfold py_len in *. cbn in *. nia. }
    assert (Spec.ceil_div (py_len (@nil byte)) chunk_size = 0) as Hz.
    { pose proof (ceil_div_bounds (py_len (@nil byte)) chunk_size Hps).
      unfold py_len in *. cbn in *. nia. }
    rewrite Hz in Hbs. apply Forall2_nil_inv_l in Hbs as ->.
    exists marker. by rewrite Hs.
Qed.

Lemma zero_length_frame_is_terminal_witness :
  let blocks := fst (send_file 2 ["a"; "b"; "c"]%byte 1) in
  (forall header package, [header; package] ∈ blocks ->
     1 <= py_len package /\
     exists sequence, unpack_iii header = Some (1, py_len package, sequence)) /\
  (forall k header rest i sequence,
     blocks !! k = Some (header :: rest) ->
     unpack_iii header = Some (i, 0, sequence) ->
     rest = [] /\ i = 1 /\ sequence = 0 /\ S k = length blocks) /\
  (i32_min <= 1 <= i32_max -> ["a"; "b"; "c"]%byte = [] ->
     exists marker, pack_iii 1 0 0 = Some marker /\ blocks = [[marker]]).
Proof.
  apply (zero_length_frame_is_terminal 2 ["a"; "b"; "c"]%byte 1). lia.
Defined.

(** C10, as stated, fails outside these conditions.  With chunk size -1
    and an empty source the loop runs twice and writes two data frames
    with empty payloads before the terminal frame; with stream id 2^31
    and an empty source the terminal header cannot be packed and nothing
    is written. *)
Lemma zero_length_data_frames :
  ~ Stated.zero_length_is_terminal (-1) [] 0 /\
  ~ Stated.zero_length_is_terminal 1 [] 2147483648.
Proof.
  split.
  - intros (Hdata & _ & _).
    destruct (Hdata [x00; x00; x00; x00;  x00; x00; x00; x00;  x00; x00; x00; x00] [])
      as [Hlen _]; [|vm_compute in Hlen; by apply Hlen].
    vm_compute. apply list_elem_of_here.
  - intros (_ & _ & Hempty).
    destruct (Hempty eq_refl) as (marker & _ & Hblocks). vm_compute in Hblocks.
    discriminate Hblocks.
Qed.

(** ** The receiver: the shared stream state *)

Import Client.

Section StreamState.

Lemma py_range_elem n k : k ∈ py_range n <-> 0 <= k < n.
Proof.
  unfold py_range. rewrite list_elem_of_fmap. split.
  - intros (j & -> & Hj). apply elem_of_seq in Hj. lia.
  - intros Hk. exists (Z.to_nat k). split; [lia|]. apply elem_of_seq. lia.
Qed.

Lemma py_range_S (n : nat) : py_range (Z.of_nat (S n)) = py_range (Z.of_nat n) ++ [Z.of_nat n].
Proof.
  unfold py_range. rewrite !Nat2Z.id, seq_S, fmap_app. reflexivity.
Qed.

Lemma lookup_empty_buffers (l : list Z) k :
  (list_to_map ((fun i => (i, [])) <$> l) : gmap Z bytes) !! k
  = if decide (k ∈ l) then Some [] else None.
Proof.
  revert k. induction l as [|x l IH]; intros k; cbn [fmap list_fmap list_to_map foldr].
  - rewrite lookup_empty. case_decide as H; [|done]. by apply elem_of_nil in H.
  - cbn. rewrite lookup_insert. case_decide as Hx.
    + subst. rewrite decide_True; [done|]. apply list_elem_of_here.
    + rewrite IH. case_decide as Hl.
      * rewrite decide_True; [done|]. by apply list_elem_of_further.
      * rewrite decide_False; [done|]. intros [->|?]%elem_of_cons; done.
Qed.

Lemma initial_buffer n id :
  file_buffers (initial_streams n) !! id = if decide (0 <= id < n) then Some [] else None.
Proof.
  unfold initial_streams; cbn [file_buffers]. rewrite lookup_empty_buffers.
  destruct (decide (0 <= id < n)) as [H|H].
  - rewrite decide_True; [done|]. by apply py_range_elem.
  - rewrite decide_False; [done|]. by rewrite py_range_elem.
Qed.

Lemma initial_counter n id :
  0 <= id < n -> curret_package (initial_streams n) !! Z.to_nat id = Some 0.
Proof.
  intros H. unfold initial_streams; cbn [curret_package].
  apply lookup_replicate_2. lia.
Qed.

Lemma py_index_in_range n i : 0 <= i < n -> py_index n i = Some (Z.to_nat i).
Proof.
  intros H. unfold py_index.
  destruct (Z.leb_spec 0 i), (Z.ltb_spec i n); cbn; [done|lia..].
Qed.

(** What a successful commit has done. *)
Lemma commit_package_Committed st id_stream id_package package st' :
  commit_package st id_stream id_package package = Committed st' ->
  exists buffer k,
    file_buffers st !! id_stream = Some buffer /\
    py_index (py_len (curret_package st)) id_stream = Some k /\
    curret_package st !! k = Some id_package /\
    st' = {| file_buffers := <[id_stream := buffer ++ package]> (file_buffers st);
             curret_package := <[k := id_package + 1]> (curret_package st) |}.
Proof.
  unfold commit_package.
  destruct (file_buffers st !! id_stream) as [buffer|]; [|discriminate].
  destruct (py_index _ _) as [k|]; [|discriminate].
  destruct (curret_package st !! k) as [current|] eqn:Hc; [|discriminate].
  destruct (Z.eqb_spec current id_package) as [->|_]; [|discriminate].
  intros [= <-]. by exists buffer, k.
Qed.

Lemma reachable_well_formed n tr st : reachable n tr st -> well_formed n st.
Proof.
  induction 1 as [|tr st id seq p st' _ [IHd IHl] Hc].
  - split.
    + intros id. rewrite initial_buffer. case_decide as Hd.
      * split; eauto.
      * split; [by intros [? ?]|done].
    + unfold initial_streams; cbn. by rewrite length_replicate.
  - apply commit_package_Committed in Hc as (buffer & k & Hb & Hk & Hcur & ->).
    split; cbn [file_buffers curret_package].
    + intros id'. rewrite <- IHd. rewrite lookup_insert. case_decide; [|done].
      subst. rewrite Hb. split; eauto.
    + by rewrite length_insert.
Qed.

Lemma commits_of_snoc id tr e :
  commits_of id (tr ++ [e])
  = commits_of id tr ++ (if decide (event_stream e = id) then [e] else []).
Proof.
  unfold commits_of. rewrite filter_app. f_equal.
Qed.

End StreamState.

(** Commits taken one at a time.  In every state reached from the initial
    one by commits that do not overlap, for every stream: the sequence
    numbers of the frames committed so far are 0, 1, 2, ... in this order
    (no gap, no duplicate), the counter [curret_package[id_stream]] is
    their number, and the buffer is the concatenation of their payloads in
    this order.  A commit happens only for the sequence number the counter
    shows, raises this counter by exactly 1 and changes no other counter;
    so no counter ever decreases, and all start at 0. *)
Theorem stream_state_invariant (n : Z) (tr : list commit_event) (st : streams) :
  reachable n tr st ->
  (forall id_stream, 0 <= id_stream < n ->
     let done := commits_of id_stream tr in
     event_sequence <$> done = py_range (py_len done) /\
     curret_package st !! Z.to_nat id_stream = Some (py_len done) /\
     file_buffers st !! id_stream = Some (concat (event_payload <$> done))) /\
  (forall id_stream id_package package st',
     commit_package st id_stream id_package package = Committed st' ->
     0 <= id_stream < n /\
     curret_package st !! Z.to_nat id_stream = Some id_package /\
     curret_package st' !! Z.to_nat id_stream = Some (id_package + 1) /\
     forall j, j <> Z.to_nat id_stream ->
       curret_package st' !! j = curret_package st !! j).
Proof.
  intros Hreach.
  assert (forall st0 id seq p st1,
            well_formed n st0 ->
            commit_package st0 id seq p = Committed st1 ->
            0 <= id < n /\
            exists buffer,
              file_buffers st0 !! id = Some buffer /\
              curret_package st0 !! Z.to_nat id = Some seq /\
              st1 = {| file_buffers := <[id := buffer ++ p]> (file_buffers st0);
                       curret_package := <[Z.to_nat id := seq + 1]> (curret_package st0) |})
    as Hstep.
  { intros st0 id seq p st1 [Hd Hl] Hc.
    apply commit_package_Committed in Hc as (buffer & k & Hb & Hk & Hcur & ->).
    assert (0 <= id < n) as Hid by (apply Hd; eauto).
    split; [done|]. exists buffer.
    unfold py_len in Hk. rewrite Hl, py_index_in_range in Hk by lia.
    injection Hk as <-. done. }
  split.
  - induction Hreach as [|tr st id seq p st' Hr IH Hc]; intros id_stream Hid done.
    + subst done. change (commits_of id_stream []) with (@nil commit_event).
      split; [reflexivity|]. split; [by apply initial_counter|].
      rewrite initial_buffer. by rewrite decide_True.
    + pose proof (reachable_well_formed _ _ _ Hr) as Hwf.
      destruct (Hstep _ _ _ _ _ Hwf Hc) as (Hid' & buffer & Hb & Hcur & ->).
      destruct (IH id_stream Hid) as (Hseq & Hcnt & Hbuf).
      subst done. rewrite commits_of_snoc. cbn [event_stream file_buffers curret_package].
      destruct (decide (id = id_stream)) as [->|Hne].
      * rewrite Hcnt in Hcur. injection Hcur as <-. rewrite Hbuf in Hb. injection Hb as <-.
        rewrite !fmap_app, concat_app. cbn [fmap list_fmap concat event_sequence event_payload].
        rewrite app_nil_r. unfold py_len in *. rewrite length_app. cbn [length].
        rewrite Nat.add_1_r, py_range_S, Hseq. split; [done|]. split.
        -- rewrite list_lookup_insert_eq; [f_equal; lia|].
           destruct Hwf as [_ ->]. lia.
        -- by rewrite lookup_insert_eq.
      * rewrite app_nil_r. split; [done|]. split.
        -- rewrite list_lookup_insert_ne by lia. done.
        -- by rewrite lookup_insert_ne.
  - intros id_stream id_package package st' Hc.
    pose proof (reachable_well_formed _ _ _ Hreach) as Hwf.
    destruct (Hstep _ _ _ _ _ Hwf Hc) as (Hid & buffer & Hb & Hcur & ->).
    cbn [curret_package]. split; [done|]. split; [done|]. split.
    + rewrite list_lookup_insert_eq; [done|]. by apply lookup_lt_Some in Hcur.
    + intros j Hj. by rewrite list_lookup_insert_ne.
Qed.

Lemma stream_state_invariant_witness :
  let n := 2 in
  let tr := [] ++ [Commit 1 0 ["a"; "b"]%byte] in
  let st := {| file_buffers := <[1 := [] ++ ["a"; "b"]%byte]> (file_buffers (initial_streams 2));
               curret_package := <[1%nat := 0 + 1]> (curret_package (initial_streams 2)) |} in
  (forall id_stream, 0 <= id_stream < n ->
     let done := commits_of id_stream tr in
     event_sequence <$> done = py_range (py_len done) /\
     curret_package st !! Z.to_nat id_stream = Some (py_len done) /\
     file_buffers st !! id_stream = Some (concat (event_payload <$> done))) /\
  (forall id_stream id_package package st',
     commit_package st id_stream id_package package = Committed st' ->
     0 <= id_stream < n /\
     curret_package st !! Z.to_nat id_stream = Some id_package /\
     curret_package st' !! Z.to_nat id_stream = Some (id_package + 1) /\
     forall j, j <> Z.to_nat id_stream ->
       curret_package st' !! j = curret_package st !! j).
Proof.
  intros n tr st.
  apply (stream_state_invariant n tr st).
  apply (reach_commit 2 [] (initial_streams 2) 1 0 ["a"; "b"]%byte st).
  - apply reach_initial.
  - vm_compute. reflexivity.
Defined.

(** *** Two workers at the same time *)

Section Races.

Import Race.

(** One worker on its own commits in three steps what [commit_package]
    commits in one. *)
Lemma commit_in_three_steps m t f st' :
  places m !! t = Some (AtTest f) ->
  commit_package (shared m) (id_stream f) (id_package f) (package f) = Committed st' ->
  exists m',
    rtc step m m' /\ shared m' = st' /\ wire m' = wire m /\
    places m' = <[t := AtLock]> (places m).
Proof.
  intros Ht Hc.
  apply commit_package_Committed in Hc as (buffer & k & Hb & Hk & Hcur & ->).
  assert (counter_of (shared m) (id_stream f) = Some (k, id_package f)) as Hcounter
    by (unfold counter_of; by rewrite Hk, Hcur).
  assert (t < length (places m))%nat as Hlt by (by eapply lookup_lt_Some).
  eexists. split.
  - eapply rtc_l; [by eapply (step_test m t f)|]. rewrite Z.eqb_refl.
    eapply rtc_l.
    { eapply (step_increment _ t f); [|exact Hcounter].
      cbn [places]. by apply list_lookup_insert_eq. }
    eapply rtc_l; [|apply rtc_refl].
    eapply (step_extend _ t f); [|exact Hb].
    cbn [places]. apply list_lookup_insert_eq. by rewrite length_insert.
  - cbn [shared wire places]. by rewrite !list_insert_insert_eq.
Qed.

End Races.

Tactic Notation "worker_step" uconstr(rule) :=
  eapply rtc_l; [eapply rule; reflexivity|];
  match goal with
  | |- rtc _ ?m _ => let m' := eval vm_compute in m in change m with m'
  end.

(** C3.  The claim fails on the code.  The comparison, the increment and
    the [extend] of the inner loop are three statements under no lock,
    and the counter is raised before the buffer is extended.  A file [ab]
    is sent on stream 0 in packages of one byte, an empty file on stream
    1, and the frames arrive whole and in order.  Two workers: the first
    reads the frame with sequence number 0, the second the frame with
    sequence number 1; the first compares and raises the counter, the
    second compares, raises the counter and extends the buffer, and only
    then the first extends it.  Both workers leave on the terminal
    frames, nothing is left unread, the counter of stream 0 is 2, and the
    buffer of stream 0 holds [ba]: not the payloads of the sequence
    numbers 0 and 1 in this order, and not the file. *)
Theorem two_workers_swap_payloads :
  exists m,
    rtc Race.step (Race.start 2 Race.two_files) m /\
    Race.places m = [Race.Gone ZeroLength; Race.Gone ZeroLength] /\
    arrivals (Race.wire m) = [] /\
    curret_package (Race.shared m) = [2; 0] /\
    file_buffers (Race.shared m) !! 0 = Some ["b"; "a"]%byte /\
    Race.printed m = [LogWriting 0 1 1; LogWriting 0 1 0].
Proof.
  eexists. split.
  - match goal with
    | |- rtc _ ?m _ => let m' := eval vm_compute in m in change m with m'
    end.
    worker_step (Race.step_frame _ 0%nat).
    worker_step (Race.step_frame _ 1%nat).
    worker_step (Race.step_test _ 0%nat).
    worker_step (Race.step_increment _ 0%nat).
    worker_step (Race.step_test _ 1%nat).
    worker_step (Race.step_increment _ 1%nat).
    worker_step (Race.step_extend _ 1%nat).
    worker_step (Race.step_extend _ 0%nat).
    worker_step (Race.step_break _ 0%nat).
    worker_step (Race.step_break _ 1%nat).
    apply rtc_refl.
  - vm_compute. repeat split; reflexivity.
Qed.

(** ** The receiver: one worker *)

Section Worker.

Lemma read_data_frame header package rest closed id_stream data_length id_package :
  unpack_iii header = Some (id_stream, data_length, id_package) ->
  data_length = py_len package ->
  1 <= data_length ->
  read_frame {| arrivals := header :: package :: rest; peer_closed := closed |}
  = ReadFrame id_stream data_length id_package package
      {| arrivals := rest; peer_closed := closed |}.
Proof.
  intros Hu Hlen Hpos.
  assert (length header = 12%nat) as H12.
  { do 13 (destruct header as [|? header]; try discriminate Hu). reflexivity. }
  unfold read_frame, recv. cbn [Z.ltb Z.eqb Z.compare arrivals peer_closed take_available].
  change (Z.to_nat 12) with 12%nat.
  destruct header as [|b header]; [discriminate|].
  rewrite take_ge, drop_ge by lia. rewrite Hu.
  destruct (Z.eqb_spec data_length 0) as [?|_]; [lia|].
  destruct (Z.ltb_spec data_length 0) as [?|_]; [lia|].
  cbn [arrivals peer_closed take_available].
  destruct package as [|c package]; [unfold py_len in Hlen; cbn in Hlen; lia|].
  rewrite take_ge, drop_ge by (unfold py_len in Hlen; lia). reflexivity.
Qed.

Lemma read_zero_length header rest closed id_stream id_package :
  unpack_iii header = Some (id_stream, 0, id_package) ->
  read_frame {| arrivals := header :: rest; peer_closed := closed |}
  = ReadBreak ZeroLength {| arrivals := rest; peer_closed := closed |}.
Proof.
  intros Hu.
  assert (length header = 12%nat) as H12.
  { do 13 (destruct header as [|? header]; try discriminate Hu). reflexivity. }
  unfold read_frame, recv. cbn [Z.ltb Z.eqb Z.compare arrivals peer_closed take_available].
  change (Z.to_nat 12) with 12%nat.
  destruct header as [|b header]; [discriminate|].
  rewrite take_ge, drop_ge by lia. rewrite Hu. reflexivity.
Qed.

(** With nothing left to come, the worker leaves the stream state alone. *)
Lemma recv_file_nothing rounds closed st lg :
  state (recv_file rounds {| arrivals := []; peer_closed := closed |} st lg) = st.
Proof. destruct rounds, closed; reflexivity. Qed.

Context (cs : nat) (source : bytes) (id_stream : Z).
Hypothesis cs_pos : (1 <= cs)%nat.

(** One worker receives the data frames of chunks [i .. i + n - 1] of a
    stream whose counter shows [i]: it commits them all and goes on with
    what follows. *)
Lemma recv_file_data_blocks n : forall i blocks rest closed rounds st buffer lg k,
  Forall2 (Spec.carries_chunk (Z.of_nat cs) source id_stream) (seq i n) blocks ->
  (forall j, (i <= j < i + n)%nat -> (j * cs < length source)%nat) ->
  file_buffers st !! id_stream = Some buffer ->
  py_index (py_len (curret_package st)) id_stream = Some k ->
  curret_package st !! k = Some (Z.of_nat i) ->
  exists st' lg',
    recv_file (n + rounds) {| arrivals := concat blocks ++ rest; peer_closed := closed |} st lg
    = recv_file rounds {| arrivals := rest; peer_closed := closed |} st' lg' /\
    file_buffers st' !! id_stream = Some (buffer ++ take (n * cs) (drop (i * cs) source)) /\
    py_index (py_len (curret_package st')) id_stream = Some k /\
    curret_package st' !! k = Some (Z.of_nat (i + n)).
Proof.
  induction n as [|n IH]; intros i blocks rest closed rounds st buffer lg k Hb Hne Hbuf Hk Hcur.
  - apply Forall2_nil_inv_l in Hb as ->. exists st, lg. cbn [concat app Nat.add].
    rewrite take_0, app_nil_r, Nat.add_0_r. done.
  - cbn [seq] in Hb. apply Forall2_cons_inv_l in Hb as (block & blocks' & Hblock & Hb & ->).
    destruct Hblock as (header & -> & Hh). rewrite Nat2Z.id in Hh.
    cbn [concat]. rewrite <- !app_assoc. cbn [app Nat.add recv_file].
    assert (1 <= py_len (Spec.chunk cs source i)) as Hpos.
    { unfold py_len. rewrite chunk_length. specialize (Hne i ltac:(lia)). lia. }
    rewrite (read_data_frame _ _ _ _ id_stream (py_len (Spec.chunk cs source i)) (Z.of_nat i));
      [|by apply unpack_pack_iii|rewrite Nat2Z.id; reflexivity|done].
    rewrite Nat2Z.id.
    unfold commit_package at 1. rewrite Hbuf, Hk, Hcur, Z.eqb_refl.
    destruct (IH (S i) blocks' rest closed rounds
                {| file_buffers := <[id_stream := buffer ++ Spec.chunk cs source i]> (file_buffers st);
                   curret_package := <[k := Z.of_nat i + 1]> (curret_package st) |}
                (buffer ++ Spec.chunk cs source i)
                (lg ++ [LogWriting id_stream (py_len (Spec.chunk cs source i)) (Z.of_nat i)]) k)
      as (st' & lg' & Hrun & Hbuf' & Hk' & Hcur').
    + exact Hb.
    + intros j Hj. apply Hne. lia.
    + cbn [file_buffers]. apply lookup_insert_eq.
    + cbn [curret_package]. unfold py_len. rewrite length_insert. exact Hk.
    + cbn [curret_package]. rewrite list_lookup_insert_eq by (by apply lookup_lt_Some in Hcur).
      f_equal. lia.
    + exists st', lg'. rewrite Hrun. split; [done|]. split; [|split; [done|]].
      * rewrite Hbuf'. f_equal. rewrite <- app_assoc. f_equal.
        unfold Spec.chunk.
        replace (S n * cs)%nat with (cs + n * cs)%nat by lia.
        rewrite <- take_take_drop, drop_drop. do 3 f_equal. lia.
      * rewrite Hcur'. f_equal. lia.
Qed.

End Worker.

(** C1, as amended.  For every source and every chunk size >= 1 such that
    the stream id, the length of the longest chunk and the last sequence
    number are signed 32-bit integers: when the frames that [send_file]
    writes for a stream reach a worker of a receiver that has this stream
    among its [streams] streams (every written buffer arriving in one
    piece), the worker commits all data frames, leaves its loop at the
    terminal frame, and the buffer of the stream then equals the source. *)
Theorem round_trip (streams chunk_size : Z) (source : bytes) (stream_id : Z) :
  1 <= chunk_size ->
  0 <= stream_id < streams ->
  stream_id <= i32_max ->
  Z.min chunk_size (py_len source) <= i32_max ->
  Spec.ceil_div (py_len source) chunk_size - 1 <= i32_max ->
  Spec.reassembles streams chunk_size source stream_id /\
  forall closed rounds,
    (Z.to_nat (Spec.ceil_div (py_len source) chunk_size) < rounds)%nat ->
    let s := {| arrivals := wire (send_file chunk_size source stream_id);
                peer_closed := closed |} in
    let r := recv_file rounds s (initial_streams streams) [] in
    how r = Exited ZeroLength /\
    arrivals (conn r) = [] /\
    curret_package (state r) !! Z.to_nat stream_id
      = Some (Spec.ceil_div (py_len source) chunk_size) /\
    file_buffers (state r) !! stream_id = Some source.
Proof.
  intros Hps Hid Hmax Hlen Hseq.
  assert (forall closed rounds,
    (Z.to_nat (Spec.ceil_div (py_len source) chunk_size) < rounds)%nat ->
    let s := {| arrivals := wire (send_file chunk_size source stream_id);
                peer_closed := closed |} in
    let r := recv_file rounds s (initial_streams streams) [] in
    how r = Exited ZeroLength /\
    arrivals (conn r) = [] /\
    curret_package (state r) !! Z.to_nat stream_id
      = Some (Spec.ceil_div (py_len source) chunk_size) /\
    file_buffers (state r) !! stream_id = Some source) as Hrun.
  { intros closed rounds Hrounds.
    destruct (send_file_fit chunk_size source stream_id Hps) as (blocks & marker & Hs & Hb & Hm);
      [unfold i32_min; lia|done..|].
    pose proof (ceil_div_bounds (py_len source) chunk_size Hps) as Hceil.
    assert (exists cs : nat, chunk_size = Z.of_nat cs) as [cs ->]
      by (exists (Z.to_nat chunk_size); lia).
    assert (1 <= cs)%nat as Hcs by lia.
    set (n := Z.to_nat (Spec.ceil_div (py_len source) (Z.of_nat cs))) in *.
    destruct (rounds_cover_source cs source Hcs) as [Hcover Hinside]. fold n in Hcover, Hinside.
    rewrite Hs. unfold wire. cbn [fst]. rewrite concat_app. cbn [concat app].
    assert (exists extra, rounds = (n + S extra)%nat) as [extra ->]
      by (exists (rounds - n - 1)%nat; lia).
    destruct (recv_file_data_blocks cs source stream_id Hcs n 0 blocks [marker] closed
                (S extra) (initial_streams streams) [] [] (Z.to_nat stream_id))
      as (st' & lg' & Hrun & Hbuf & Hk & Hcur).
    - exact Hb.
    - intros j Hj. apply Hinside. lia.
    - rewrite initial_buffer. by rewrite decide_True.
    - apply py_index_in_range. unfold initial_streams, py_len; cbn [curret_package].
      rewrite length_replicate. lia.
    - by apply initial_counter.
    - cbv zeta. rewrite Hrun. cbn [recv_file].
      rewrite (read_zero_length marker [] closed stream_id 0) by (by apply unpack_pack_iii).
      cbn [how conn state arrivals]. split; [done|]. split; [done|]. split.
      + rewrite Hcur. f_equal. unfold py_len in *. lia.
      + rewrite Hbuf. rewrite drop_0, take_ge by lia. done. }
  split; [|exact Hrun].
  intros closed. exists (S (Z.to_nat (Spec.ceil_div (py_len source) chunk_size))).
  intros rounds Hrounds. apply Hrun. lia.
Qed.

Lemma round_trip_witness :
  Spec.reassembles 2 2 ["a"; "b"; "c"; "d"; "e"]%byte 1 /\
  forall closed rounds,
    (Z.to_nat (Spec.ceil_div (py_len ["a"; "b"; "c"; "d"; "e"]%byte) 2) < rounds)%nat ->
    let s := {| arrivals := wire (send_file 2 ["a"; "b"; "c"; "d"; "e"]%byte 1);
                peer_closed := closed |} in
    let r := recv_file rounds s (initial_streams 2) [] in
    how r = Exited ZeroLength /\
    arrivals (conn r) = [] /\
    curret_package (state r) !! Z.to_nat 1
      = Some (Spec.ceil_div (py_len ["a"; "b"; "c"; "d"; "e"]%byte) 2) /\
    file_buffers (state r) !! 1 = Some ["a"; "b"; "c"; "d"; "e"]%byte.
Proof.
  apply (round_trip 2 2 ["a"; "b"; "c"; "d"; "e"]%byte 1);
    vm_compute; intuition discriminate.
Defined.

Lemma oversized_not_reassembled streams package_size source id_stream :
  py_len source = package_size ->
  i32_max < package_size ->
  0 <= id_stream < streams ->
  ~ Spec.reassembles streams package_size source id_stream.
Proof.
  intros Hlen Hbig Hid H. destruct (H true) as [enough He].
  specialize (He enough (le_n _)). cbv zeta in He.
  rewrite send_file_oversized in He by done.
  unfold wire in He. cbn [fst concat] in He.
  rewrite recv_file_nothing, initial_buffer, decide_True in He by done.
  injection He as <-. unfold py_len, i32_max in *. cbn in Hlen. lia.
Qed.

(** C1, as stated, fails: for a source of 2^31 bytes and chunk size 2^31
    the sender writes no frame ([struct.pack] raises on the length), so the
    buffer of the stream stays empty whatever the worker does. *)
Lemma round_trip_oversized_chunk :
  1 <= 2147483648 /\
  ~ Spec.reassembles 1 2147483648 (replicate (Z.to_nat 2147483648) x00) 0.
Proof.
  split; [lia|]. apply oversized_not_reassembled.
  - rewrite py_len_replicate. apply Z2Nat.id. lia.
  - unfold i32_max. lia.
  - lia.
Qed.

(** ** The receiver: frames of length zero and short reads *)

Import Scenario.

(** What the worker does at a header whose length field is 0. *)
Lemma recv_file_zero_length s st header s1 id_stream id_package rounds lg :
  recv 12 s = RecvData header s1 ->
  unpack_iii header = Some (id_stream, 0, id_package) ->
  recv_file (S rounds) s st lg
  = {| how := Exited ZeroLength; conn := s1; state := st; log := lg |}.
Proof.
  intros Hr Hu. cbn [recv_file]. unfold read_frame. rewrite Hr.
  destruct header as [|b header]; [discriminate Hu|].
  rewrite Hu. cbn. by rewrite app_nil_r.
Qed.

(** C5, as amended.  When a worker in [recv_file] decodes a header whose
    length field is 0 (whatever its sequence number and its stream id), the
    worker itself ends: it leaves its loop by [break] without touching the
    state of any stream and without reading anything more, however many
    rounds it would have had left. *)
Theorem zero_length_frame_ends_worker (s : sock) (st : streams) (header : bytes)
    (s1 : sock) (stream_id sequence : Z) (rounds : nat) (lg : list log_entry) :
  recv 12 s = RecvData header s1 ->
  unpack_iii header = Some (stream_id, 0, sequence) ->
  let r := recv_file (S rounds) s st lg in
  how r = Exited ZeroLength /\ conn r = s1 /\ state r = st /\ log r = lg.
Proof.
  intros Hr Hu r. subst r. by rewrite (recv_file_zero_length _ _ _ _ _ _ _ _ Hr Hu).
Qed.

Lemma zero_length_frame_ends_worker_witness :
  let s1 := {| arrivals :=
                 [ [x00; x00; x00; x01;  x00; x00; x00; x01;  x00; x00; x00; x00];
                   ["x"%byte] ];
               peer_closed := false |} in
  let r := recv_file 5 terminal_then_data (initial_streams 2) [] in
  how r = Exited ZeroLength /\ conn r = s1 /\ state r = initial_streams 2 /\ log r = [].
Proof.
  intros s1.
  apply (zero_length_frame_ends_worker terminal_then_data (initial_streams 2)
           [x00; x00; x00; x00;  x00; x00; x00; x00;  x00; x00; x00; x00] s1 0 0 4 []);
    reflexivity.
Defined.

(** C5, as stated, fails: the worker that decodes the terminal frame of
    stream 0 ends there; the frame of stream 1 that is already on the wire
    is not serviced by it. *)
Lemma terminal_frame_ends_worker :
  ~ Spec.survives_terminal_frame terminal_then_data (initial_streams 2).
Proof.
  intros H.
  specialize (H [x00; x00; x00; x00;  x00; x00; x00; x00;  x00; x00; x00; x00]
                {| arrivals :=
                     [ [x00; x00; x00; x01;  x00; x00; x00; x01;  x00; x00; x00; x00];
                       ["x"%byte] ];
                   peer_closed := false |}
                0 eq_refl eq_refl 1%nat []).
  apply (f_equal how) in H. vm_compute in H. discriminate H.
Qed.

(** C6, on the code.  Neither read is exact.  A payload that becomes
    available in two pieces is committed short (["ab"] for the declared 4
    bytes) without any report, and its rest is then taken for a header.
    A header of which only 8 bytes are available is reported by the worker
    that reads it, which ends; the next worker reads from the middle of the
    frame and commits bytes of stream 1 into the buffer of stream 0. *)
Theorem short_reads_go_unnoticed :
  ~ Spec.reads_are_exact payload_in_two_pieces /\
  ~ Spec.reads_are_exact header_in_two_pieces /\
  (let r := recv_file 5 payload_in_two_pieces (initial_streams 1) [] in
   how r = Exited (Caught StructError) /\
   file_buffers (state r) !! 0 = Some ["a"; "b"]%byte /\
   log r = [LogWriting 0 4 0; LogException StructError]) /\
  (let a := recv_file 5 header_in_two_pieces (initial_streams 2) [] in
   let b := recv_file 5 (conn a) (state a) (log a) in
   how a = Exited (Caught StructError) /\
   state a = initial_streams 2 /\
   file_buffers (state b) !! 0 = Some ["X"; "X"; "X"; "X"]%byte /\
   file_buffers (state b) !! 1 = Some [] /\
   log b = [LogException StructError; LogWriting 0 4 0]).
Proof.
  split; [|split; [|split]].
  - intros [_ H].
    specialize (H 0 4 0 ["a"; "b"]%byte
                  {| arrivals :=
                       [ ["c"; "d"]%byte;
                         [x00; x00; x00; x00;  x00; x00; x00; x00;  x00; x00; x00; x00] ];
                     peer_closed := false |} eq_refl).
    discriminate H.
  - intros [H _].
    destruct (H [x00; x00; x00; x01;  x00; x00; x00; x0c]
                {| arrivals :=
                     [ [x00; x00; x00; x00;
                        x00; x00; x00; x04;  x00; x00; x00; x00;  "X"; "X"; "X"; "X"]%byte ];
                   peer_closed := false |} eq_refl) as [H'|H']; discriminate H'.
  - vm_compute. repeat split; reflexivity.
  - vm_compute. repeat split; reflexivity.
Qed.

(** ** The handshake *)

Lemma set_up_server_rejected int_decode self accepted number :
  int_decode number = None ->
  set_up_status (set_up_server int_decode self accepted number) = Raised ValueError.
Proof. intros H. unfold set_up_server. by rewrite H. Qed.

(** C9, as amended.  For every echoed text that [int()] accepts,
    [set_up_server] returns normally: it has stored the accepted connection
    and the client's address, sent the decimal text of the stream count,
    and printed its two progress lines, followed by "Problem here..."
    exactly when the echoed number differs from the count.  Nothing else
    changes. *)
Theorem handshake_mismatch_is_logged (int_decode : bytes -> option Z) (self : server)
    (accepted : nat * (string * Z)) (number : bytes) (v : Z) :
  int_decode number = Some v ->
  let r := set_up_server int_decode self accepted number in
  set_up_status r = Returned tt /\
  self' r = {| number_of_files := number_of_files self;
               connection := Some (fst accepted);
               client_address := Some (snd accepted) |} /\
  handshake_sent r = [str_encode (number_of_files self)] /\
  printed r
  = ["Client connected...sending number of files the client should expect";
     "Sent it, now we will wait for the client to send it back so we can start..."]%string
    ++ (if decide (v = number_of_files self) then [] else ["Problem here..."%string]).
Proof.
  intros H r. subst r. unfold set_up_server. rewrite H. cbn.
  repeat split. destruct (Z.eqb_spec v (number_of_files self)) as [->|Hne].
  - by rewrite decide_True.
  - by rewrite decide_False.
Qed.

Lemma handshake_mismatch_is_logged_witness :
  let self := {| number_of_files := 3; connection := None; client_address := None |} in
  let accepted := (7%nat, ("127.0.0.1"%string, 40000)) in
  let r := set_up_server decimal_int self accepted ["4"%byte] in
  set_up_status r = Returned tt /\
  self' r = {| number_of_files := number_of_files self;
               connection := Some (fst accepted);
               client_address := Some (snd accepted) |} /\
  handshake_sent r = [str_encode (number_of_files self)] /\
  printed r
  = ["Client connected...sending number of files the client should expect";
     "Sent it, now we will wait for the client to send it back so we can start..."]%string
    ++ (if decide (4 = number_of_files self) then [] else ["Problem here..."%string]).
Proof.
  intros self accepted.
  apply (handshake_mismatch_is_logged decimal_int self accepted ["4"%byte] 4).
  reflexivity.
Defined.

(** C9, as stated, fails: when the peer has closed the connection,
    [recv(1024)] returns the empty string, [int("")] raises [ValueError]
    and [set_up_server] does not return normally. *)
Lemma handshake_empty_echo_raises :
  let self := {| number_of_files := 3; connection := None; client_address := None |} in
  let r := set_up_server decimal_int self (7%nat, ("127.0.0.1"%string, 40000)) [] in
  set_up_status r = Raised ValueError /\ set_up_status r <> Returned tt.
Proof. cbv zeta. split; [reflexivity|discriminate]. Qed.

(** ** The statistics *)

Section CloseFacts.

Context {num : Type} (num_zero : num) (num_gt : num -> num -> bool)
  (true_div : Z -> num -> num).

(** [>] is a strict total order, as on the numbers that are not NaN. *)
Hypothesis gt_irrefl : forall x, num_gt x x = false.
Hypothesis gt_trans :
  forall x y z, num_gt x y = true -> num_gt y z = true -> num_gt x z = true.
Hypothesis gt_cotrans :
  forall x y z, num_gt x z = true -> num_gt x y = true \/ num_gt y z = true.

Lemma close_step_sums (l : list (file_stat num)) : forall sb sp t,
  let r := fold_left (close_step num_gt) l (sb, sp, t) in
  r.1.1 = sb + foldr Z.add 0 (stat_bytes <$> l) /\
  r.1.2 = sp + foldr Z.add 0 (stat_packages <$> l).
Proof.
  induction l as [|fs l IH]; intros sb sp t; cbn.
  - lia.
  - destruct (IH (sb + stat_bytes fs) (sp + stat_packages fs)
                (if num_gt (stat_elapsed fs) t then stat_elapsed fs else t)) as [-> ->].
    lia.
Qed.

(** The running maximum: the value that the loop ends with is the start
    value or one of the elapsed times, and nothing seen exceeds it. *)
Lemma close_step_max (l : list (file_stat num)) : forall sb sp t,
  let m := (fold_left (close_step num_gt) l (sb, sp, t)).2 in
  m ∈ t :: (stat_elapsed <$> l) /\
  num_gt t m = false /\
  forall x, x ∈ (stat_elapsed <$> l) -> num_gt x m = false.
Proof.
  induction l as [|fs l IH]; intros sb sp t; cbn.
  - split; [apply list_elem_of_here|]. split; [apply gt_irrefl|].
    intros x Hx. by apply elem_of_nil in Hx.
  - destruct (IH (sb + stat_bytes fs) (sp + stat_packages fs)
                (if num_gt (stat_elapsed fs) t then stat_elapsed fs else t))
      as (Hin & Hstart & Hall).
    set (m := (fold_left (close_step num_gt) l _).2) in *.
    destruct (num_gt (stat_elapsed fs) t) eqn:Hgt.
    + split; [by apply list_elem_of_further|]. split.
      * destruct (num_gt t m) eqn:Htm; [|done].
        by rewrite (gt_trans _ _ _ Hgt Htm) in Hstart.
      * intros x [->|Hx]%elem_of_cons; [done|by apply Hall].
    + split.
      { apply elem_of_cons in Hin as [->|Hin]; [apply list_elem_of_here|].
        by do 2 apply list_elem_of_further. }
      split; [done|].
      intros x [->|Hx]%elem_of_cons; [|by apply Hall].
      destruct (num_gt (stat_elapsed fs) m) eqn:Hfm; [|done].
      destruct (gt_cotrans _ t _ Hfm) as [H|H]; congruence.
Qed.

(** C8.  For any list of per-stream statistics, the empty one included,
    [close] computes: the total of bytes and the total of packages as the
    sums of the per-stream values; [total_time] as the maximum of the
    elapsed times, taken together with the 0 that the loop starts from (so
    0 for the empty list): it is one of these numbers and none of them
    exceeds it; and both rates as the totals divided by [total_time] when
    [total_time > 0], and as 0 otherwise. *)
Theorem close_totals (statistic : list (file_stat num)) :
  let r := close num_zero num_gt true_div statistic in
  sum_bytes r = foldr Z.add 0 (stat_bytes <$> statistic) /\
  sum_packages r = foldr Z.add 0 (stat_packages <$> statistic) /\
  total_time r ∈ num_zero :: (stat_elapsed <$> statistic) /\
  (forall x, x ∈ num_zero :: (stat_elapsed <$> statistic) ->
     num_gt x (total_time r) = false) /\
  (if num_gt (total_time r) num_zero
   then avg_bytes_per_sec r = true_div (sum_bytes r) (total_time r) /\
        avg_packages_per_sec r = true_div (sum_packages r) (total_time r)
   else avg_bytes_per_sec r = num_zero /\ avg_packages_per_sec r = num_zero).
Proof.
  intros r. subst r. unfold close.
  pose proof (close_step_sums statistic 0 0 num_zero) as [Hb Hp].
  pose proof (close_step_max statistic 0 0 num_zero) as (Hin & Hstart & Hall).
  destruct (fold_left (close_step num_gt) statistic (0, 0, num_zero)) as [[sb sp] t].
  cbn [fst snd] in *. rewrite Z.add_0_l in Hb, Hp.
  assert (forall x, x ∈ num_zero :: (stat_elapsed <$> statistic) -> num_gt x t = false)
    as Hmax by (intros x [->|Hx]%elem_of_cons; [done|by apply Hall]).
  destruct (num_gt t num_zero) eqn:Hpos; cbn; rewrite Hpos; done.
Qed.

End CloseFacts.

Lemma close_totals_witness :
  let statistic :=
    [ {| stat_path := "files_to_send/file0.bin"; stat_bytes := 3000; stat_packages := 2;
         stat_bytes_per_sec := 1500%Q; stat_packages_per_sec := 1%Q;
         stat_elapsed := 2%Q; stat_first_send := 0%Q |};
      {| stat_path := "files_to_send/file1.bin"; stat_bytes := 5000; stat_packages := 4;
         stat_bytes_per_sec := (10000 # 9)%Q; stat_packages_per_sec := (8 # 9)%Q;
         stat_elapsed := (9 # 2)%Q; stat_first_send := 0%Q |} ] in
  let r := close 0%Q Q_gt Q_true_div statistic in
  sum_bytes r = foldr Z.add 0 (stat_bytes <$> statistic) /\
  sum_packages r = foldr Z.add 0 (stat_packages <$> statistic) /\
  total_time r ∈ 0%Q :: (stat_elapsed <$> statistic) /\
  (forall x, x ∈ 0%Q :: (stat_elapsed <$> statistic) -> Q_gt x (total_time r) = false) /\
  (if Q_gt (total_time r) 0%Q
   then avg_bytes_per_sec r = Q_true_div (sum_bytes r) (total_time r) /\
        avg_packages_per_sec r = Q_true_div (sum_packages r) (total_time r)
   else avg_bytes_per_sec r = 0%Q /\ avg_packages_per_sec r = 0%Q).
Proof.
  intros statistic.
  apply (close_totals 0%Q Q_gt Q_true_div); unfold Q_gt.
  - intros x. rewrite negb_false_iff, Qle_bool_iff. apply Qle_refl.
  - intros x y z. rewrite !negb_true_iff, <- !not_true_iff_false, !Qle_bool_iff.
    intros Hxy Hyz Hxz. apply Qnot_le_lt in Hxy, Hyz.
    apply (Qlt_not_le _ _ (Qlt_trans _ _ _ Hyz Hxy)). exact Hxz.
  - intros x y z. rewrite !negb_true_iff, <- !not_true_iff_false, !Qle_bool_iff.
    intros Hxz. destruct (Qlt_le_dec y x) as [Hyx|Hxy].
    + left. by apply Qlt_not_le.
    + right. intros Hyz. apply Hxz. by apply Qle_trans with y.
Defined.

(** C8, as stated, fails: the loop starts from 0, so for one stream with
    elapsed time -1 [total_time] is 0, which is none of the per-stream
    values. *)
Lemma close_total_time_above_all :
  let statistic :=
    [ {| stat_path := "files_to_send/file0.bin"; stat_bytes := 3000; stat_packages := 2;
         stat_bytes_per_sec := 0%Q; stat_packages_per_sec := 0%Q;
         stat_elapsed := (-1)%Q; stat_first_send := 0%Q |} ] in
  total_time (close 0%Q Q_gt Q_true_div statistic) = 0%Q /\
  ~ Stated.total_time_is_maximum Q_gt (close 0%Q Q_gt Q_true_div statistic) statistic.
Proof.
  intros statistic. split; [reflexivity|].
  intros Hmax. destruct (Hmax ltac:(discriminate)) as [Hin _].
  vm_compute in Hin. apply list_elem_of_singleton in Hin. discriminate Hin.
Qed.

(** ** The lock around the connection *)

Import Guard.

Section GuardFacts.

Context {L : Type} (section_of : L -> option (script L)) (good : L -> Prop).

Hypothesis good_run : forall l sc c l' c',
  good l -> section_of l = Some sc -> run sc c = Some (l', c') -> good l'.

(** A block that was run piece by piece, with nothing in between, has done
    what it does when run at once. *)
Lemma progress_run (sc0 sc : script L) c0 c :
  progress sc0 c0 sc c -> run sc0 c0 = run sc c.
Proof.
  induction 1 as [|data k c _ IH|n k c data s' _ IH Hr|n k c e _ IH Hr]; [done|..];
    rewrite IH; cbn [run]; by rewrite ?Hr.
Qed.

Ltac other_thread H t t' :=
  destruct (decide (t = t')) as [->|?];
  [ rewrite list_lookup_insert_eq in H by (by eapply lookup_lt_Some)
  | rewrite list_lookup_insert_ne in H by done ].

Lemma step_guarded c_start m m' :
  step section_of m m' ->
  guarded section_of good c_start m ->
  guarded section_of good c_start m'.
Proof.
  intros Hstep (Hin & Hout & c0 & Hser & Hlink).
  destruct Hstep as [m t l sc Hfree Ht Hsec|m t data k Ht|m t n k data s' Ht Hr
                    |m t n k e Ht Hr|m t l Ht]; unfold guarded; cbn [lock threads link].
  - rewrite Hfree in Hlink. repeat split.
    + intros t' sc' H. other_thread H t t'; [done|].
      apply Hin in H. congruence.
    + intros t' l' H. other_thread H t t'; [done|]. by eapply Hout.
    + exists c0. split; [done|]. exists l, sc, sc.
      split; [by eapply Hout|]. split; [done|]. split.
      * apply list_lookup_insert_eq. by eapply lookup_lt_Some.
      * rewrite Hlink. constructor.
  - pose proof (Hin _ _ Ht) as Hheld. rewrite Hheld in Hlink |- *.
    destruct Hlink as (l & sc0 & sc & Hl & Hsec & Ht' & Hp).
    rewrite Ht in Ht'. injection Ht' as <-. repeat split.
    + intros t' sc' H. other_thread H t t'; [done|]. apply Hin in H. congruence.
    + intros t' l' H. other_thread H t t'; [done|]. by eapply Hout.
    + exists c0. split; [done|]. exists l, sc0, k. repeat split; [done..| |].
      * apply list_lookup_insert_eq. by eapply lookup_lt_Some.
      * by constructor.
  - pose proof (Hin _ _ Ht) as Hheld. rewrite Hheld in Hlink |- *.
    destruct Hlink as (l & sc0 & sc & Hl & Hsec & Ht' & Hp).
    rewrite Ht in Ht'. injection Ht' as <-. repeat split.
    + intros t' sc' H. other_thread H t t'; [done|]. apply Hin in H. congruence.
    + intros t' l' H. other_thread H t t'; [done|]. by eapply Hout.
    + exists c0. split; [done|]. exists l, sc0, (k (Returned data)).
      repeat split; [done..| |].
      * apply list_lookup_insert_eq. by eapply lookup_lt_Some.
      * by econstructor.
  - pose proof (Hin _ _ Ht) as Hheld. rewrite Hheld in Hlink |- *.
    destruct Hlink as (l & sc0 & sc & Hl & Hsec & Ht' & Hp).
    rewrite Ht in Ht'. injection Ht' as <-. repeat split.
    + intros t' sc' H. other_thread H t t'; [done|]. apply Hin in H. congruence.
    + intros t' l' H. other_thread H t t'; [done|]. by eapply Hout.
    + exists c0. split; [done|]. exists l, sc0, (k (Raised e)).
      repeat split; [done..| |].
      * apply list_lookup_insert_eq. by eapply lookup_lt_Some.
      * by econstructor.
  - pose proof (Hin _ _ Ht) as Hheld. rewrite Hheld in Hlink.
    destruct Hlink as (l0 & sc0 & sc & Hl & Hsec & Ht' & Hp).
    rewrite Ht in Ht'. injection Ht' as <-.
    apply progress_run in Hp. cbn [run] in Hp. repeat split.
    + intros t' sc' H. other_thread H t t'; [done|].
      apply Hin in H. congruence.
    + intros t' l' H. other_thread H t t'; [|by eapply Hout].
      injection H as <-. by eapply good_run.
    + exists (link m). split; [|done]. by eapply serial_section.
Qed.

Lemma reachable_guarded ls c m :
  Forall good ls ->
  rtc (step section_of) (start ls c) m ->
  guarded section_of good c m.
Proof.
  intros Hls. revert m. apply (rtc_ind_r (fun m => guarded section_of good c m)).
  - repeat split; cbn [start lock threads link].
    + intros t sc H. apply list_lookup_fmap_Some in H as (l & [=] & _).
    + intros t l H. apply list_lookup_fmap_Some in H as (l' & [= ->] & Hl).
      eapply Forall_lookup_1 in Hls; done.
    + exists c. split; [constructor|done].
  - intros m1 m2 _ Hstep IH. by eapply step_guarded.
Qed.

End GuardFacts.

Section Senders.

Context (transfers : list transfer).

Lemma run_send_all block rest c :
  run (send_all block rest) c
  = Some (rest, {| sent_out := sent_out c ++ block; channel := channel c |}).
Proof.
  revert c. induction block as [|data block IH]; intros c; cbn [send_all run].
  - rewrite app_nil_r. by destruct c.
  - rewrite IH. unfold write. cbn [sent_out channel]. by rewrite <- app_assoc.
Qed.

Lemma progress_send_all block rest c0 sc c :
  progress (send_all block rest) c0 sc c ->
  exists before after,
    block = before ++ after /\ sc = send_all after rest /\
    sent_out c = sent_out c0 ++ before.
Proof.
  induction 1 as [|data k c _ IH|n k c data s' _ IH _|n k c e _ IH _].
  - exists [], block. by rewrite app_nil_r.
  - destruct IH as (before & after & -> & Hk & Hs).
    destruct after as [|x after]; [discriminate Hk|]. cbn [send_all] in Hk.
    injection Hk as <- ->. exists (before ++ [data]), after.
    rewrite <- app_assoc. cbn [write sent_out]. rewrite Hs, <- app_assoc. done.
  - destruct IH as (before & after & _ & Hk & _). destruct after; discriminate Hk.
  - destruct IH as (before & after & _ & Hk & _). destruct after; discriminate Hk.
Qed.

Lemma rest_of_program_run blocks sc c blocks' c' :
  rest_of_program transfers blocks ->
  sender_section blocks = Some sc ->
  run sc c = Some (blocks', c') ->
  rest_of_program transfers blocks'.
Proof.
  intros (tr & Htr & Hsuf) Hsec Hrun.
  destruct blocks as [|block rest]; [discriminate Hsec|]. injection Hsec as <-.
  rewrite run_send_all in Hrun. injection Hrun as <- _.
  exists tr. split; [done|]. by eapply suffix_cons_l.
Qed.

Lemma head_of_rest block rest :
  rest_of_program transfers (block :: rest) -> frame_of transfers block.
Proof.
  intros (tr & Htr & [k Hk]). exists tr. split; [done|].
  rewrite Hk. apply elem_of_app. right. apply list_elem_of_here.
Qed.

(** Whole blocks of the senders, one after the other, put whole frames on
    the wire. *)
Lemma serial_whole_frames c_start c0 :
  serial sender_section (rest_of_program transfers) c_start c0 ->
  exists frames,
    sent_out c0 = sent_out c_start ++ concat frames /\
    Forall (frame_of transfers) frames.
Proof.
  induction 1 as [|c blocks sc blocks' c' _ (frames & Hs & Hf) Hgood Hsec Hrun].
  - exists []. by rewrite app_nil_r.
  - destruct blocks as [|block rest]; [discriminate Hsec|]. injection Hsec as <-.
    rewrite run_send_all in Hrun. injection Hrun as _ <-. cbn [sent_out].
    exists (frames ++ [block]). split.
    + rewrite Hs, concat_app. cbn [concat]. by rewrite app_nil_r, <- app_assoc.
    + apply Forall_app. split; [done|]. constructor; [|constructor].
      by eapply head_of_rest.
Qed.

End Senders.

Section Workers.

(** The block of a worker, run at once, is [read_frame]. *)
Lemma run_worker_section c :
  run worker_section c
  = match read_frame (channel c) with
    | ReadFrame _ _ _ _ s2 => Some (Ready, consume s2 c)
    | ReadBreak _ s1 => Some (Gone, consume s1 c)
    | ReadBlocks => None
    end.
Proof.
  assert (consume (channel c) c = c) as Hc by (by destruct c).
  unfold worker_section, read_frame. cbn [run].
  destruct (recv 12 (channel c)) as [header s1| |e]; [|done|cbn [run]; by rewrite Hc].
  destruct header as [|b header]; [done|].
  destruct (unpack_iii (b :: header)) as [[[id_stream data_length] id_package]|]; [|done].
  destruct (data_length =? 0); [done|]. cbn [run consume channel sent_out].
  destruct (recv data_length s1) as [package s2| |e]; done.
Qed.

Lemma serial_frame_boundary c_start c0 :
  serial worker_next (fun _ => True) c_start c0 ->
  frame_boundary (channel c_start) (channel c0) /\ sent_out c0 = sent_out c_start.
Proof.
  induction 1 as [|c w sc w' c' _ [IHb IHs] _ Hsec Hrun].
  - split; [constructor|done].
  - destruct w; [|discriminate Hsec]. injection Hsec as <-.
    rewrite run_worker_section in Hrun.
    destruct (read_frame (channel c)) as [i d p pk s2|why s1|] eqn:Hread;
      [| |discriminate Hrun]; injection Hrun as _ <-; cbn [consume channel sent_out].
    + split; [|done]. by eapply boundary_frame.
    + split; [|done]. by eapply boundary_break.
Qed.

End Workers.

Tactic Notation "thread_step" uconstr(rule) :=
  eapply rtc_l; [eapply rule; reflexivity|].

(** C7.  The claim fails on the code, on the side of the receiver.  The
    bytes on the connection are the two frames that [send_file] writes for
    a file [abcd] sent whole on stream 0; the payload becomes available in
    two pieces.  The first of two workers enters the block, reads the
    header and, with its one [recv], the first piece [ab] of the payload,
    and leaves the block with the rest [cd] of the frame unread.  The
    second worker enters the block and reads [cd]: bytes from the middle
    of the frame that the first has begun, taken for a header.  The reads
    of one frame are made by two workers, in two blocks. *)
Theorem frame_read_by_two_workers :
  concat (arrivals payload_in_two_pieces)
  = concat (wire (send_file 4 ["a"; "b"; "c"; "d"]%byte 0)) /\
  exists m1 m2 : machine worker,
    rtc (step worker_next) (workers 2 (fresh payload_in_two_pieces)) m1 /\
    lock m1 = None /\
    threads m1 = [Outside Ready; Outside Ready] /\
    concat (arrivals (channel (link m1)))
    = ["c"; "d"]%byte ++ concat (drop 2 (wire (send_file 4 ["a"; "b"; "c"; "d"]%byte 0))) /\
    rtc (step worker_next) m1 m2 /\
    lock m2 = Some 1%nat /\
    threads m2 = [Outside Ready; Inside (Leave Gone)] /\
    concat (arrivals (channel (link m2)))
    = concat (drop 2 (wire (send_file 4 ["a"; "b"; "c"; "d"]%byte 0))).
Proof.
  split; [reflexivity|].
  eexists. eexists. split.
  { thread_step (step_acquire _ _ 0%nat).
    thread_step (step_recv _ _ 0%nat).
    thread_step (step_recv _ _ 0%nat).
    thread_step (step_release _ _ 0%nat).
    apply rtc_refl. }
  split; [reflexivity|]. split; [reflexivity|]. split; [reflexivity|].
  split.
  { thread_step (step_acquire _ _ 1%nat).
    thread_step (step_recv _ _ 1%nat).
    apply rtc_refl. }
  repeat split; reflexivity.
Qed.

(** * Further properties of the code *)

(** ** The codec, read from the side of the receiver *)

Section CodecInverse.

Lemma lor_shiftl_add hi lo k :
  0 <= k -> 0 <= lo < 2 ^ k -> Z.lor (Z.shiftl hi k) lo = hi * 2 ^ k + lo.
Proof.
  intros Hk Hlo. rewrite <- Z.shiftl_mul_pow2 by lia.
  symmetry. apply Z.add_nocarry_lor.
  apply Z.bits_inj'. intros n Hn.
  rewrite Z.land_spec, Z.bits_0.
  destruct (Z.ltb_spec n k) as [Hlt|Hge].
  - rewrite Z.shiftl_spec_low by lia. reflexivity.
  - rewrite <- (Z.mod_small lo (2 ^ k)) by lia.
    rewrite Z.mod_pow2_bits_high by lia. apply andb_false_r.
Qed.

Lemma assemble_value b0 b1 b2 b3 :
  assemble b0 b1 b2 b3
  = Z_of_byte b0 * 16777216 + Z_of_byte b1 * 65536 + Z_of_byte b2 * 256 + Z_of_byte b3.
Proof.
  unfold assemble.
  pose proof (Z_of_byte_range b0). pose proof (Z_of_byte_range b1).
  pose proof (Z_of_byte_range b2). pose proof (Z_of_byte_range b3).
  rewrite (lor_shiftl_add (Z_of_byte b2) _ 8) by lia.
  rewrite (lor_shiftl_add (Z_of_byte b1) _ 16) by lia.
  rewrite (lor_shiftl_add (Z_of_byte b0) _ 24) by lia.
  lia.
Qed.

Lemma byte_of_Z_mod z b : z mod 256 = Z_of_byte b -> byte_of_Z z = b.
Proof.
  intros Hz. unfold byte_of_Z.
  change 255 with (Z.ones 8). rewrite Z.land_ones by lia.
  change (2 ^ 8) with 256. rewrite Hz. unfold Z_of_byte.
  rewrite N2Z.id, Byte.of_to_N. reflexivity.
Qed.

Lemma unpack_i_in_range b0 b1 b2 b3 :
  i32_min <= unpack_i b0 b1 b2 b3 <= i32_max.
Proof.
  unfold unpack_i, i32_min, i32_max. cbv zeta.
  rewrite assemble_value.
  pose proof (Z_of_byte_range b0). pose proof (Z_of_byte_range b1).
  pose proof (Z_of_byte_range b2). pose proof (Z_of_byte_range b3).
  rewrite Z.testbit_eqb by lia. change (2 ^ 31) with 2147483648.
  match goal with |- context [?x =? 1] => destruct (Z.eqb_spec x 1) as [E|E] end;
    revert E; Z.div_mod_to_equations; lia.
Qed.

Lemma pack_unpack_i b0 b1 b2 b3 :
  pack_i (unpack_i b0 b1 b2 b3) = Some [b0; b1; b2; b3].
Proof.
  rewrite pack_i_in_range by apply unpack_i_in_range.
  unfold unpack_i. cbv zeta. rewrite assemble_value.
  pose proof (Z_of_byte_range b0). pose proof (Z_of_byte_range b1).
  pose proof (Z_of_byte_range b2). pose proof (Z_of_byte_range b3).
  rewrite Z.testbit_eqb by lia. change (2 ^ 31) with 2147483648.
  f_equal. repeat apply (f_equal2 cons); [| | | | reflexivity];
    apply byte_of_Z_mod; rewrite ?Z.shiftr_div_pow2 by lia;
    change (2 ^ 24) with 16777216; change (2 ^ 16) with 65536;
    change (2 ^ 8) with 256;
    match goal with |- context [?x =? 1] => destruct (Z.eqb_spec x 1) as [E|E] end;
    revert E; Z.div_mod_to_equations; lia.
Qed.

End CodecInverse.

(** X1.  [struct.unpack('!iii', header)] accepts exactly the buffers of 12
    bytes.  What it returns for one is a triple of signed 32-bit integers,
    and [struct.pack('!iii', ..)] of that triple gives the 12 bytes back:
    with C4, packing and unpacking are inverse bijections between triples of
    signed 32-bit integers and headers of 12 bytes. *)
Theorem unpack_pack_inverse (header : bytes) :
  (length header = 12%nat ->
     exists a b c,
       unpack_iii header = Some (a, b, c)
       /\ in_i32 a = true /\ in_i32 b = true /\ in_i32 c = true
       /\ pack_iii a b c = Some header)
  /\ (length header <> 12%nat -> unpack_iii header = None).
Proof.
  split.
  - intros Hlen.
    do 13 (destruct header as [|? header]; try discriminate Hlen).
    eexists _, _, _. split; [reflexivity|].
    rewrite !(proj2 (in_i32_spec _)) by apply unpack_i_in_range.
    repeat split. unfold pack_iii. rewrite !pack_unpack_i. reflexivity.
  - intros Hlen.
    do 13 (destruct header as [|? header]; try reflexivity).
    by destruct Hlen.
Qed.

(** ** [send_file]: how a call ends *)

Section SendFileOutcome.

Context (cs : nat) (source : bytes) (id_stream : Z).
Hypothesis cs_pos : (1 <= cs)%nat.

(** The loop returns only if every header could be packed; it raises at
    the first chunk whose header cannot, after the frames of the chunks
    before it. *)
Lemma send_packages_outcome n : forall i sum,
  match send_packages (Z.of_nat cs) source id_stream (Z.of_nat i) n sum with
  | (_, Returned _) => Spec.headers_fit cs source id_stream i n
  | (blocks, Raised e) =>
      e = StructError /\
      exists m, (m < n)%nat /\
        Forall2 (Spec.carries_chunk (Z.of_nat cs) source id_stream) (seq i m) blocks /\
        pack_iii id_stream (py_len (Spec.chunk cs source (i + m))) (Z.of_nat (i + m)) = None
  end.
Proof.
  induction n as [|n IH]; intros i sum.
  - cbn. intros j Hj. lia.
  - cbn [send_packages]. rewrite py_slice_chunk by done.
    destruct (pack_iii _ _ _) as [header|] eqn:Hh.
    + specialize (IH (S i) (sum + py_len (Spec.chunk cs source i))).
      replace (Z.of_nat i + 1) with (Z.of_nat (S i)) by lia.
      destruct (send_packages _ _ _ _ n _) as [blocks [s|e]].
      * intros j Hj. destruct (decide (j = i)) as [->|Hne]; [eauto|].
        apply IH. lia.
      * destruct IH as (-> & m & Hm & Hb & Hnone). split; [done|].
        exists (S m). split; [lia|]. split.
        -- cbn [seq]. constructor; [|exact Hb].
           unfold Spec.carries_chunk. rewrite Nat2Z.id. eauto.
        -- by replace (i + S m)%nat with (S i + m)%nat by lia.
    + split; [done|]. exists 0%nat. split; [lia|]. split; [constructor|].
      by rewrite Nat.add_0_r.
Qed.

End SendFileOutcome.

(** The statistic of a call that returns. *)
Lemma send_file_statistic package_size source id_stream statistic :
  1 <= package_size ->
  snd (send_file package_size source id_stream) = Returned statistic ->
  statistic = (py_len source, Spec.ceil_div (py_len source) package_size).
Proof.
  intros Hps.
  assert (exists cs : nat, package_size = Z.of_nat cs) as [cs ->]
    by (exists (Z.to_nat package_size); lia).
  assert (1 <= cs)%nat as Hcs by lia.
  set (n := Z.to_nat (Spec.ceil_div (py_len source) (Z.of_nat cs))).
  pose proof (send_packages_outcome cs source id_stream Hcs n 0 0) as Hout.
  unfold send_file. destruct (Z.eqb_spec (Z.of_nat cs) 0) as [?|_]; [lia|].
  rewrite num_packages_ceil by lia. fold n.
  change (Z.of_nat 0) with 0 in Hout.
  destruct (send_packages _ _ _ 0 n 0) as [blocks [sum|e]] eqn:Hs; [|discriminate].
  destruct (send_packages_fit cs source id_stream Hcs n 0 0 Hout) as (blocks' & Hs' & _).
  change (Z.of_nat 0) with 0 in Hs'. rewrite Hs in Hs'. injection Hs' as _ ->.
  destruct (pack_iii id_stream 0 0); [|discriminate]. cbn [snd]. intros [= <-].
  do 2 f_equal. rewrite drop_0, take_ge; [unfold py_len; lia|].
  apply (rounds_cover_source cs source Hcs).
Qed.

(** How a call of [send_file] ends on a connection that takes every buffer. *)
Lemma send_file_ends (package_size : Z) (source : bytes) (id_stream : Z) :
  1 <= package_size ->
  let num_packages := Spec.ceil_div (py_len source) package_size in
  match snd (send_file package_size source id_stream) with
  | Returned statistic =>
      statistic = (py_len source, num_packages) /\
      Spec.emits_all_frames package_size source id_stream
  | Raised e =>
      e = StructError /\
      exists m, (m <= Z.to_nat num_packages)%nat /\
        Forall2 (Spec.carries_chunk package_size source id_stream) (seq 0 m)
          (fst (send_file package_size source id_stream)) /\
        if decide (m < Z.to_nat num_packages)%nat
        then pack_iii id_stream
               (py_len (Spec.chunk (Z.to_nat package_size) source m)) (Z.of_nat m) = None
        else pack_iii id_stream 0 0 = None
  end.
Proof.
  intros Hps num_packages. subst num_packages.
  assert (exists cs : nat, package_size = Z.of_nat cs) as [cs ->]
    by (exists (Z.to_nat package_size); lia).
  assert (1 <= cs)%nat as Hcs by lia.
  rewrite Nat2Z.id.
  set (n := Z.to_nat (Spec.ceil_div (py_len source) (Z.of_nat cs))).
  pose proof (send_packages_outcome cs source id_stream Hcs n 0 0) as Hout.
  unfold send_file. destruct (Z.eqb_spec (Z.of_nat cs) 0) as [?|_]; [lia|].
  rewrite num_packages_ceil by lia. fold n.
  change (Z.of_nat 0) with 0 in Hout.
  destruct (send_packages _ _ _ 0 n 0) as [blocks [s|e]] eqn:Hs.
  - destruct (send_packages_fit cs source id_stream Hcs n 0 0 Hout) as (blocks' & Hs' & Hb).
    change (Z.of_nat 0) with 0 in Hs'. rewrite Hs in Hs'.
    injection Hs' as <- ->.
    destruct (pack_iii id_stream 0 0) as [marker|] eqn:Hm; cbn [snd fst].
    + split.
      * do 2 f_equal. rewrite drop_0, take_ge; [unfold py_len; lia|].
        apply (rounds_cover_source cs source Hcs).
      * exists blocks, [marker]. split; [|split; [done|by exists marker]].
        unfold send_file. destruct (Z.eqb_spec (Z.of_nat cs) 0) as [?|_]; [lia|].
        rewrite num_packages_ceil by lia. fold n. by rewrite Hs, Hm.
    + split; [done|]. exists n. split; [lia|]. split; [done|].
      destruct (decide (n < n)%nat); [lia|done].
  - cbn [snd fst]. destruct Hout as (-> & m & Hm & Hb & Hnone).
    split; [done|]. exists m. split; [lia|]. split; [done|].
    destruct (decide (m < n)%nat); [done|lia].
Qed.

(** The loop on a connection that can refuse: the loop on one that takes
    every buffer, cut short at the first refused call. *)
Lemma send_packages_cut package_size source id_stream n : forall i sum results,
  Sending.send_packages package_size source id_stream i n sum results
  = let '(blocks, r) := send_packages package_size source id_stream i n sum in
    let rest := drop (length (concat blocks)) results in
    let r' := match r with
              | Returned s => Returned (s, rest)
              | Raised e => Raised e
              end in
    Sending.cut_short (Sending.first_refused results) (concat blocks) r'.
Proof.
  induction n as [|n IH]; intros i sum results.
  - cbn. unfold Sending.cut_short.
    destruct (Sending.first_refused results) as [k|]; by rewrite ?drop_0.
  - cbn [Sending.send_packages send_packages].
    destruct (pack_iii _ _ _) as [header|].
    + specialize (IH (i + 1)
                    (sum + py_len (py_slice source (i * package_size) ((i + 1) * package_size)))).
      destruct (send_packages _ _ _ (i + 1) n _) as [blocks r] eqn:Hs.
      cbn [concat app length].
      destruct results as [|[|] [|[|] results]]; cbn [Sending.send Sending.first_refused].
      * rewrite IH. cbn [Sending.first_refused Sending.cut_short]. by rewrite !drop_nil.
      * rewrite IH. cbn [Sending.first_refused Sending.cut_short fmap option_fmap option_map].
        by rewrite !drop_nil.
      * rewrite IH. cbn [drop].
        destruct (Sending.first_refused results) as [k|];
          cbn [fmap option_fmap option_map Sending.cut_short]; [|done].
        cbn [length].
        destruct (Nat.ltb_spec k (length (concat blocks))),
          (Nat.ltb_spec (S (S k)) (S (S (length (concat blocks))))); try lia; done.
      * done.
      * done.
      * done.
      * done.
    + cbn. unfold Sending.cut_short.
      by destruct (Sending.first_refused results) as [k|].
Qed.

(** What [k] buffers of a longer output are, when a buffer is appended to
    the output. *)
Lemma cut_short_app {A} refused written last (r : outcome A) :
  Sending.cut_short refused (written ++ [last]) r
  = match refused with
    | Some k =>
        if (k <? length written)%nat then (take k written, Raised OSError)
        else if (k =? length written)%nat then (written, Raised OSError)
        else (written ++ [last], r)
    | None => (written ++ [last], r)
    end.
Proof.
  unfold Sending.cut_short. destruct refused as [k|]; [|done].
  rewrite length_app. cbn [length].
  destruct (Nat.ltb_spec k (length written)), (Nat.eqb_spec k (length written)),
    (Nat.ltb_spec k (length written + 1)); try lia.
  - by rewrite take_app_le by lia.
  - subst k. by rewrite take_app_length.
  - done.
Qed.

Lemma first_refused_drop results k :
  Sending.first_refused results = Some k ->
  forall n, (n <= k)%nat -> Sending.first_refused (drop n results) = Some (k - n)%nat.
Proof.
  revert k. induction results as [|[|] results IH]; intros k Hk n Hn; [done|..].
  - cbn in Hk. destruct (Sending.first_refused results) as [k'|] eqn:Hr; [|done].
    injection Hk as <-. destruct n as [|n]; [cbn; by rewrite Hr|]. cbn [drop].
    rewrite (IH k' eq_refl n) by lia. done.
  - injection Hk as <-. replace n with 0%nat by lia. done.
Qed.

Lemma first_refused_none results n :
  Sending.first_refused results = None -> Sending.first_refused (drop n results) = None.
Proof.
  revert n. induction results as [|[|] results IH]; intros n Hr; [by rewrite drop_nil| |done].
  cbn in Hr. destruct (Sending.first_refused results) eqn:Hr'; [done|].
  destruct n as [|n]; cbn [drop]; [by cbn; rewrite Hr'|]. by apply IH.
Qed.

Lemma send_head results :
  Sending.send results
  = (match Sending.first_refused results with Some 0%nat => Sending.Refused | _ => Sending.Taken end,
     drop 1 results).
Proof.
  destruct results as [|[|] results]; cbn; [done| |done].
  by destruct (Sending.first_refused results).
Qed.

(** [send_file] on a connection that can refuse is [send_file] on one
    that takes every buffer, cut short at the first refused call. *)
Lemma send_file_cut results package_size source id_stream :
  Sending.send_file results package_size source id_stream
  = Sending.cut_short (Sending.first_refused results)
      (wire (send_file package_size source id_stream))
      (snd (send_file package_size source id_stream)).
Proof.
  unfold Sending.send_file, send_file, wire.
  destruct (package_size =? 0).
  { cbn. unfold Sending.cut_short. by destruct (Sending.first_refused results). }
  rewrite send_packages_cut.
  destruct (send_packages _ _ _ 0 _ 0) as [blocks [s|e]]; cbv zeta; cbn [fst snd].
  - destruct (pack_iii id_stream 0 0) as [marker|]; cbn [fst snd].
    + rewrite concat_app. cbn [concat]. rewrite app_nil_r.
      rewrite cut_short_app.
      unfold Sending.cut_short.
      destruct (Sending.first_refused results) as [k|] eqn:Hk.
      * destruct (Nat.ltb_spec k (length (concat blocks))) as [Hlt|Hge]; [done|].
        rewrite send_head, (first_refused_drop _ _ Hk) by lia.
        destruct (Nat.eqb_spec k (length (concat blocks))) as [->|Hne].
        -- by rewrite Nat.sub_diag.
        -- destruct (k - length (concat blocks))%nat eqn:Hd; [lia|done].
      * by rewrite send_head, first_refused_none.
    + unfold Sending.cut_short.
      destruct (Sending.first_refused results) as [k|]; [|done].
      by destruct (k <? length (concat blocks))%nat.
  - unfold Sending.cut_short.
    destruct (Sending.first_refused results) as [k|]; [|done].
    by destruct (k <? length (concat blocks))%nat.
Qed.

(** X2.  How a call of [send_file] with a package size >= 1 ends, on a
    connection whose [send] takes each buffer whole or raises [OSError].
    The call does what it does on a connection that takes every buffer,
    cut short at the first refused [send]: if call [k] of [send] is
    refused before the end, [send_file] has written the first [k]
    buffers, a header without its payload possibly being the last, and
    raises [OSError].  On a connection that takes every buffer: if the
    call returns, it has written the data frames of all chunks and the
    terminal frame, and the statistic holds the length of the source as
    [sum_bytes] and [ceil(total_length / package_size)] as
    [num_packages]; if it raises, the exception is [struct.error], and
    what it has written is the data frames of chunks [0 .. m - 1] and
    nothing after them, where [m] is the first chunk whose header cannot
    be packed, or the number of chunks if it is the terminal header that
    cannot be packed. *)
Theorem send_file_outcome (results : list Sending.send_result)
    (package_size : Z) (source : bytes) (id_stream : Z) :
  1 <= package_size ->
  let num_packages := Spec.ceil_div (py_len source) package_size in
  let taken := send_file package_size source id_stream in
  Sending.send_file results package_size source id_stream
  = Sending.cut_short (Sending.first_refused results) (wire taken) (snd taken) /\
  match snd taken with
  | Returned statistic =>
      statistic = (py_len source, num_packages) /\
      Spec.emits_all_frames package_size source id_stream
  | Raised e =>
      e = StructError /\
      exists m, (m <= Z.to_nat num_packages)%nat /\
        Forall2 (Spec.carries_chunk package_size source id_stream) (seq 0 m) (fst taken) /\
        if decide (m < Z.to_nat num_packages)%nat
        then pack_iii id_stream
               (py_len (Spec.chunk (Z.to_nat package_size) source m)) (Z.of_nat m) = None
        else pack_iii id_stream 0 0 = None
  end.
Proof.
  intros Hps num_packages taken. split; [apply send_file_cut|].
  by apply send_file_ends.
Qed.

(** The payload of the second chunk is refused. *)
Lemma send_file_outcome_witness :
  let results := [Sending.Taken; Sending.Taken; Sending.Taken; Sending.Refused] in
  let taken := send_file 2 ["a"; "b"; "c"]%byte 0 in
  Sending.send_file results 2 ["a"; "b"; "c"]%byte 0
  = Sending.cut_short (Sending.first_refused results) (wire taken) (snd taken) /\
  match snd taken with
  | Returned statistic =>
      statistic = (py_len ["a"; "b"; "c"]%byte, Spec.ceil_div (py_len ["a"; "b"; "c"]%byte) 2) /\
      Spec.emits_all_frames 2 ["a"; "b"; "c"]%byte 0
  | Raised e =>
      e = StructError /\
      exists m, (m <= Z.to_nat (Spec.ceil_div (py_len ["a"; "b"; "c"]%byte) 2))%nat /\
        Forall2 (Spec.carries_chunk 2 ["a"; "b"; "c"]%byte 0) (seq 0 m) (fst taken) /\
        if decide (m < Z.to_nat (Spec.ceil_div (py_len ["a"; "b"; "c"]%byte) 2))%nat
        then pack_iii 0
               (py_len (Spec.chunk (Z.to_nat 2) ["a"; "b"; "c"]%byte m)) (Z.of_nat m) = None
        else pack_iii 0 0 0 = None
  end.
Proof.
  intros results taken.
  apply (send_file_outcome results 2 ["a"; "b"; "c"]%byte 0). lia.
Defined.

Section NoPositiveSize.

Context (package_size : Z) (source : bytes) (id_stream : Z).
Hypothesis size_negative : package_size < 0.

(** With a negative package size that reaches below the start of the
    source, every slice that the loop takes is empty. *)
Lemma py_slice_negative_size i :
  py_len source + package_size <= 0 -> 0 <= i ->
  py_slice source (i * package_size) ((i + 1) * package_size) = [].
Proof.
  intros Hlen Hi. unfold py_slice, clamp_index.
  assert (i * package_size <= 0) as Hle by nia.
  assert (0 <= py_len source) as Hn by (unfold py_len; lia).
  replace ((i + 1) * package_size) with (i * package_size + package_size) by lia.
  destruct (Z.ltb_spec (i * package_size + package_size) 0) as [_|?]; [|lia].
  rewrite (Z.max_l 0 (i * package_size + package_size + py_len source)) by lia.
  destruct (Z.ltb_spec (i * package_size) 0) as [?|?].
  - replace (Z.to_nat (0 - Z.max 0 (i * package_size + py_len source))) with 0%nat by lia.
    reflexivity.
  - replace (Z.to_nat (0 - Z.min (i * package_size) (py_len source))) with 0%nat by lia.
    reflexivity.
Qed.

Lemma send_packages_negative_size n : forall i sum,
  py_len source + package_size <= 0 -> 0 <= i ->
  Forall (fun block => exists header, block = [header; []] /\ length header = 12%nat)
    (fst (send_packages package_size source id_stream i n sum)) /\
  forall s, snd (send_packages package_size source id_stream i n sum) = Returned s ->
            s = sum.
Proof.
  induction n as [|n IH]; intros i sum Hlen Hi.
  - split; [constructor|]. cbn. by intros s [= <-].
  - cbn [send_packages]. rewrite py_slice_negative_size by done.
    destruct (pack_iii _ _ _) as [header|] eqn:Hh; [|split; [constructor|discriminate]].
    apply pack_iii_length in Hh.
    destruct (IH (i + 1) (sum + py_len (@nil byte)) Hlen ltac:(lia)) as [Hb Hs].
    destruct (send_packages _ _ _ (i + 1) n _) as [blocks r]. cbn [fst snd] in *.
    split; [constructor; eauto|].
    intros s Hr. rewrite (Hs s Hr). unfold py_len. cbn. lia.
Qed.

End NoPositiveSize.

(** X3.  [send_file] with a package size that is not positive.  With 0 the
    call raises [ZeroDivisionError] before it writes anything.  With a
    negative size it sends no byte of the file: every buffer it writes is
    a header of 12 bytes or empty, and if it returns, the statistic
    reports 0 bytes sent. *)
Theorem send_file_no_positive_size (package_size : Z) (source : bytes) (id_stream : Z) :
  (package_size = 0 ->
     send_file package_size source id_stream = ([], Raised ZeroDivisionError)) /\
  (package_size < 0 ->
     Forall (fun buffer => buffer = [] \/ length buffer = 12%nat)
       (wire (send_file package_size source id_stream)) /\
     forall sum_bytes num_packages,
       snd (send_file package_size source id_stream) = Returned (sum_bytes, num_packages) ->
       sum_bytes = 0).
Proof.
  split; [intros ->; reflexivity|]. intros Hneg.
  unfold wire, send_file.
  destruct (Z.eqb_spec package_size 0) as [?|_]; [lia|].
  set (num_packages := (py_len source + package_size - 1) / package_size).
  assert (Forall (fun block : list bytes =>
                    exists header, block = [header; []] /\ length header = 12%nat)
            (fst (send_packages package_size source id_stream 0
                    (Z.to_nat num_packages) 0)) /\
          forall s, snd (send_packages package_size source id_stream 0
                           (Z.to_nat num_packages) 0) = Returned s -> s = 0)
    as [Hblocks Hsum].
  { destruct (decide (py_len source + package_size <= 0)) as [Hlen|Hlen].
    - by apply send_packages_negative_size.
    - replace (Z.to_nat num_packages) with 0%nat; [split; [constructor|]|].
      + cbn. by intros s [= <-].
      + assert (num_packages <= 0); [|lia].
        subst num_packages. Z.div_mod_to_equations. nia. }
  assert (forall blocks : list (list bytes),
            Forall (fun block : list bytes =>
                      exists header, block = [header; []] /\ length header = 12%nat) blocks ->
            Forall (fun buffer : bytes => buffer = [] \/ length buffer = 12%nat)
              (concat blocks)) as Hflat.
  { induction 1 as [|block blocks' (header & -> & Hh) _ IH]; [constructor|].
    cbn. constructor; [by right|]. constructor; [by left|exact IH]. }
  destruct (send_packages _ _ _ 0 _ 0) as [blocks [s|e]] eqn:Hs; cbn [fst snd] in *.
  - destruct (pack_iii id_stream 0 0) as [marker|] eqn:Hm; cbn [fst snd].
    + split.
      * rewrite concat_app. apply Forall_app. split; [by apply Hflat|].
        cbn. constructor; [|constructor]. right. by apply pack_iii_length in Hm.
      * intros sum_bytes np [= <- _]. by apply Hsum.
    + split; [by apply Hflat|discriminate].
  - split; [by apply Hflat|discriminate].
Qed.

(** ** The handshake *)

Section Decimal.

Lemma list_byte_of_string_cons c s :
  list_byte_of_string (String c s) = Ascii.byte_of_ascii c :: list_byte_of_string s.
Proof. reflexivity. Qed.

Ltac digit_step :=
  cbn [NilEmpty.string_of_uint]; rewrite list_byte_of_string_cons;
  cbn [digits_value];
  match goal with |- context [digit_of_byte ?b] =>
    let v := eval vm_compute in (digit_of_byte b) in
    change (digit_of_byte b) with v end;
  cbv iota beta.

Lemma digits_value_acc d : forall acc : positive,
  digits_value (Z.pos acc) (list_byte_of_string (NilEmpty.string_of_uint d))
  = Some (Z.pos (Pos.of_uint_acc d acc)).
Proof.
  induction d as [|d IH|d IH|d IH|d IH|d IH|d IH|d IH|d IH|d IH|d IH]; intros acc;
    [reflexivity|..]; digit_step; cbn [Pos.of_uint_acc]; rewrite <- IH; f_equal; lia.
Qed.

Lemma digits_value_uint d :
  digits_value 0 (list_byte_of_string (NilEmpty.string_of_uint d))
  = Some (Z.of_N (Pos.of_uint d)).
Proof.
  induction d as [|d IH|d IH|d IH|d IH|d IH|d IH|d IH|d IH|d IH|d IH];
    [reflexivity|..]; digit_step; cbn [Pos.of_uint Z.of_N]; [exact IH|..];
    exact (digits_value_acc d _).
Qed.

Lemma first_digit d :
  d <> Decimal.Nil ->
  exists b rest,
    list_byte_of_string (NilEmpty.string_of_uint d) = b :: rest /\
    Byte.eqb b "-"%byte = false /\ Byte.eqb b "+"%byte = false.
Proof.
  destruct d; [done|..]; intros _; cbn [NilEmpty.string_of_uint];
    rewrite list_byte_of_string_cons; eexists _, _; (split; [reflexivity|]);
    split; reflexivity.
Qed.

(** [int(str(n))] is [n]: the text that [str_encode] gives is a plain
    decimal text, and its value is [n]. *)
Lemma decimal_int_str_encode n : decimal_int (str_encode n) = Some n.
Proof.
  unfold str_encode. destruct n as [|p|p]; [reflexivity|..];
    cbn [Z.to_int NilZero.string_of_int];
    pose proof (Unsigned.to_uint_nonnil p) as Hnil;
    assert (NilZero.string_of_uint (Pos.to_uint p)
            = NilEmpty.string_of_uint (Pos.to_uint p))
      as -> by (destruct (Pos.to_uint p); [done|reflexivity..]);
    destruct (first_digit _ Hnil) as (b & rest & Hb & Hm & Hp);
    pose proof (digits_value_uint (Pos.to_uint p)) as Hv.
  - rewrite Hb in Hv |- *. unfold decimal_int. rewrite Hm, Hp, Hv.
    by rewrite Unsigned.of_to.
  - rewrite list_byte_of_string_cons.
    rewrite Hb in Hv |- *. unfold decimal_int.
    match goal with |- context [Byte.eqb ?x ?y] => change (Byte.eqb x y) with true end.
    cbv iota. rewrite Hv, Unsigned.of_to. reflexivity.
Qed.

End Decimal.

(** X4.  The handshake between [set_up_server], [set_up_client] and
    [ready_to_recv], for whatever number of files the server was created
    with and an [int()] that reads plain decimal texts as such: the
    greeting that the server sends is read by the client as the server's
    number of files; the client's answer to it is accepted by the server,
    which returns without printing "Problem here...". *)
Theorem handshake_round_trip (int_decode : bytes -> option Z) (self : server)
    (accepted : nat * (string * Z)) :
  (forall text v, decimal_int text = Some v -> int_decode text = Some v) ->
  exists greeting,
    (forall number,
       handshake_sent (set_up_server int_decode self accepted number) = [greeting]) /\
    Receiver.set_up_client int_decode greeting = Returned (number_of_files self) /\
    let up := set_up_server int_decode self accepted
                (Receiver.ready_to_recv (number_of_files self)) in
    set_up_status up = Returned tt /\
    printed up =
      ["Client connected...sending number of files the client should expect";
       "Sent it, now we will wait for the client to send it back so we can start..."]%string.
Proof.
  intros Hint. exists (str_encode (number_of_files self)).
  pose proof (Hint _ _ (decimal_int_str_encode (number_of_files self))) as Hn.
  split; [|split].
  - intros number. unfold set_up_server. by destruct (int_decode number).
  - unfold Receiver.set_up_client. by rewrite Hn.
  - unfold Receiver.ready_to_recv, set_up_server. rewrite Hn.
    cbn [set_up_status printed]. by rewrite Z.eqb_refl.
Qed.

Lemma handshake_round_trip_witness :
  exists greeting,
    (forall number,
       handshake_sent
         (set_up_server decimal_int
            {| Server.number_of_files := 12; Server.connection := None;
               Server.client_address := None |}
            (0%nat, ("127.0.0.1"%string, 5000)) number) = [greeting]) /\
    Receiver.set_up_client decimal_int greeting = Returned 12 /\
    let up := set_up_server decimal_int
                {| Server.number_of_files := 12; Server.connection := None;
               Server.client_address := None |}
                (0%nat, ("127.0.0.1"%string, 5000)) (Receiver.ready_to_recv 12) in
    set_up_status up = Returned tt /\
    printed up =
      ["Client connected...sending number of files the client should expect";
       "Sent it, now we will wait for the client to send it back so we can start..."]%string.
Proof.
  apply (handshake_round_trip decimal_int
           {| Server.number_of_files := 12; Server.connection := None;
               Server.client_address := None |}
           (0%nat, ("127.0.0.1"%string, 5000))).
  intros text v H. exact H.
Defined.

(** ** [compare_files] *)

Section CompareFacts.

Import CompareFiles.

Lemma byte_eqb_refl x : Byte.eqb x x = true.
Proof. by apply Byte.byte_dec_lb. Qed.

Lemma bytes_eqb_eq data1 data2 : bytes_eqb data1 data2 = true <-> data1 = data2.
Proof.
  revert data2. induction data1 as [|x r1 IH]; intros [|y r2]; cbn; try done.
  rewrite andb_true_iff, IH. split.
  - intros [Hxy ->]. by apply Byte.byte_dec_bl in Hxy as ->.
  - intros [= -> ->]. split; [by apply byte_eqb_refl|done].
Qed.

Lemma first_difference_Some data1 : forall data2 i p b1 b2,
  first_difference i data1 data2 = Some (p, b1, b2) ->
  exists k : nat,
    p = i + Z.of_nat k /\ take k data1 = take k data2 /\
    data1 !! k = Some b1 /\ data2 !! k = Some b2 /\ b1 <> b2.
Proof.
  induction data1 as [|x r1 IH]; intros [|y r2] i p b1 b2; cbn; try done.
  destruct (Byte.eqb x y) eqn:Hxy.
  - apply Byte.byte_dec_bl in Hxy as ->. intros Hd.
    destruct (IH _ _ _ _ _ Hd) as (k & -> & Ht & H1 & H2 & Hne).
    exists (S k). cbn. rewrite Ht. repeat split; try done. lia.
  - intros [= <- <- <-]. exists 0%nat. cbn. repeat split; try done; [lia|].
    intros ->. by rewrite byte_eqb_refl in Hxy.
Qed.

Lemma first_difference_None data1 : forall data2 i,
  first_difference i data1 data2 = None ->
  data1 `prefix_of` data2 \/ data2 `prefix_of` data1.
Proof.
  induction data1 as [|x r1 IH]; intros [|y r2] i; cbn.
  - left. done.
  - left. apply prefix_nil.
  - right. apply prefix_nil.
  - destruct (Byte.eqb x y) eqn:Hxy; [|done].
    apply Byte.byte_dec_bl in Hxy as ->. intros Hd.
    destruct (IH _ _ Hd) as [H|H]; [left|right]; by apply prefix_cons.
Qed.

Lemma compare_files_S rounds file1 file2 offset :
  compare_files (S rounds) file1 file2 offset
  = let data1 := take chunk_size file1 in
    let data2 := take chunk_size file2 in
    let next := compare_files rounds (drop chunk_size file1) (drop chunk_size file2)
                  (offset + Z.of_nat chunk_size) in
    match data1, data2 with
    | [], [] => Some (true, [Identical])
    | _, _ =>
        if bytes_eqb data1 data2 then next
        else
          match first_difference 0 data1 data2 with
          | Some (i, b1, b2) => Some (false, [DifferenceAt (offset + i) b1 b2])
          | None =>
              if negb (length data1 =? length data2)%nat
              then Some (false, [DifferentLengths])
              else next
          end
    end.
Proof. reflexivity. Qed.

(** What one round does, by cases on the two chunks. *)
Lemma compare_files_round rounds file1 file2 offset :
  let c := chunk_size in
  (file1 = [] /\ file2 = [] /\
   compare_files (S rounds) file1 file2 offset = Some (true, [Identical]))
  \/ ((file1 <> [] \/ file2 <> []) /\ take c file1 = take c file2 /\
      compare_files (S rounds) file1 file2 offset
      = compare_files rounds (drop c file1) (drop c file2) (offset + Z.of_nat c))
  \/ (exists k b1 b2,
        (k < c)%nat /\ take k file1 = take k file2 /\
        file1 !! k = Some b1 /\ file2 !! k = Some b2 /\ b1 <> b2 /\
        compare_files (S rounds) file1 file2 offset
        = Some (false, [DifferenceAt (offset + Z.of_nat k) b1 b2]))
  \/ (length file1 <> length file2 /\
      (file1 `prefix_of` file2 \/ file2 `prefix_of` file1) /\
      compare_files (S rounds) file1 file2 offset = Some (false, [DifferentLengths])).
Proof.
  intros c.
  assert (0 < c)%nat as Hc by (unfold c, chunk_size; lia).
  assert ((file1 = [] /\ file2 = []) \/ (file1 <> [] \/ file2 <> [])) as [[-> ->]|Hne]
    by (destruct file1, file2; auto).
  { left. done. }
  right.
  assert (compare_files (S rounds) file1 file2 offset
          = if bytes_eqb (take c file1) (take c file2)
            then compare_files rounds (drop c file1) (drop c file2) (offset + Z.of_nat c)
            else
              match first_difference 0 (take c file1) (take c file2) with
              | Some (i, b1, b2) => Some (false, [DifferenceAt (offset + i) b1 b2])
              | None =>
                  if negb (length (take c file1) =? length (take c file2))%nat
                  then Some (false, [DifferentLengths])
                  else compare_files rounds (drop c file1) (drop c file2)
                         (offset + Z.of_nat c)
              end) as ->.
  { rewrite compare_files_S. cbv zeta. fold c.
    destruct file1, file2; try reflexivity. by destruct Hne. }
  destruct (bytes_eqb (take c file1) (take c file2)) eqn:He.
  { left. apply bytes_eqb_eq in He. done. }
  right.
  destruct (first_difference 0 (take c file1) (take c file2)) as [[[p b1] b2]|] eqn:Hd.
  { left. apply first_difference_Some in Hd as (k & -> & Ht & H1 & H2 & Hb).
    apply lookup_take_Some in H1 as [H1 Hk]. apply lookup_take_Some in H2 as [H2 _].
    rewrite !take_take in Ht. rewrite !Nat.min_l in Ht by lia.
    exists k, b1, b2. rewrite Z.add_0_l. done. }
  right.
  apply first_difference_None in Hd.
  destruct (Nat.eqb_spec (length (take c file1)) (length (take c file2))) as [Hl|Hl];
    cbn [negb].
  { assert (take c file1 = take c file2) as Heq.
    { destruct Hd as [Hd|Hd]; [|symmetry]; apply (prefix_length_eq _ _ Hd); lia. }
    apply bytes_eqb_eq in Heq. congruence. }
  rewrite !length_take in Hl.
  split; [lia|]. split; [|done].
  destruct Hd as [[k Hk]|[k Hk]]; [left|right].
  - assert (take c file1 = file1) as Hf.
    { apply take_ge. apply (f_equal length) in Hk.
      rewrite length_app, !length_take in Hk. lia. }
    rewrite Hf in Hk. exists (k ++ drop c file2).
    by rewrite app_assoc, <- Hk, take_drop.
  - assert (take c file2 = file2) as Hf.
    { apply take_ge. apply (f_equal length) in Hk.
      rewrite length_app, !length_take in Hk. lia. }
    rewrite Hf in Hk. exists (k ++ drop c file1).
    by rewrite app_assoc, <- Hk, take_drop.
Qed.

Lemma compare_files_report_from rounds : forall file1 file2 offset result messages,
  compare_files rounds file1 file2 offset = Some (result, messages) ->
  (result = true /\ messages = [Identical] /\ file1 = file2)
  \/ (exists (k : nat) b1 b2,
        result = false /\ messages = [DifferenceAt (offset + Z.of_nat k) b1 b2] /\
        take k file1 = take k file2 /\
        file1 !! k = Some b1 /\ file2 !! k = Some b2 /\ b1 <> b2)
  \/ (result = false /\ messages = [DifferentLengths] /\
      length file1 <> length file2 /\
      (file1 `prefix_of` file2 \/ file2 `prefix_of` file1)).
Proof.
  induction rounds as [|rounds IH]; intros file1 file2 offset result messages;
    [discriminate|].
  destruct (compare_files_round rounds file1 file2 offset)
    as [(-> & -> & ->)|[(_ & Ht & ->)|[(k & b1 & b2 & _ & Ht & H1 & H2 & Hb & ->)
       |(Hl & Hp & ->)]]].
  - intros [= <- <-]. by left.
  - intros Hnext. set (c := chunk_size) in *.
    destruct (IH _ _ _ _ _ Hnext)
      as [(-> & -> & Hd)|[(k & b1 & b2 & -> & -> & Hk & H1 & H2 & Hb)
         |(-> & -> & Hl & Hp)]].
    + left. split; [done|]. split; [done|].
      by rewrite <- (take_drop c file1), <- (take_drop c file2), Ht, Hd.
    + right. left. exists (c + k)%nat, b1, b2.
      rewrite lookup_drop in H1, H2. rewrite <- !take_take_drop, Ht, Hk.
      repeat split; try done. do 2 f_equal. lia.
    + right. right. rewrite !length_drop in Hl.
      split; [done|]. split; [done|]. split; [lia|].
      destruct Hp as [[k Hk]|[k Hk]]; [left|right]; exists k.
      * by rewrite <- (take_drop c file2), Hk, app_assoc, <- Ht, take_drop.
      * by rewrite <- (take_drop c file1), Hk, app_assoc, Ht, take_drop.
  - intros [= <- <-]. right. left. by exists k, b1, b2.
  - intros [= <- <-]. right. right. done.
Qed.

Lemma compare_files_returns rounds : forall file1 file2 offset,
  (length file1 + length file2 < rounds)%nat ->
  is_Some (compare_files rounds file1 file2 offset).
Proof.
  induction rounds as [|rounds IH]; intros file1 file2 offset Hr; [lia|].
  destruct (compare_files_round rounds file1 file2 offset)
    as [(-> & -> & ->)|[(Hne & Ht & ->)|[(k & b1 & b2 & _ & Ht & H1 & H2 & Hb & ->)
       |(Hl & Hp & ->)]]]; try done.
  apply IH. rewrite !length_drop.
  assert (0 < chunk_size)%nat by (unfold chunk_size; lia).
  destruct Hne as [Hne|Hne]; [destruct file1|destruct file2]; cbn [length] in *;
    try done; lia.
Qed.

End CompareFacts.

Import CompareFiles.

(** X5.  [compare_files] decides whether two files have the same content:
    for all contents it returns, and it returns [True] exactly if
    the two byte sequences are equal. *)
Theorem compare_files_decides (file1 file2 : bytes) :
  exists enough, forall rounds, (enough <= rounds)%nat ->
    exists result messages,
      compare_files rounds file1 file2 0 = Some (result, messages) /\
      (result = true <-> file1 = file2).
Proof.
  exists (S (length file1 + length file2)). intros rounds Hr.
  destruct (compare_files_returns rounds file1 file2 0 ltac:(lia)) as [[result messages] Hc].
  exists result, messages. split; [done|].
  destruct (compare_files_report_from _ _ _ _ _ _ Hc)
    as [(-> & _ & Hd)|[(k & b1 & b2 & -> & _ & _ & H1 & H2 & Hb)|(-> & _ & Hl & _)]].
  - done.
  - split; [done|]. intros ->. congruence.
  - split; [done|]. intros ->. done.
Qed.

(** X6.  What [compare_files] prints is accurate.  "The files are
    identical." comes with [True] and equal contents; "Difference found at
    byte p" comes with [False], and [p] is the first position at which the
    two files differ, the two bytes printed being the bytes of the files at
    that position; "files have different lengths" comes with [False] when
    the shorter file is a beginning of the longer one.  Nothing else is
    printed. *)
Theorem compare_files_report (rounds : nat) (file1 file2 : bytes)
    (result : bool) (messages : list message) :
  compare_files rounds file1 file2 0 = Some (result, messages) ->
  (result = true /\ messages = [Identical] /\ file1 = file2)
  \/ (exists (k : nat) b1 b2,
        result = false /\ messages = [DifferenceAt (Z.of_nat k) b1 b2] /\
        take k file1 = take k file2 /\
        file1 !! k = Some b1 /\ file2 !! k = Some b2 /\ b1 <> b2)
  \/ (result = false /\ messages = [DifferentLengths] /\
      length file1 <> length file2 /\
      (file1 `prefix_of` file2 \/ file2 `prefix_of` file1)).
Proof.
  intros Hc. apply compare_files_report_from in Hc. exact Hc.
Qed.

Lemma compare_files_report_witness :
  (false = true /\ [DifferenceAt 2 "c" "x"]%byte = [Identical] /\
   ["a"; "b"; "c"; "d"]%byte = ["a"; "b"; "x"]%byte)
  \/ (exists (k : nat) b1 b2,
        false = false /\
        [DifferenceAt 2 "c" "x"]%byte = [DifferenceAt (Z.of_nat k) b1 b2] /\
        take k ["a"; "b"; "c"; "d"]%byte = take k ["a"; "b"; "x"]%byte /\
        ["a"; "b"; "c"; "d"]%byte !! k = Some b1 /\
        ["a"; "b"; "x"]%byte !! k = Some b2 /\ b1 <> b2)
  \/ (false = false /\ [DifferenceAt 2 "c" "x"]%byte = [DifferentLengths] /\
      length ["a"; "b"; "c"; "d"]%byte <> length ["a"; "b"; "x"]%byte /\
      (["a"; "b"; "c"; "d"]%byte `prefix_of` ["a"; "b"; "x"]%byte \/
       ["a"; "b"; "x"]%byte `prefix_of` ["a"; "b"; "c"; "d"]%byte)).
Proof.
  apply (compare_files_report 1 ["a"; "b"; "c"; "d"]%byte ["a"; "b"; "x"]%byte).
  vm_compute. reflexivity.
Defined.

(** ** The files on disk: [wirting_files] *)

Section WritingFacts.

Import Stdlib.Strings.Ascii.
Import Client Receiver.

(** The file that a path names holds what the last write to it gave it. *)
Lemma content_last same_file path : forall ws k p data,
  ws !! k = Some (p, data) ->
  same_file p path = true ->
  (forall j q d, (k < j)%nat -> ws !! j = Some (q, d) -> same_file q path = false) ->
  content same_file path ws = Some data.
Proof.
  induction ws as [|[q d] ws IH]; intros k p data Hk Hsame Hlater; [done|].
  cbn [content]. destruct k as [|k].
  - injection Hk as -> ->.
    assert (content same_file path ws = None) as ->; [|by rewrite Hsame].
    assert (forall j q d, ws !! j = Some (q, d) -> same_file q path = false) as Hno
      by (intros j q d Hj; apply (Hlater (S j) q d); [lia|done]).
    clear -Hno. induction ws as [|[q d] ws IH]; [done|]. cbn [content].
    rewrite IH by (intros j q' d' Hj; by apply (Hno (S j) q' d')).
    by rewrite (Hno 0%nat q d).
  - rewrite (IH k p data); [done..|].
    intros j q' d' Hj Hq. apply (Hlater (S j) q' d'); [lia|done].
Qed.

Lemma wirting_files_named files : forall its,
  Forall (fun item => 0 <= item.1 < py_len files) its ->
  exists ws,
    wirting_files files its = (ws, Returned tt) /\
    Forall2 (fun item w =>
               exists name, files !! Z.to_nat item.1 = Some name /\
                            w = (path_join "files_recv" name, item.2)) its ws.
Proof.
  induction its as [|[id data] its IH]; intros Hall.
  - exists []. split; [done|constructor].
  - apply Forall_cons in Hall as [Hid Hall]. cbn [fst] in Hid.
    destruct (IH Hall) as (ws & Hw & Hf).
    cbn [wirting_files]. unfold py_index.
    destruct (Z.leb_spec 0 id) as [_|?]; [|lia].
    destruct (Z.ltb_spec id (py_len files)) as [_|?]; [|lia]. cbn [andb].
    destruct (lookup_lt_is_Some_2 files (Z.to_nat id)) as [name Hname];
      [unfold py_len in Hid; lia|].
    rewrite Hname, Hw. eexists. split; [done|]. constructor; [|done].
    exists name. done.
Qed.

Lemma items_registered n st :
  well_formed n st ->
  Forall2 (fun i item => item.1 = i /\ file_buffers st !! i = Some item.2)
    (py_range n) (items n (file_buffers st)).
Proof.
  intros [Hkeys _]. unfold items.
  assert (Forall (fun i => 0 <= i < n) (py_range n)) as Hr.
  { apply Forall_forall. intros i Hi. by apply py_range_elem in Hi. }
  induction Hr as [|i l Hi _ IH]; [constructor|].
  cbn [omap list_omap].
  destruct (proj2 (Hkeys i) Hi) as [buffer Hb]. rewrite Hb. cbn.
  constructor; [done|exact IH].
Qed.

Lemma py_range_lookup n (j : nat) :
  (j < Z.to_nat n)%nat -> py_range n !! j = Some (Z.of_nat j).
Proof.
  intros Hj. unfold py_range. rewrite list_lookup_fmap, lookup_seq_lt by done. done.
Qed.

Lemma py_range_length n : length (py_range n) = Z.to_nat n.
Proof. unfold py_range. by rewrite length_fmap, length_seq. Qed.

(** The loop stops at the first stream without a name. *)
Lemma wirting_files_unnamed files : forall its id data rest,
  Forall (fun item => 0 <= item.1 < py_len files) its ->
  py_len files <= id ->
  exists ws,
    wirting_files files (its ++ (id, data) :: rest) = (ws, Raised IndexError) /\
    Forall2 (fun item w =>
               exists name, files !! Z.to_nat item.1 = Some name /\
                            w = (path_join "files_recv" name, item.2)) its ws.
Proof.
  induction its as [|[id' data'] its IH]; intros id data rest Hall Hid.
  - exists []. split; [|constructor]. cbn [app wirting_files]. unfold py_index.
    assert (0 <= py_len files) by (unfold py_len; lia).
    destruct (Z.leb_spec 0 id), (Z.ltb_spec id (py_len files)),
      (Z.leb_spec (- py_len files) id), (Z.ltb_spec id 0); cbn [andb]; try lia; done.
  - apply Forall_cons in Hall as [Hid' Hall]. cbn [fst] in Hid'.
    destruct (IH id data rest Hall Hid) as (ws & Hw & Hf).
    cbn [app wirting_files]. unfold py_index.
    destruct (Z.leb_spec 0 id') as [_|?]; [|lia].
    destruct (Z.ltb_spec id' (py_len files)) as [_|?]; [|lia]. cbn [andb].
    destruct (lookup_lt_is_Some_2 files (Z.to_nat id')) as [name Hname];
      [unfold py_len in Hid'; lia|].
    rewrite Hname, Hw. eexists. split; [done|]. constructor; [|done].
    exists name. done.
Qed.

(** The writes for the first [k] items are those of the streams
    [0 .. k - 1]. *)
Lemma writes_of_streams n st files ws (k : nat) :
  well_formed n st ->
  (k <= Z.to_nat n)%nat ->
  Forall2 (fun item w =>
             exists name, files !! Z.to_nat item.1 = Some name /\
                          w = (path_join "files_recv" name, item.2))
    (take k (items n (file_buffers st))) ws ->
  Forall2 (write_of files (file_buffers st)) (seq 0 k) ws.
Proof.
  intros Hwf Hk Hws.
  pose proof (items_registered n st Hwf) as Hit.
  pose proof (Forall2_length _ _ _ Hit) as Hlen1. rewrite py_range_length in Hlen1.
  pose proof (Forall2_length _ _ _ Hws) as Hlen2. rewrite length_take in Hlen2.
  apply Forall2_same_length_lookup_2; [rewrite length_seq; lia|].
  intros j i w Hi Hw. apply lookup_seq in Hi as [-> Hj]. cbn [Nat.add].
  destruct (lookup_lt_is_Some_2 (take k (items n (file_buffers st))) j) as [item Hitem];
    [rewrite length_take; lia|].
  destruct (Forall2_lookup_l _ _ _ _ _ Hws Hitem) as (w' & Hw' & name & Hname & ->).
  rewrite Hw in Hw'. injection Hw' as ->.
  apply lookup_take_Some in Hitem as [Hitem _].
  destruct (Forall2_lookup_r _ _ _ _ _ Hit Hitem) as (i & Hi & Hid & Hbuf).
  rewrite py_range_lookup in Hi by lia. injection Hi as <-.
  rewrite Hid, Nat2Z.id in Hname. exists name, item.2. done.
Qed.

(** What the files hold when every stream has been written and the names
    give different files. *)
Lemma written_content same_file (n : nat) files file_buffers ws :
  (forall p, same_file p p = true) ->
  distinct_files same_file n files ->
  Forall2 (write_of files file_buffers) (seq 0 n) ws ->
  forall i name,
    (i < n)%nat -> files !! i = Some name ->
    content same_file (path_join "files_recv" name) ws = file_buffers !! Z.of_nat i.
Proof.
  intros Hrefl Hdist Hws i name Hi Hname.
  assert (seq 0 n !! i = Some i) as Hseq by (by apply lookup_seq_lt).
  destruct (Forall2_lookup_l _ _ _ _ _ Hws Hseq) as (w & Hw & name' & buffer & Hn & Hb & ->).
  rewrite Hname in Hn. injection Hn as <-. rewrite Hb.
  apply (content_last same_file _ ws i (path_join "files_recv" name) buffer);
    [done|apply Hrefl|].
  intros j q d Hj Hq.
  destruct (Forall2_lookup_r _ _ _ _ _ Hws Hq) as (j' & Hj' & name2 & buffer2 & Hn2 & _ & [= -> ->]).
  apply lookup_seq in Hj' as [-> Hjn]. cbn [Nat.add] in *.
  apply (Hdist j i name2 name); [lia..|done|done].
Qed.

End WritingFacts.

Import Client Receiver.

(** X7.  [wirting_files] on the buffers of [n] registered streams, with a
    name for every stream, the names of the streams giving paths to [n]
    different files: the call returns after [n] writes, the write for
    stream [i] being the buffer of the stream under the path made of
    [files[i]], in the order of the streams; and then the file of every
    stream holds the buffer of that stream.  Which paths name the same
    file is the file system's to say ([same_file], any relation that
    holds of a path and itself). *)
Theorem wirting_files_stores (same_file : string -> string -> bool)
    (n : Z) (st : streams) (files : list string) :
  (forall p, same_file p p = true) ->
  well_formed n st ->
  n <= py_len files ->
  distinct_files same_file (Z.to_nat n) files ->
  exists ws,
    wirting_files files (items n (file_buffers st)) = (ws, Returned tt) /\
    Forall2 (write_of files (file_buffers st)) (seq 0 (Z.to_nat n)) ws /\
    forall i name,
      0 <= i < n -> files !! Z.to_nat i = Some name ->
      content same_file (path_join "files_recv" name) ws = file_buffers st !! i.
Proof.
  intros Hrefl Hwf Hlen Hdist.
  pose proof (items_registered n st Hwf) as Hit.
  pose proof (Forall2_length _ _ _ Hit) as Hlen1. rewrite py_range_length in Hlen1.
  destruct (wirting_files_named files (items n (file_buffers st))) as (ws & Hw & Hf).
  { apply Forall_lookup. intros j item Hitem.
    destruct (Forall2_lookup_r _ _ _ _ _ Hit Hitem) as (i & Hi & -> & _).
    apply list_elem_of_lookup_2, py_range_elem in Hi. lia. }
  assert (Forall2 (write_of files (file_buffers st)) (seq 0 (Z.to_nat n)) ws) as Hws.
  { apply (writes_of_streams n st files ws (Z.to_nat n) Hwf); [lia|].
    rewrite take_ge by lia. done. }
  exists ws. split; [done|]. split; [done|].
  intros i name Hi Hname.
  rewrite (written_content same_file (Z.to_nat n) files (file_buffers st) ws Hrefl Hdist Hws
             (Z.to_nat i) name) by (done || lia).
  by rewrite Z2Nat.id by lia.
Qed.

Lemma wirting_files_stores_witness :
  exists ws,
    wirting_files ["a.bin"; "b.bin"]%string (items 2 (file_buffers (initial_streams 2)))
    = (ws, Returned tt) /\
    Forall2 (write_of ["a.bin"; "b.bin"]%string (file_buffers (initial_streams 2)))
      (seq 0 (Z.to_nat 2)) ws /\
    forall i name,
      0 <= i < 2 -> ["a.bin"; "b.bin"]%string !! Z.to_nat i = Some name ->
      content String.eqb (path_join "files_recv" name) ws
      = file_buffers (initial_streams 2) !! i.
Proof.
  apply (wirting_files_stores String.eqb 2 (initial_streams 2) ["a.bin"; "b.bin"]%string).
  - apply String.eqb_refl.
  - exact (reachable_well_formed 2 [] _ (reach_initial 2)).
  - vm_compute. discriminate.
  - intros [|[|i]] [|[|j]] a b Hi Hj Hij; try lia; try done;
      intros [= <-] [= <-]; reflexivity.
Defined.

(** X8.  [wirting_files] with fewer names than registered streams: the
    writes made are those of the streams [0 .. len(files) - 1], each the
    buffer of its stream under the path made of its name, in this order;
    then [files[id_stream]] raises [IndexError], and nothing is written
    for the remaining streams. *)
Theorem wirting_files_missing_names (n : Z) (st : streams) (files : list string) :
  well_formed n st ->
  py_len files < n ->
  exists ws,
    wirting_files files (items n (file_buffers st)) = (ws, Raised IndexError) /\
    Forall2 (write_of files (file_buffers st)) (seq 0 (length files)) ws.
Proof.
  intros Hwf Hlen.
  pose proof (items_registered n st Hwf) as Hit.
  pose proof (Forall2_length _ _ _ Hit) as Hlen1. rewrite py_range_length in Hlen1.
  unfold py_len in Hlen.
  destruct (lookup_lt_is_Some_2 (items n (file_buffers st)) (length files))
    as [[id data] Hitem]; [lia|].
  destruct (Forall2_lookup_r _ _ _ _ _ Hit Hitem) as (i & Hi & Hid & _).
  rewrite py_range_lookup in Hi by lia. injection Hi as <-. cbn [fst] in Hid.
  rewrite <- (take_drop_middle _ _ _ Hitem).
  destruct (wirting_files_unnamed files (take (length files) (items n (file_buffers st)))
              id data (drop (S (length files)) (items n (file_buffers st))))
    as (ws & Hw & Hf).
  { apply Forall_lookup. intros j item Hj.
    apply lookup_take_Some in Hj as [Hj Hlt].
    destruct (Forall2_lookup_r _ _ _ _ _ Hit Hj) as (i & Hi & -> & _).
    rewrite py_range_lookup in Hi by lia. injection Hi as <-. unfold py_len. lia. }
  { unfold py_len. lia. }
  exists ws. split; [done|].
  apply (writes_of_streams n st files ws (length files) Hwf); [lia|done].
Qed.

Lemma wirting_files_missing_names_witness :
  exists ws,
    wirting_files ["a.bin"]%string (items 2 (file_buffers (initial_streams 2)))
    = (ws, Raised IndexError) /\
    Forall2 (write_of ["a.bin"]%string (file_buffers (initial_streams 2)))
      (seq 0 (length ["a.bin"]%string)) ws.
Proof.
  apply (wirting_files_missing_names 2 (initial_streams 2) ["a.bin"]%string).
  - exact (reachable_well_formed 2 [] _ (reach_initial 2)).
  - vm_compute. reflexivity.
Defined.

(** ** What a run of a worker does to the streams *)

Section WorkerRuns.

Import Client Receiver.

Lemma recv_at_most n s data s' :
  recv n s = RecvData data s' -> py_len data <= Z.max n 0.
Proof.
  unfold recv, py_len.
  destruct (Z.ltb_spec n 0) as [?|?]; [done|].
  destruct (Z.eqb_spec n 0) as [?|?]; [intros [= <- _]; cbn; lia|].
  destruct (take_available (Z.to_nat n) (arrivals s)) as [[d rest]|] eqn:Ht.
  - intros [= <- _]. revert Ht. generalize (arrivals s). intros arr.
    induction arr as [|piece arr IH]; [done|]. cbn [take_available].
    destruct piece as [|b piece]; [exact IH|].
    intros [= <- _]. rewrite length_take. lia.
  - destruct (peer_closed s); [|done]. intros [= <- _]. cbn. lia.
Qed.

Lemma read_frame_at_most s id_stream data_length id_package package s' :
  read_frame s = ReadFrame id_stream data_length id_package package s' ->
  py_len package <= data_length.
Proof.
  unfold read_frame.
  destruct (recv 12 s) as [header s1| |e]; try done.
  destruct header as [|b header]; [done|].
  destruct (unpack_iii (b :: header)) as [[[i d] p]|]; [|done].
  destruct (Z.eqb_spec d 0) as [?|Hd]; [done|].
  destruct (recv d s1) as [pkg s2| |e] eqn:Hr; try done.
  intros [= <- <- <- <- <-].
  destruct (decide (0 <= d)) as [?|Hneg].
  - apply recv_at_most in Hr. lia.
  - exfalso. unfold recv in Hr. destruct (Z.ltb_spec d 0); [done|lia].
Qed.

(** A run of a worker leads from a state that commits have led to to
    another such state. *)
Lemma recv_file_reachable n rounds : forall s st lg tr,
  reachable n tr st ->
  exists tr', reachable n (tr ++ tr') (state (recv_file rounds s st lg)).
Proof.
  induction rounds as [|rounds IH]; intros s st lg tr Hreach; cbn [recv_file].
  - exists []. by rewrite app_nil_r.
  - destruct (read_frame s) as [id_stream data_length id_package package s'|why s'|];
      [|exists []; by rewrite app_nil_r..].
    destruct (commit_package st id_stream id_package package) as [st'| | |e] eqn:Hc;
      [|by apply IH|exists []; by rewrite app_nil_r..].
    destruct (IH s' st' (lg ++ [LogWriting id_stream data_length id_package])
                (tr ++ [Commit id_stream id_package package]))
      as (tr' & Hr); [by econstructor|].
    exists (Commit id_stream id_package package :: tr'). by rewrite <- app_assoc in Hr.
Qed.

End WorkerRuns.

Import Client Receiver.

(** X9.  A run of [recv_file], on whatever bytes arrive and for whatever
    number of rounds, from a state that commits have led to: the state in
    which the run ends comes from the state in which it began by commits,
    so that what holds of such states holds when a worker has run.  The
    log tells these commits: the run prints one "Writing package" line for
    each commit, in order, with the stream and the sequence number of the
    commit and a size that the payload does not exceed; after them at
    most one "Exception" line, printed when the worker leaves the loop on
    an exception. *)
Theorem recv_file_commits_only (n : Z) (rounds : nat) (s : sock) (st : streams)
    (lg : list log_entry) (tr : list commit_event) :
  reachable n tr st ->
  let r := recv_file rounds s st lg in
  exists tr' written tail,
    reachable n (tr ++ tr') (state r) /\
    log r = lg ++ written ++ tail /\
    Forall2 (fun e l => exists size,
               l = LogWriting (event_stream e) size (event_sequence e) /\
               py_len (event_payload e) <= size) tr' written /\
    (tail = [] \/ exists e, tail = [LogException e] /\ how r = Exited (Caught e)).
Proof.
  intros Hreach r. subst r. revert s st lg tr Hreach.
  induction rounds as [|rounds IH]; intros s st lg tr Hreach; cbn [recv_file].
  - exists [], [], []. rewrite !app_nil_r. cbn. repeat split; [done|constructor|by left].
  - destruct (read_frame s) as [id_stream data_length id_package package s'|why s'|] eqn:Hread.
    + destruct (commit_package st id_stream id_package package) as [st'| | |e] eqn:Hc.
      * destruct (IH s' st' (lg ++ [LogWriting id_stream data_length id_package])
                    (tr ++ [Commit id_stream id_package package]))
          as (tr' & written & tail & Hr & Hl & Hw & Ht); [by econstructor|].
        exists (Commit id_stream id_package package :: tr'),
          (LogWriting id_stream data_length id_package :: written), tail.
        rewrite <- !app_assoc in Hr, Hl. split; [done|]. split; [done|].
        split; [|done]. constructor; [|done].
        exists data_length. split; [done|]. by eapply read_frame_at_most.
      * by apply IH.
      * exists [], [], []. rewrite !app_nil_r. cbn.
        repeat split; [done|constructor|by left].
      * exists [], [], []. rewrite !app_nil_r. cbn.
        repeat split; [done|constructor|by left].
    + exists [], [], (log_exit why). rewrite app_nil_r. cbn.
      repeat split; [done|constructor|].
      destruct why; [by left..|right; by eexists].
    + exists [], [], []. rewrite !app_nil_r. cbn. repeat split; [done|constructor|by left].
Qed.

Lemma recv_file_commits_only_witness :
  let r := recv_file 3 Scenario.payload_in_two_pieces (initial_streams 1) [] in
  exists tr' written tail,
    reachable 1 ([] ++ tr') (state r) /\
    log r = [] ++ written ++ tail /\
    Forall2 (fun e l => exists size,
               l = LogWriting (event_stream e) size (event_sequence e) /\
               py_len (event_payload e) <= size) tr' written /\
    (tail = [] \/ exists e, tail = [LogException e] /\ how r = Exited (Caught e)).
Proof.
  apply (recv_file_commits_only 1 3 Scenario.payload_in_two_pieces (initial_streams 1) [] []).
  constructor.
Defined.

(** ** Several streams on one connection *)

Section PoolFacts.

Import Client Receiver.

(** A worker that has ended within its rounds ends the same way with more
    rounds. *)
Lemma recv_file_more_rounds rounds : forall more s st lg,
  how (recv_file rounds s st lg) <> Running ->
  recv_file (rounds + more) s st lg = recv_file rounds s st lg.
Proof.
  induction rounds as [|rounds IH]; intros more s st lg Hhow; [exfalso; by apply Hhow|].
  cbn [Nat.add recv_file] in *.
  destruct (read_frame s) as [id_stream data_length id_package package s'|why s'|]; try done.
  destruct (commit_package st id_stream id_package package); try done; by apply IH.
Qed.

Lemma pool_end_cons s st lg r rs :
  pool_end s st lg (r :: rs) = pool_end (conn r) (state r) (log r) rs.
Proof.
  unfold pool_end. destruct rs as [|r' rs]; [reflexivity|].
  change (last (r :: r' :: rs)) with (last (r' :: rs)).
  destruct (last (r' :: rs)) eqn:E; [done|]. by apply last_None in E.
Qed.

Lemma pool_more_rounds fuels : forall fuels' s st lg,
  Forall2 le fuels fuels' ->
  Forall (fun r => how r <> Running) (pool fuels s st lg) ->
  pool fuels' s st lg = pool fuels s st lg.
Proof.
  induction fuels as [|f fuels IH]; intros fuels' s st lg Hle Hruns.
  - apply Forall2_nil_inv_l in Hle. by subst.
  - apply Forall2_cons_inv_l in Hle as (f' & fs' & Hf & Hle & ->).
    cbn [pool] in *. apply Forall_cons in Hruns as [Hr Hruns].
    replace f' with (f + (f' - f))%nat by lia.
    rewrite recv_file_more_rounds by done.
    f_equal. by apply IH.
Qed.

(** One round on a data frame of the stream whose counter shows the
    frame's sequence number. *)
Lemma recv_file_data_frame package_size source id_stream (i : nat) block rest closed
    rounds st buffer lg k :
  1 <= package_size ->
  Spec.carries_chunk package_size source id_stream i block ->
  (i * Z.to_nat package_size < length source)%nat ->
  file_buffers st !! id_stream = Some buffer ->
  py_index (py_len (curret_package st)) id_stream = Some k ->
  curret_package st !! k = Some (Z.of_nat i) ->
  recv_file (S rounds) {| arrivals := block ++ rest; peer_closed := closed |} st lg
  = recv_file rounds {| arrivals := rest; peer_closed := closed |}
      {| file_buffers :=
           <[id_stream := buffer ++ Spec.chunk (Z.to_nat package_size) source i]>
             (file_buffers st);
         curret_package := <[k := Z.of_nat i + 1]> (curret_package st) |}
      (lg ++ [LogWriting id_stream
                (py_len (Spec.chunk (Z.to_nat package_size) source i)) (Z.of_nat i)]).
Proof.
  intros Hps (header & -> & Hh) Hne Hbuf Hk Hcur.
  set (c := Spec.chunk (Z.to_nat package_size) source i) in *.
  assert (1 <= py_len c) as Hpos.
  { unfold py_len, c. rewrite chunk_length. lia. }
  cbn [app recv_file].
  rewrite (read_data_frame _ _ _ _ id_stream (py_len c) (Z.of_nat i));
    [|by apply unpack_pack_iii|done|done].
  unfold commit_package. by rewrite Hbuf, Hk, Hcur, Z.eqb_refl.
Qed.

(** One round on a terminal frame. *)
Lemma recv_file_terminal_frame id_stream marker rest closed rounds st lg :
  pack_iii id_stream 0 0 = Some marker ->
  recv_file (S rounds) {| arrivals := marker :: rest; peer_closed := closed |} st lg
  = {| how := Exited ZeroLength;
       conn := {| arrivals := rest; peer_closed := closed |};
       state := st; log := lg |}.
Proof.
  intros Hm. cbn [recv_file].
  rewrite (read_zero_length _ _ _ id_stream 0) by (by apply unpack_pack_iii).
  cbn [log_exit]. by rewrite app_nil_r.
Qed.

End PoolFacts.

Section SessionFacts.

Import Client Receiver Session.

Lemma live_insert {A} (ls : list (list A)) t a b :
  ls !! t = Some a ->
  (live (<[t := b]> ls) + holds a = live ls + holds b)%nat.
Proof.
  unfold live. revert t. induction ls as [|l ls IH]; intros [|t] Ht; try done.
  - injection Ht as ->. cbn [insert list_insert sum_list_with]. lia.
  - specialize (IH t Ht). cbn [insert list_insert sum_list_with]. unfold insert in *. lia.
Qed.

Lemma live_lookup {A} (ls : list (list A)) t x rest :
  ls !! t = Some (x :: rest) -> (1 <= live ls)%nat.
Proof.
  unfold live. revert t. induction ls as [|l ls IH]; intros [|t] Ht; try done.
  - injection Ht as ->. cbn [sum_list_with holds]. lia.
  - cbn [sum_list_with]. specialize (IH t Ht). lia.
Qed.

Context (transfers : list Guard.transfer) (closed : bool).
Hypothesis transfers_fit : Forall fits transfers.
Hypothesis transfers_enumerated : enumerated transfers.

(** The workers, one after the other, on frames in which the frames of
    each stream keep their order: one worker for every terminal frame. *)
Lemma pool_reassembles rests w final :
  interleaves rests w final ->
  live final = 0%nat ->
  forall st lg,
    streams_at transfers st rests ->
    exists fuels,
      (length fuels + live final = live rests)%nat /\
      Forall (fun r => how r = Exited ZeroLength)
        (pool fuels (delivered closed w) st lg) /\
      exists s' st' lg',
        pool_end (delivered closed w) st lg (pool fuels (delivered closed w) st lg)
        = (s', st', lg') /\
        arrivals s' = [] /\ streams_at transfers st' final.
Proof.
  induction 1 as [rests|rests t x rest w final Ht _ IH]; intros Hfinal st lg Hat;
    [|specialize (IH Hfinal)].
  - exists []. split; [done|]. split; [constructor|]. by eexists _, _, _.
  - destruct Hat as (Hlen & Hcp & Hat).
    assert (t < length transfers)%nat as Hlt
      by (rewrite <- Hlen; by apply lookup_lt_Some in Ht).
    destruct (lookup_lt_is_Some_2 transfers t Hlt) as [[[ps src] id] Htr].
    pose proof (transfers_enumerated t _ Htr) as Hid. cbn [snd] in Hid. subst id.
    pose proof (proj1 (Forall_lookup _ _) transfers_fit t _ Htr) as (Hps & _).
    pose proof (Hat t _ _ Htr Ht) as [[? _]|Hs]; [done|].
    destruct Hs as (i & blocks & marker & Hi & Hx & Hb & Hm & Hbuf & Hcur).
    rewrite Nat2Z.id in Hcur.
    set (n := Z.to_nat (Spec.ceil_div (py_len src) ps)) in *.
    assert (exists cs : nat, ps = Z.of_nat cs) as [cs ->]
      by (exists (Z.to_nat ps); lia).
    assert (1 <= cs)%nat as Hcs by lia. rewrite Nat2Z.id in *.
    pose proof (rounds_cover_source cs src Hcs) as [Hcover Hinside]. fold n in Hcover, Hinside.
    pose proof (live_insert rests t (x :: rest) rest Ht) as Hlive.
    destruct blocks as [|b blocks].
    + (* the terminal frame of stream [t] *)
      injection Hx as -> ->. cbn [holds] in Hlive.
      apply Forall2_nil_inv_r in Hb. apply (f_equal length) in Hb. rewrite length_seq in Hb.
      cbn [length] in Hb.
      destruct (IH st lg) as (fuels & Hf & Hruns & s' & st' & lg' & Hend & Hs' & Hat').
      { split; [by rewrite length_insert|]. split; [done|].
        intros t' tr' rest' Htr' Hrest'.
        destruct (decide (t' = t)) as [->|Hne].
        - rewrite list_lookup_insert_eq in Hrest' by (by apply lookup_lt_Some in Ht).
          injection Hrest' as <-. rewrite Htr in Htr'. injection Htr' as <-.
          left. split; [done|]. rewrite Hbuf. f_equal. apply take_ge. nia.
        - rewrite list_lookup_insert_ne in Hrest' by done. by eapply Hat. }
      exists (1%nat :: fuels). split; [cbn [length]; lia|].
      unfold delivered in *. cbn [concat app pool].
      rewrite (recv_file_terminal_frame _ _ _ _ _ _ _ Hm). cbn [conn state log].
      split; [by constructor|]. rewrite pool_end_cons. cbn [conn state log].
      by exists s', st', lg'.
    + (* a data frame of stream [t] *)
      injection Hx as -> ->.
      assert (holds (blocks ++ [[marker]]) = 1%nat) as Hholds by (by destruct blocks).
      rewrite Hholds in Hlive. cbn [holds] in Hlive.
      destruct (n - i)%nat as [|m] eqn:Hm'; [by apply Forall2_nil_inv_l in Hb|].
      cbn [seq] in Hb. apply Forall2_cons in Hb as [Hblock Hb].
      assert (i < n)%nat as Hin by lia.
      pose proof (Hinside i Hin) as Hne.
      set (st1 := {| file_buffers :=
                       <[Z.of_nat t := take (i * cs) src ++ Spec.chunk cs src i]>
                         (file_buffers st);
                     curret_package := <[t := Z.of_nat i + 1]> (curret_package st) |}).
      destruct (IH st1 (lg ++ [LogWriting (Z.of_nat t) (py_len (Spec.chunk cs src i))
                                 (Z.of_nat i)]))
        as (fuels & Hf & Hruns & s' & st' & lg' & Hend & Hs' & Hat').
      { split; [by rewrite length_insert|].
        split; [unfold st1; cbn [curret_package]; by rewrite length_insert|].
        intros t' tr' rest' Htr' Hrest'.
        destruct (decide (t' = t)) as [->|Hne'].
        - rewrite list_lookup_insert_eq in Hrest' by (by apply lookup_lt_Some in Ht).
          injection Hrest' as <-. rewrite Htr in Htr'. injection Htr' as <-.
          right. exists (S i), blocks, marker. rewrite Nat2Z.id. fold n.
          split; [lia|]. split; [done|].
          split; [by replace (n - S i)%nat with m by lia|]. split; [done|].
          unfold st1; cbn [file_buffers curret_package]. rewrite lookup_insert_eq.
          rewrite Nat2Z.id, list_lookup_insert_eq by (by apply lookup_lt_Some in Hcur).
          split; [|f_equal; lia]. f_equal. unfold Spec.chunk.
          replace (S i * cs)%nat with (i * cs + cs)%nat by lia.
          by rewrite take_take_drop.
        - rewrite list_lookup_insert_ne in Hrest' by done.
          pose proof (Hat t' _ _ Htr' Hrest') as Hold.
          destruct tr' as [[ps' src'] id'].
          pose proof (transfers_enumerated t' _ Htr') as Hid'. cbn [snd] in Hid'. subst id'.
          unfold stream_at in *. unfold st1; cbn [file_buffers curret_package].
          rewrite lookup_insert_ne by lia. rewrite Nat2Z.id in *.
          rewrite list_lookup_insert_ne by done. exact Hold. }
      destruct fuels as [|f fuels].
      { exfalso. cbn [length] in Hf.
        assert (1 <= live (<[t := blocks ++ [[marker]]]> rests))%nat; [|lia].
        destruct (blocks ++ [[marker]]) as [|y ys] eqn:Hy; [done|].
        apply (live_lookup _ t y ys).
        apply list_lookup_insert_eq. by apply lookup_lt_Some in Ht. }
      exists (S f :: fuels). split; [cbn [length] in *; lia|].
      unfold delivered in *. cbn [concat pool] in *.
      rewrite (recv_file_data_frame (Z.of_nat cs) src (Z.of_nat t) i b (concat w) closed f st
                 (take (i * cs) src) lg t); try done.
      * rewrite Nat2Z.id. fold st1. split; [done|].
        rewrite pool_end_cons in Hend |- *. by exists s', st', lg'.
      * by rewrite Nat2Z.id.
      * unfold py_len. rewrite Hcp. rewrite <- (Nat2Z.id t) at 2.
        apply py_index_in_range. lia.
Qed.

Lemma live_replicate {A} n : live (replicate n (@nil A)) = 0%nat.
Proof. unfold live. induction n as [|n IH]; [done|]. cbn. exact IH. Qed.

Lemma live_none {A} (ls : list (list A)) t rest :
  live ls = 0%nat -> ls !! t = Some rest -> rest = [].
Proof.
  intros Hl Ht. destruct rest as [|x rest]; [done|].
  apply live_lookup in Ht. lia.
Qed.

Lemma program_fits tr :
  fits tr ->
  let '(package_size, file_data, id_stream) := tr in
  exists blocks marker,
    Guard.program tr = blocks ++ [[marker]] /\
    Forall2 (Spec.carries_chunk package_size file_data id_stream)
      (seq 0 (Z.to_nat (Spec.ceil_div (py_len file_data) package_size))) blocks /\
    pack_iii id_stream 0 0 = Some marker.
Proof.
  destruct tr as [[ps src] id]. intros (Hps & Hid & Hlen & Hseq).
  destruct (send_file_fit _ _ _ Hps Hid Hlen Hseq) as (blocks & marker & Hs & Hb & Hm).
  exists blocks, marker. unfold Guard.program. cbn [fst snd]. by rewrite Hs.
Qed.

Lemma live_programs trs :
  Forall fits trs -> live (Guard.program <$> trs) = length trs.
Proof.
  unfold live. induction 1 as [|tr trs Hfit _ IH]; [done|].
  cbn [fmap list_fmap sum_list_with length]. rewrite IH.
  pose proof (program_fits tr Hfit) as Hp. destruct tr as [[ps src] id].
  destruct Hp as (blocks & marker & -> & _). by destruct blocks.
Qed.

Lemma streams_at_start :
  streams_at transfers (initial_streams (Z.of_nat (length transfers)))
    (Guard.program <$> transfers).
Proof.
  split; [by rewrite length_fmap|].
  split; [unfold initial_streams; cbn; by rewrite length_replicate, Nat2Z.id|].
  intros t tr rest Htr Hrest.
  rewrite list_lookup_fmap, Htr in Hrest. injection Hrest as <-.
  pose proof (proj1 (Forall_lookup _ _) transfers_fit t _ Htr) as Hfit.
  pose proof (program_fits tr Hfit) as Hp.
  pose proof (transfers_enumerated t _ Htr) as Hid.
  destruct tr as [[ps src] id]. cbn [snd] in Hid. subst id.
  destruct Hp as (blocks & marker & Hprog & Hb & Hm).
  apply lookup_lt_Some in Htr.
  right. exists 0%nat, blocks, marker. rewrite Nat.sub_0_r.
  split; [lia|]. split; [done|]. split; [done|]. split; [done|].
  rewrite initial_buffer, decide_True by lia.
  rewrite initial_counter by lia. done.
Qed.

Lemma replicate_rounds fuels rounds :
  (max_list fuels <= rounds)%nat -> Forall2 le fuels (replicate (length fuels) rounds).
Proof.
  induction fuels as [|f fuels IH]; cbn; intros Hm; constructor; [lia|].
  apply IH. lia.
Qed.

Lemma session_reassembles w :
  interleaves (Guard.program <$> transfers) w (replicate (length transfers) []) ->
  exists enough, forall rounds, (enough <= rounds)%nat ->
    let runs := pool (replicate (length transfers) rounds) (delivered closed w)
                  (initial_streams (Z.of_nat (length transfers))) [] in
    Forall (fun r => how r = Exited ZeroLength) runs /\
    exists s st lg,
      pool_end (delivered closed w) (initial_streams (Z.of_nat (length transfers))) [] runs
      = (s, st, lg) /\
      arrivals s = [] /\
      forall package_size file_data id_stream,
        (package_size, file_data, id_stream) ∈ transfers ->
        file_buffers st !! id_stream = Some file_data.
Proof.
  intros Hw.
  destruct (pool_reassembles _ _ _ Hw (live_replicate _)
              (initial_streams (Z.of_nat (length transfers))) [] streams_at_start)
    as (fuels & Hf & Hruns & s & st & lg & Hend & Hs & Hat).
  rewrite live_replicate, live_programs, Nat.add_0_r in Hf by done.
  exists (max_list fuels). intros rounds Hr runs. subst runs.
  replace (replicate (length transfers) rounds) with (replicate (length fuels) rounds)
    by (by rewrite Hf).
  rewrite (pool_more_rounds fuels (replicate (length fuels) rounds)).
  - split; [done|]. exists s, st, lg. split; [done|]. split; [done|].
    intros ps src id Hin. apply list_elem_of_lookup in Hin as [t Htr].
    destruct Hat as (Hlen & _ & Hat).
    destruct (lookup_lt_is_Some_2 (replicate (length transfers) (@nil (list bytes))) t)
      as [rest Hrest]; [rewrite Hlen; by apply lookup_lt_Some in Htr|].
    pose proof (live_none _ _ _ (live_replicate _) Hrest) as ->.
    destruct (Hat t _ _ Htr Hrest) as [[_ Hbuf]|(i & blocks & marker & _ & Hx & _)];
      [done|by destruct blocks].
  - by apply replicate_rounds.
  - eapply Forall_impl; [exact Hruns|]. intros r ->. done.
Qed.

End SessionFacts.

Import Client Receiver Session.

(** X10.  Several files on one connection.  The transfers carry the stream
    ids 0, 1, 2, ... of their positions, every package size is >= 1 and
    every header can be packed, and the frames reach the receiver in any order in which the frames of each
    stream keep their order, every buffer written arriving in one piece.
    Then as many workers as there are files, run one after the other with
    enough rounds each, all leave their loop on a terminal frame, nothing
    is left unread, and the buffer of every stream holds the file sent on
    it. *)
Theorem interleaved_round_trip (transfers : list Guard.transfer)
    (w : list (list bytes)) (closed : bool) :
  Forall fits transfers ->
  enumerated transfers ->
  interleaves (Guard.program <$> transfers) w (replicate (length transfers) []) ->
  exists enough, forall rounds, (enough <= rounds)%nat ->
    let runs := pool (replicate (length transfers) rounds) (delivered closed w)
                  (initial_streams (Z.of_nat (length transfers))) [] in
    Forall (fun r => how r = Exited ZeroLength) runs /\
    exists s st lg,
      pool_end (delivered closed w) (initial_streams (Z.of_nat (length transfers))) [] runs
      = (s, st, lg) /\
      arrivals s = [] /\
      forall package_size file_data id_stream,
        (package_size, file_data, id_stream) ∈ transfers ->
        file_buffers st !! id_stream = Some file_data.
Proof. intros Hfit Henum Hw. by apply session_reassembles. Qed.

Lemma interleaved_round_trip_witness :
  exists enough, forall rounds, (enough <= rounds)%nat ->
    let runs := pool (replicate (length Scenario.two_transfers) rounds)
                  (delivered false crossed_frames)
                  (initial_streams (Z.of_nat (length Scenario.two_transfers))) [] in
    Forall (fun r => how r = Exited ZeroLength) runs /\
    exists s st lg,
      pool_end (delivered false crossed_frames)
        (initial_streams (Z.of_nat (length Scenario.two_transfers))) [] runs
      = (s, st, lg) /\
      arrivals s = [] /\
      forall package_size file_data id_stream,
        (package_size, file_data, id_stream) ∈ Scenario.two_transfers ->
        file_buffers st !! id_stream = Some file_data.
Proof.
  apply (interleaved_round_trip Scenario.two_transfers crossed_frames false).
  - repeat constructor; vm_compute; congruence.
  - intros [|[|t]] tr; [intros [= <-]; reflexivity..|done].
  - eapply (interleaves_cons _ 0); [reflexivity|].
    eapply (interleaves_cons _ 1); [reflexivity|].
    eapply (interleaves_cons _ 1); [reflexivity|].
    eapply (interleaves_cons _ 0); [reflexivity|].
    eapply (interleaves_cons _ 0); [reflexivity|].
    apply interleaves_nil.
Defined.

(** ** The sender threads together *)

Section SenderThreads.

Import Guard Session.

Lemma interleaves_snoc {A} (ls : list (list A)) w ls' t x rest :
  interleaves ls w ls' ->
  ls' !! t = Some (x :: rest) ->
  interleaves ls (w ++ [x]) (<[t := rest]> ls').
Proof.
  induction 1 as [ls|ls t' y rest' w ls' Ht' _ IH]; intros Ht.
  - cbn [app]. eapply interleaves_cons; [done|constructor].
  - cbn [app]. eapply interleaves_cons; [done|]. by apply IH.
Qed.

Lemma send_all_Send todo rest data k :
  send_all todo rest = Send data k ->
  exists todo', todo = data :: todo' /\ k = send_all todo' rest.
Proof. destruct todo as [|d todo]; [done|]. intros [= <- <-]. by eexists. Qed.

Lemma send_all_Leave todo (rest l : list (list bytes)) :
  send_all todo rest = Leave l -> todo = [] /\ l = rest.
Proof. destruct todo as [|d todo]; [|done]. by intros [= <-]. Qed.

Ltac other_thread H t t' :=
  destruct (decide (t = t')) as [->|?];
  [ rewrite list_lookup_insert_eq in H by (by eapply lookup_lt_Some)
  | rewrite list_lookup_insert_ne in H by done ].

Context (programs : list (list (list bytes))) (c : connection).

Lemma step_senders_at m m' :
  step sender_section m m' ->
  senders_at programs c m -> senders_at programs c m'.
Proof.
  intros Hstep (w & rests & Hw & Hlen & Hout & Hin & Hlink).
  destruct Hstep as [m t l sc Hfree Ht Hsec|m t data k Ht|m t n k data s' Ht Hr
                    |m t n k e Ht Hr|m t l Ht]; unfold senders_at; cbn [lock threads link].
  - rewrite Hfree in Hlink.
    destruct l as [|block rest]; [discriminate Hsec|]. injection Hsec as <-.
    exists w, rests. split; [done|]. split; [by rewrite length_insert|]. split; [|split].
    + intros t' l' H. other_thread H t t'; [done|]. by apply Hout.
    + intros t' sc' H. other_thread H t t'; [done|]. apply Hin in H. congruence.
    + exists [], block, rest. split; [by apply Hout|]. split.
      * apply list_lookup_insert_eq. by eapply lookup_lt_Some.
      * by rewrite app_nil_r.
  - pose proof (Hin _ _ Ht) as Hheld. rewrite Hheld in Hlink |- *.
    destruct Hlink as (sent & todo & rest & Hrest & Ht' & Hs).
    rewrite Ht in Ht'. injection Ht' as Hk. symmetry in Hk.
    apply send_all_Send in Hk as (todo' & -> & ->).
    exists w, rests. split; [done|]. split; [by rewrite length_insert|]. split; [|split].
    + intros t' l' H. other_thread H t t'; [done|]. by apply Hout.
    + intros t' sc' H. other_thread H t t'; [done|]. apply Hin in H. congruence.
    + exists (sent ++ [data]), todo', rest. rewrite <- app_assoc. split; [done|]. split.
      * apply list_lookup_insert_eq. by eapply lookup_lt_Some.
      * cbn [write sent_out]. rewrite Hs, <- !app_assoc. done.
  - pose proof (Hin _ _ Ht) as Hheld. rewrite Hheld in Hlink.
    destruct Hlink as (sent & todo & rest & _ & Ht' & _).
    rewrite Ht in Ht'. injection Ht' as Hk. by destruct todo.
  - pose proof (Hin _ _ Ht) as Hheld. rewrite Hheld in Hlink.
    destruct Hlink as (sent & todo & rest & _ & Ht' & _).
    rewrite Ht in Ht'. injection Ht' as Hk. by destruct todo.
  - pose proof (Hin _ _ Ht) as Hheld. rewrite Hheld in Hlink.
    destruct Hlink as (sent & todo & rest & Hrest & Ht' & Hs).
    rewrite Ht in Ht'. injection Ht' as Hk. symmetry in Hk.
    apply send_all_Leave in Hk as (-> & ->). rewrite app_nil_r in Hrest.
    exists (w ++ [sent]), (<[t := rest]> rests).
    split; [by apply interleaves_snoc|]. split; [by rewrite !length_insert|].
    split; [|split].
    + intros t' l' H. other_thread H t t'.
      * injection H as <-. apply list_lookup_insert_eq. by eapply lookup_lt_Some.
      * rewrite list_lookup_insert_ne by done. by apply Hout.
    + intros t' sc' H. other_thread H t t'; [done|]. apply Hin in H. congruence.
    + rewrite Hs, concat_app. cbn [concat]. by rewrite app_nil_r.
Qed.

Lemma reachable_senders_at ls m :
  programs = ls ->
  rtc (step sender_section) (start ls c) m -> senders_at programs c m.
Proof.
  intros <-. revert m. apply (rtc_ind_r (fun m => senders_at programs c m)).
  - exists [], programs. cbn [start lock threads link].
    split; [constructor|]. split; [by rewrite length_fmap|]. split; [|split].
    + intros t l H. by apply list_lookup_fmap_Some in H as (l' & [= ->] & Hl).
    + intros t sc H. by apply list_lookup_fmap_Some in H as (l' & [=] & _).
    + by rewrite app_nil_r.
  - intros m1 m2 _ Hstep IH. by eapply step_senders_at.
Qed.

Lemma interleaves_length {A} (ls : list (list A)) w ls' :
  interleaves ls w ls' -> length ls' = length ls.
Proof.
  induction 1 as [|ls t x rest w ls' _ _ IH]; [done|]. by rewrite IH, length_insert.
Qed.

Lemma finished_wire m :
  senders_at programs c m -> finished m ->
  exists w,
    sent_out (link m) = sent_out c ++ concat w /\
    interleaves programs w (replicate (length programs) []).
Proof.
  intros (w & rests & Hw & Hlen & Hout & Hin & Hlink) Hfin.
  rewrite <- (interleaves_length _ _ _ Hw), <- Hlen.
  assert (rests = replicate (length (threads m)) []) as <-.
  { apply list_eq. intros t. destruct (decide (t < length (threads m))%nat) as [Ht|Ht].
    - destruct (lookup_lt_is_Some_2 _ _ Ht) as [th Hth].
      pose proof (Hfin _ _ Hth) as ->. rewrite (Hout _ _ Hth).
      symmetry. by apply lookup_replicate_2.
    - rewrite !lookup_ge_None_2; [done|rewrite length_replicate; lia|lia]. }
  exists w. split; [|done].
  destruct (lock m) as [t|]; [|done].
  destruct Hlink as (sent & todo & rest & _ & Ht & _).
  by pose proof (Hfin _ _ Ht).
Qed.

End SenderThreads.

Import Guard Session.

(** X11.  Sender threads that run [send_file], with headers that can be
    packed, on one connection, in any interleaving of their steps, no
    [send] having raised: at every moment only the thread that holds the
    lock is inside a [with self.lock:] block, and what has been written to
    the connection is whole frames, each a header with its payload after
    it or a terminal header, the frames of each call in the order of the
    call (chunk 0, chunk 1, ..., then the terminal frame), followed, while
    the lock is held, by the beginning of the next frame of its holder.
    When all threads have returned, all frames of all calls have been
    written. *)
Theorem senders_wire_interleaves (transfers : list transfer) (c : connection)
    (m : machine (list (list bytes))) :
  Forall fits transfers ->
  rtc (step sender_section) (senders transfers c) m ->
  (forall t sc, threads m !! t = Some (Inside sc) -> lock m = Some t) /\
  exists frames w rests partial,
    Forall2 framed transfers frames /\
    interleaves frames w rests /\
    sent_out (link m) = sent_out c ++ concat w ++ partial /\
    match lock m with
    | None => partial = []
    | Some t => exists frame rest,
        rests !! t = Some (frame :: rest) /\ partial `prefix_of` frame
    end /\
    (finished m -> rests = replicate (length transfers) [] /\ partial = []).
Proof.
  intros Hfit Hrun.
  apply (reachable_senders_at (program <$> transfers) c) in Hrun; [|done].
  pose proof Hrun as (w & rests & Hw & Hlen & Hout & Hin & Hlink).
  split; [done|].
  assert (Forall2 framed transfers (program <$> transfers)) as Hframed.
  { apply Forall2_fmap_r, Forall2_same_length_lookup_2; [done|].
    intros t tr tr' Ht Ht'. rewrite Ht in Ht'. injection Ht' as <-.
    pose proof (program_fits tr (proj1 (Forall_lookup _ _) Hfit t tr Ht)) as Hp.
    by destruct tr as [[ps src] id]. }
  assert (finished m -> rests = replicate (length transfers) [] /\ lock m = None) as Hdone.
  { intros Hfin.
    destruct (finished_wire _ _ _ Hrun Hfin) as (w' & _ & _).
    split.
    - apply list_eq. intros t.
      rewrite <- (length_fmap program transfers), <- (interleaves_length _ _ _ Hw), <- Hlen.
      destruct (decide (t < length (threads m))%nat) as [Ht|Ht].
      + destruct (lookup_lt_is_Some_2 _ _ Ht) as [th Hth].
        pose proof (Hfin _ _ Hth) as ->. rewrite (Hout _ _ Hth).
        symmetry. by apply lookup_replicate_2.
      + rewrite !lookup_ge_None_2; [done|rewrite length_replicate; lia|lia].
    - destruct (lock m) as [t|]; [|done].
      destruct Hlink as (sent & todo & rest & _ & Ht & _).
      by pose proof (Hfin _ _ Ht). }
  destruct (lock m) as [t|] eqn:Hlock.
  - destruct Hlink as (sent & todo & rest & Hrest & Ht & Hs).
    exists (program <$> transfers), w, rests, sent.
    split; [done|]. split; [done|]. split; [done|]. split.
    + exists (sent ++ todo), rest. split; [done|]. by exists todo.
    + intros Hfin. by destruct (Hdone Hfin).
  - exists (program <$> transfers), w, rests, [].
    rewrite app_nil_r. split; [done|]. split; [done|]. split; [done|]. split; [done|].
    intros Hfin. by destruct (Hdone Hfin).
Qed.

Ltac settle :=
  match goal with
  | |- rtc _ ?m _ => let m' := eval vm_compute in m in change m with m'
  end.

Ltac write_frame t :=
  eapply rtc_l; [eapply (step_acquire _ _ t); reflexivity|]; settle;
  repeat (eapply rtc_l; [eapply (step_send _ _ t); reflexivity|]; settle);
  eapply rtc_l; [eapply (step_release _ _ t); reflexivity|]; settle.

(** The first thread has written its first frame; the second holds the
    lock and has sent the header of its data frame. *)
Lemma senders_wire_interleaves_witness :
  exists m : machine (list (list bytes)),
    lock m = Some 1%nat /\
    (forall t sc, threads m !! t = Some (Inside sc) -> lock m = Some t) /\
    exists frames w rests partial,
      Forall2 framed Scenario.two_transfers frames /\
      interleaves frames w rests /\
      sent_out (link m)
      = sent_out (Scenario.fresh Scenario.terminal_then_data) ++ concat w ++ partial /\
      match lock m with
      | None => partial = []
      | Some t => exists frame rest,
          rests !! t = Some (frame :: rest) /\ partial `prefix_of` frame
      end /\
      (finished m -> rests = replicate (length Scenario.two_transfers) [] /\ partial = []).
Proof.
  eexists. split; cycle 1.
  - apply (senders_wire_interleaves Scenario.two_transfers
             (Scenario.fresh Scenario.terminal_then_data) _).
    + repeat constructor; vm_compute; congruence.
    + settle. write_frame 0%nat.
      eapply rtc_l; [eapply (step_acquire _ _ 1%nat); reflexivity|]. settle.
      eapply rtc_l; [eapply (step_send _ _ 1%nat); reflexivity|]. settle.
      apply rtc_refl.
  - reflexivity.
Defined.

(** X12.  What a sender thread can be kept waiting for.  In every state
    that the sender threads can reach (no [send] having raised), for a
    thread that has not returned from [send_file]: the lock is free and
    the thread can take it; or the holder of the lock is at the end of
    its block and can release the lock; or the holder of the lock is at a
    [connection.send].  So the lock is never held by a thread that is
    outside its block or has returned, and the threads can be kept
    waiting for good only by a [send] that does not return. *)
Theorem senders_wait_only_for_send (transfers : list transfer) (c : connection)
    (m : machine (list (list bytes))) (t : nat) (th : status (list (list bytes))) :
  rtc (step sender_section) (senders transfers c) m ->
  threads m !! t = Some th ->
  th <> Outside [] ->
  (lock m = None /\ exists m', step sender_section m m' /\ lock m' = Some t)
  \/ (exists t' l, lock m = Some t' /\ threads m !! t' = Some (Inside (Leave l)) /\
        exists m', step sender_section m m' /\ lock m' = None)
  \/ (exists t' data k, lock m = Some t' /\ threads m !! t' = Some (Inside (Send data k))).
Proof.
  intros Hrun Hth Hne.
  apply (reachable_senders_at (program <$> transfers) c) in Hrun; [|done].
  destruct Hrun as (w & rests & Hw & Hlen & Hout & Hin & Hlink).
  destruct (lock m) as [t'|] eqn:Hlock.
  - right. destruct Hlink as (sent & todo & rest & _ & Ht & _).
    destruct todo as [|data todo]; cbn [send_all] in Ht.
    + left. exists t', rest. split; [done|]. split; [done|].
      eexists. split; [by eapply step_release|done].
    + right. by exists t', data, (send_all todo rest).
  - left. split; [done|].
    destruct th as [[|block rest]|sc]; [done| |].
    + eexists. split; [by eapply (step_acquire _ m t)|done].
    + apply Hin in Hth. congruence.
Qed.

Lemma senders_wait_only_for_send_witness :
  let m := senders Scenario.two_transfers (Scenario.fresh Scenario.terminal_then_data) in
  (lock m = None /\ exists m', step sender_section m m' /\ lock m' = Some 1%nat)
  \/ (exists t' l, lock m = Some t' /\ threads m !! t' = Some (Inside (Leave l)) /\
        exists m', step sender_section m m' /\ lock m' = None)
  \/ (exists t' data k, lock m = Some t' /\ threads m !! t' = Some (Inside (Send data k))).
Proof.
  intros m.
  apply (senders_wait_only_for_send Scenario.two_transfers
           (Scenario.fresh Scenario.terminal_then_data) m 1%nat
           (Outside (program (2, ["d"]%byte, 1)))).
  - apply rtc_refl.
  - reflexivity.
  - vm_compute. discriminate.
Defined.

(** ** A whole session *)

Section WholeSession.

Import Client Receiver Session CompareFiles.

Lemma pool_reachable n fuels : forall s st lg tr,
  reachable n tr st ->
  exists tr', reachable n (tr ++ tr') (pool_end s st lg (pool fuels s st lg)).1.2.
Proof.
  induction fuels as [|f fuels IH]; intros s st lg tr Hreach.
  - exists []. by rewrite app_nil_r.
  - cbn [pool]. rewrite pool_end_cons.
    destruct (recv_file_reachable n f s st lg tr Hreach) as (tr1 & Hr).
    destruct (IH (conn (recv_file f s st lg)) (state (recv_file f s st lg))
                (log (recv_file f s st lg)) _ Hr) as (tr2 & Hr2).
    exists (tr1 ++ tr2). by rewrite app_assoc.
Qed.

Lemma compare_files_same rounds file :
  (2 * length file < rounds)%nat ->
  compare_files rounds file file 0 = Some (true, [Identical]).
Proof.
  intros Hr.
  destruct (compare_files_returns rounds file file 0 ltac:(lia)) as [[result messages] Hc].
  rewrite Hc.
  destruct (compare_files_report_from _ _ _ _ _ _ Hc)
    as [(-> & -> & _)|[(k & b1 & b2 & _ & _ & _ & H1 & H2 & Hb)|(_ & _ & Hl & _)]];
    [done|congruence|done].
Qed.

End WholeSession.

Import Client Receiver Session CompareFiles.

(** X13.  A whole session, as [test.py] runs and checks it.  The sender
    threads run [send_file] for the files, with the stream ids of their
    positions and headers that can be packed, in any interleaving of their
    steps, no [send] raising, on a connection on which nothing was written
    before, until all have returned; what they have written reaches the
    receiver, every buffer in one piece; as many workers as files run
    [recv_file] one after the other, with enough rounds; [wirting_files]
    is called with a name for every file, the names giving paths to
    different files (as the file system tells them apart).  Then every
    worker has left its loop on a terminal frame, [wirting_files] returns,
    the file written under the name of each stream holds the content of
    the file sent on it, and [compare_files] on the file sent and the file
    written returns [True]. *)
Theorem session_round_trip (same_file : string -> string -> bool)
    (transfers : list Guard.transfer) (c : Guard.connection)
    (m : Guard.machine (list (list bytes))) (files : list string) (closed : bool) :
  (forall p, same_file p p = true) ->
  Forall fits transfers ->
  enumerated transfers ->
  Guard.sent_out c = [] ->
  rtc (Guard.step Guard.sender_section) (Guard.senders transfers c) m ->
  finished m ->
  length files = length transfers ->
  distinct_files same_file (length transfers) files ->
  exists enough, forall rounds, (enough <= rounds)%nat ->
    let n := Z.of_nat (length transfers) in
    let s := {| arrivals := Guard.sent_out (Guard.link m); peer_closed := closed |} in
    let runs := pool (replicate (length transfers) rounds) s (initial_streams n) [] in
    Forall (fun r => how r = Exited ZeroLength) runs /\
    exists ws,
      wirting_files files (items n (file_buffers (pool_end s (initial_streams n) [] runs).1.2))
      = (ws, Returned tt) /\
      forall t package_size file_data id_stream name,
        transfers !! t = Some (package_size, file_data, id_stream) ->
        files !! t = Some name ->
        exists received,
          content same_file (path_join "files_recv" name) ws = Some received /\
          received = file_data /\
          forall rounds', (length file_data + length received < rounds')%nat ->
            compare_files rounds' file_data received 0 = Some (true, [Identical]).
Proof.
  intros Hrefl Hfit Henum Hc Hrun Hfin Hlen Hdist.
  apply (reachable_senders_at (Guard.program <$> transfers) c) in Hrun; [|done].
  destruct (finished_wire _ _ _ Hrun Hfin) as (w & Hs & Hw).
  rewrite Hc, app_nil_l in Hs. rewrite length_fmap in Hw.
  destruct (session_reassembles transfers closed Hfit Henum w Hw) as (enough & Hpool).
  exists enough. intros rounds Hr n s runs.
  specialize (Hpool rounds Hr). cbv zeta in Hpool. unfold delivered in Hpool.
  rewrite <- Hs in Hpool. fold s n in Hpool. fold runs in Hpool.
  destruct Hpool as (Hruns & s' & st & lg & Hend & _ & Hbuf).
  split; [done|].
  destruct (pool_reachable n (replicate (length transfers) rounds) s (initial_streams n)
              [] [] (reach_initial n)) as (tr' & Hreach).
  fold runs in Hreach. rewrite Hend in Hreach |- *. cbn [fst snd] in Hreach |- *.
  apply reachable_well_formed in Hreach.
  pose proof (items_registered n st Hreach) as Hit.
  pose proof (Forall2_length _ _ _ Hit) as Hlen1. rewrite py_range_length in Hlen1.
  destruct (wirting_files_named files (items n (file_buffers st))) as (ws & Hw' & Hf).
  { apply Forall_lookup. intros j item Hitem.
    destruct (Forall2_lookup_r _ _ _ _ _ Hit Hitem) as (i & Hi & -> & _).
    apply list_elem_of_lookup_2, py_range_elem in Hi. unfold py_len. lia. }
  assert (Forall2 (write_of files (file_buffers st)) (seq 0 (length transfers)) ws) as Hws.
  { apply (writes_of_streams n st files ws (length transfers) Hreach); [unfold n; lia|].
    rewrite take_ge by (rewrite <- Hlen1; unfold n; by rewrite Nat2Z.id). done. }
  exists ws. split; [done|].
  intros t ps src id name Htr Hname.
  pose proof (Henum _ _ Htr) as Hid. cbn [snd] in Hid. subst id.
  exists src. split; [|split; [done|]].
  - rewrite (written_content same_file (length transfers) files (file_buffers st) ws
               Hrefl Hdist Hws t name); [|by apply lookup_lt_Some in Htr|done].
    apply Hbuf with ps. by eapply list_elem_of_lookup_2.
  - intros rounds' Hr'. apply compare_files_same. lia.
Qed.

Lemma session_round_trip_witness :
  exists m : Guard.machine (list (list bytes)),
    finished m /\
    exists enough, forall rounds, (enough <= rounds)%nat ->
      let n := Z.of_nat (length Scenario.two_transfers) in
      let s := {| arrivals := Guard.sent_out (Guard.link m); peer_closed := false |} in
      let runs := pool (replicate (length Scenario.two_transfers) rounds) s
                    (initial_streams n) [] in
      Forall (fun r => how r = Exited ZeroLength) runs /\
      exists ws,
        wirting_files ["a.bin"; "b.bin"]%string
          (items n (file_buffers (pool_end s (initial_streams n) [] runs).1.2))
        = (ws, Returned tt) /\
        forall t package_size file_data id_stream name,
          Scenario.two_transfers !! t = Some (package_size, file_data, id_stream) ->
          ["a.bin"; "b.bin"]%string !! t = Some name ->
          exists received,
            content String.eqb (path_join "files_recv" name) ws = Some received /\
            received = file_data /\
            forall rounds', (length file_data + length received < rounds')%nat ->
              compare_files rounds' file_data received 0 = Some (true, [Identical]).
Proof.
  eexists. split; cycle 1.
  - apply (session_round_trip String.eqb Scenario.two_transfers
             (Scenario.fresh Scenario.terminal_then_data) _
             ["a.bin"; "b.bin"]%string false).
    + apply String.eqb_refl.
    + repeat constructor; vm_compute; congruence.
    + intros [|[|t]] tr; [intros [= <-]; reflexivity..|done].
    + reflexivity.
    + settle. write_frame 1%nat. write_frame 0%nat. write_frame 0%nat.
      write_frame 1%nat. write_frame 0%nat. apply rtc_refl.
    + intros [|[|t]] th; [intros [= <-]; reflexivity..|done].
    + reflexivity.
    + intros [|[|i]] [|[|j]] a b Hi Hj Hij; cbn [length Scenario.two_transfers] in *;
        try lia; try done; intros [= <-] [= <-]; reflexivity.
  - intros [|[|t]] th; [intros [= <-]; reflexivity..|done].
Defined.

(** ** The statistics of a session *)

Section CloseOrder.

Import Session.

Context {num : Type} (num_zero : num) (num_gt : num -> num -> bool)
  (true_div : Z -> num -> num).

Lemma sum_permutation (l l' : list Z) :
  l ≡ₚ l' -> foldr Z.add 0 l = foldr Z.add 0 l'.
Proof. induction 1; cbn; lia. Qed.

Lemma close_sums (statistic : list (file_stat num)) :
  sum_bytes (close num_zero num_gt true_div statistic)
  = foldr Z.add 0 (stat_bytes <$> statistic) /\
  sum_packages (close num_zero num_gt true_div statistic)
  = foldr Z.add 0 (stat_packages <$> statistic).
Proof.
  unfold close.
  pose proof (close_step_sums num_gt statistic 0 0 num_zero) as [Hb Hp].
  destruct (fold_left (close_step num_gt) statistic (0, 0, num_zero)) as [[sb sp] t].
  cbn [fst snd] in *. destruct (num_gt t num_zero); cbn; lia.
Qed.

Lemma close_total_time (statistic : list (file_stat num)) :
  total_time (close num_zero num_gt true_div statistic)
  = (fold_left (close_step num_gt) statistic (0, 0, num_zero)).2.
Proof.
  unfold close.
  destruct (fold_left (close_step num_gt) statistic (0, 0, num_zero)) as [[sb sp] t].
  by destruct (num_gt t num_zero).
Qed.

Lemma reported_totals (transfers : list Guard.transfer) (statistic : list (file_stat num)) :
  Forall (fun tr => 1 <= tr.1.1) transfers ->
  Forall2 reports transfers statistic ->
  foldr Z.add 0 (stat_bytes <$> statistic)
  = foldr Z.add 0 ((fun tr => py_len tr.1.2) <$> transfers) /\
  foldr Z.add 0 (stat_packages <$> statistic)
  = foldr Z.add 0 ((fun tr => Spec.ceil_div (py_len tr.1.2) tr.1.1) <$> transfers).
Proof.
  intros Hps Hrep. induction Hrep as [|tr fs trs stats Hr _ IH]; [done|].
  apply Forall_cons in Hps as [Hp Hps]. destruct (IH Hps) as [IHb IHp].
  cbn [fmap list_fmap foldr]. rewrite IHb, IHp.
  unfold reports in Hr.
  apply send_file_statistic in Hr; [|done]. injection Hr as -> ->. done.
Qed.

(** [>] is a strict total order, as on the numbers that are not NaN. *)
Hypothesis gt_irrefl : forall x, num_gt x x = false.
Hypothesis gt_trans :
  forall x y z, num_gt x y = true -> num_gt y z = true -> num_gt x z = true.
Hypothesis gt_cotrans :
  forall x y z, num_gt x z = true -> num_gt x y = true \/ num_gt y z = true.

Lemma total_time_bound (l l' : list (file_stat num)) :
  l ≡ₚ l' ->
  num_gt (total_time (close num_zero num_gt true_div l))
         (total_time (close num_zero num_gt true_div l')) = false.
Proof.
  intros Hperm. rewrite !close_total_time.
  pose proof (close_step_max num_gt gt_irrefl gt_trans gt_cotrans l 0 0 num_zero)
    as (Hin & _ & _).
  pose proof (close_step_max num_gt gt_irrefl gt_trans gt_cotrans l' 0 0 num_zero)
    as (_ & Hstart & Hall).
  apply elem_of_cons in Hin as [->|Hin]; [done|].
  apply Hall. by rewrite <- Hperm.
Qed.

End CloseOrder.

(** X14.  The totals that [close] computes when the statistic holds, in
    whatever order, the tuples that calls of [send_file] with package
    sizes >= 1 have put on the queue: [sum_bytes] is the total length of
    the files sent and [sum_packages] the total number of their data
    frames. *)
Theorem close_reports_files {num : Type} (num_zero : num) (num_gt : num -> num -> bool)
    (true_div : Z -> num -> num) (transfers : list Guard.transfer)
    (reported statistic : list (file_stat num)) :
  Forall (fun tr => 1 <= tr.1.1) transfers ->
  Forall2 Session.reports transfers reported ->
  reported ≡ₚ statistic ->
  let r := close num_zero num_gt true_div statistic in
  sum_bytes r = foldr Z.add 0 ((fun tr => py_len tr.1.2) <$> transfers) /\
  sum_packages r
  = foldr Z.add 0 ((fun tr => Spec.ceil_div (py_len tr.1.2) tr.1.1) <$> transfers).
Proof.
  intros Hps Hrep Hperm r. subst r.
  destruct (close_sums num_zero num_gt true_div statistic) as [-> ->].
  destruct (reported_totals transfers reported Hps Hrep) as [<- <-].
  split; apply sum_permutation; by rewrite Hperm.
Qed.

Lemma close_reports_files_witness :
  let reported :=
    [ {| stat_path := "files_to_send/file0.bin"; stat_bytes := 3; stat_packages := 2;
         stat_bytes_per_sec := 3%Q; stat_packages_per_sec := 2%Q;
         stat_elapsed := 1%Q; stat_first_send := 0%Q |};
      {| stat_path := "files_to_send/file1.bin"; stat_bytes := 1; stat_packages := 1;
         stat_bytes_per_sec := 2%Q; stat_packages_per_sec := 2%Q;
         stat_elapsed := (1 # 2)%Q; stat_first_send := 0%Q |} ] in
  let r := close 0%Q Q_gt Q_true_div (reverse reported) in
  sum_bytes r = foldr Z.add 0 ((fun tr => py_len tr.1.2) <$> Scenario.two_transfers) /\
  sum_packages r
  = foldr Z.add 0 ((fun tr => Spec.ceil_div (py_len tr.1.2) tr.1.1)
                     <$> Scenario.two_transfers).
Proof.
  intros reported.
  apply (close_reports_files 0%Q Q_gt Q_true_div Scenario.two_transfers reported).
  - repeat constructor; vm_compute; discriminate.
  - repeat constructor; vm_compute; reflexivity.
  - symmetry. apply reverse_Permutation.
Defined.

(** X15.  The totals of [close] do not depend on the order in which the
    threads have put their tuples on the queue: for two statistics that
    hold the same tuples, the totals of bytes and of packages are the same
    and neither total time exceeds the other. *)
Theorem close_order_independent {num : Type} (num_zero : num)
    (num_gt : num -> num -> bool) (true_div : Z -> num -> num)
    (statistic statistic' : list (file_stat num)) :
  (forall x, num_gt x x = false) ->
  (forall x y z, num_gt x y = true -> num_gt y z = true -> num_gt x z = true) ->
  (forall x y z, num_gt x z = true -> num_gt x y = true \/ num_gt y z = true) ->
  statistic ≡ₚ statistic' ->
  let r := close num_zero num_gt true_div statistic in
  let r' := close num_zero num_gt true_div statistic' in
  sum_bytes r = sum_bytes r' /\
  sum_packages r = sum_packages r' /\
  num_gt (total_time r) (total_time r') = false /\
  num_gt (total_time r') (total_time r) = false.
Proof.
  intros Hirr Htrans Hco Hperm r r'. subst r r'.
  destruct (close_sums num_zero num_gt true_div statistic) as [-> ->].
  destruct (close_sums num_zero num_gt true_div statistic') as [-> ->].
  split; [apply sum_permutation; by rewrite Hperm|].
  split; [apply sum_permutation; by rewrite Hperm|].
  split; by apply total_time_bound.
Qed.

Lemma close_order_independent_witness :
  let statistic :=
    [ {| stat_path := "files_to_send/file0.bin"; stat_bytes := 3000; stat_packages := 2;
         stat_bytes_per_sec := 1500%Q; stat_packages_per_sec := 1%Q;
         stat_elapsed := 2%Q; stat_first_send := 0%Q |};
      {| stat_path := "files_to_send/file1.bin"; stat_bytes := 5000; stat_packages := 4;
         stat_bytes_per_sec := (10000 # 9)%Q; stat_packages_per_sec := (8 # 9)%Q;
         stat_elapsed := (9 # 2)%Q; stat_first_send := 0%Q |} ] in
  let r := close 0%Q Q_gt Q_true_div statistic in
  let r' := close 0%Q Q_gt Q_true_div (reverse statistic) in
  sum_bytes r = sum_bytes r' /\
  sum_packages r = sum_packages r' /\
  Q_gt (total_time r) (total_time r') = false /\
  Q_gt (total_time r') (total_time r) = false.
Proof.
  intros statistic.
  apply (close_order_independent 0%Q Q_gt Q_true_div statistic (reverse statistic));
    unfold Q_gt.
  - intros x. rewrite negb_false_iff, Qle_bool_iff. apply Qle_refl.
  - intros x y z. rewrite !negb_true_iff, <- !not_true_iff_false, !Qle_bool_iff.
    intros Hxy Hyz Hxz. apply Qnot_le_lt in Hxy, Hyz.
    apply (Qlt_not_le _ _ (Qlt_trans _ _ _ Hyz Hxy)). exact Hxz.
  - intros x y z. rewrite !negb_true_iff, <- !not_true_iff_false, !Qle_bool_iff.
    intros Hxz. destruct (Qlt_le_dec y x) as [Hyx|Hxy].
    + left. by apply Qlt_not_le.
    + right. intros Hyz. apply Hxz. by apply Qle_trans with y.
  - symmetry. apply reverse_Permutation.
Defined.

(** ** Frames that come too late *)

Section Counters.

Import Client.

(** The counter of a stream is the number of the commits of the stream. *)
Lemma reachable_counter n tr st :
  reachable n tr st ->
  forall id_stream, 0 <= id_stream < n ->
    curret_package st !! Z.to_nat id_stream = Some (py_len (commits_of id_stream tr)).
Proof.
  induction 1 as [|tr st id seq p st' Hr IH Hc]; intros id_stream Hid.
  - by apply initial_counter.
  - pose proof (reachable_well_formed _ _ _ Hr) as [Hd Hl].
    apply commit_package_Committed in Hc as (buffer & k & Hb & Hk & Hcur & ->).
    assert (0 <= id < n) as Hid' by (apply Hd; eauto).
    unfold py_len in Hk. rewrite Hl, py_index_in_range in Hk by lia.
    injection Hk as <-. specialize (IH id_stream Hid).
    rewrite commits_of_snoc. cbn [event_stream curret_package].
    destruct (decide (id = id_stream)) as [->|Hne].
    + rewrite IH in Hcur. injection Hcur as <-.
      rewrite list_lookup_insert_eq by lia.
      unfold py_len. rewrite length_app. cbn [length]. f_equal. lia.
    + rewrite app_nil_r, list_lookup_insert_ne by lia. done.
Qed.

Lemma stale_frame_waits n tr st tr' st' id_stream id_package package current :
  reachable n tr st ->
  0 <= id_stream < n ->
  curret_package st !! Z.to_nat id_stream = Some current ->
  id_package < current ->
  reachable n (tr ++ tr') st' ->
  commit_package st' id_stream id_package package = Waiting.
Proof.
  intros Hr Hid Hcur Hlt Hr'.
  rewrite (reachable_counter _ _ _ Hr _ Hid) in Hcur. injection Hcur as <-.
  pose proof (reachable_counter _ _ _ Hr' _ Hid) as Hcur'.
  pose proof (reachable_well_formed _ _ _ Hr') as [Hd Hl].
  destruct (proj2 (Hd id_stream) Hid) as [buffer Hb].
  unfold commit_package. rewrite Hb. unfold py_len at 1.
  rewrite Hl, py_index_in_range, Hcur' by lia.
  unfold commits_of, py_len in *. rewrite filter_app, length_app.
  destruct (Z.eqb_spec (Z.of_nat (length (filter (fun e => event_stream e = id_stream) tr)
                                  + length (filter (fun e => event_stream e = id_stream) tr')))
              id_package) as [?|_]; [lia|done].
Qed.

End Counters.

Import Client.

(** X16.  A frame that comes too late is never committed.  When the
    counter of a registered stream has passed a sequence number, then in
    no state that later commits lead to can a frame of the stream with
    this sequence number be committed: the comparison in the inner loop
    of [recv_file] fails, and the worker that has read such a frame
    stays in its inner loop without changing the streams. *)
Theorem stale_frame_never_committed (n : Z) (tr tr' : list commit_event)
    (st st' : streams) (s s1 : sock) (rounds : nat) (lg : list log_entry)
    (id_stream data_length id_package current : Z) (package : bytes) :
  reachable n tr st ->
  0 <= id_stream < n ->
  curret_package st !! Z.to_nat id_stream = Some current ->
  id_package < current ->
  reachable n (tr ++ tr') st' ->
  read_frame s = ReadFrame id_stream data_length id_package package s1 ->
  commit_package st' id_stream id_package package = Waiting /\
  how (recv_file (S rounds) s st' lg) = Polling /\
  state (recv_file (S rounds) s st' lg) = st'.
Proof.
  intros Hr Hid Hcur Hlt Hr' Hread.
  pose proof (stale_frame_waits _ _ _ _ _ _ _ package _ Hr Hid Hcur Hlt Hr') as Hw.
  split; [done|]. cbn [recv_file]. by rewrite Hread, Hw.
Qed.

Lemma stale_frame_never_committed_witness :
  let st := {| file_buffers := <[0 := [] ++ ["a"; "b"]%byte]> (file_buffers (initial_streams 1));
               curret_package := <[0%nat := 0 + 1]> (curret_package (initial_streams 1)) |} in
  commit_package st 0 0 ["a"; "b"]%byte = Waiting /\
  how (recv_file 1 Scenario.payload_in_two_pieces st []) = Polling /\
  state (recv_file 1 Scenario.payload_in_two_pieces st []) = st.
Proof.
  intros st.
  assert (reachable 1 ([] ++ [Commit 0 0 ["a"; "b"]%byte]) st) as Hr.
  { apply (reach_commit 1 [] (initial_streams 1) 0 0 ["a"; "b"]%byte st).
    - apply reach_initial.
    - vm_compute. reflexivity. }
  apply (stale_frame_never_committed 1 ([] ++ [Commit 0 0 ["a"; "b"]%byte]) [] st st
           Scenario.payload_in_two_pieces
           {| arrivals := [["c"; "d"]%byte;
                           [x00; x00; x00; x00;  x00; x00; x00; x00;  x00; x00; x00; x00]];
              peer_closed := false |}
           0 [] 0 4 0 1 ["a"; "b"]%byte).
  - exact Hr.
  - lia.
  - reflexivity.
  - lia.
  - rewrite app_nil_r. exact Hr.
  - reflexivity.
Defined.
